(** * FileCompressionTool: the codecs and the container header, verified

    A shallow embedding of [algorithms.py] (the RLE, Huffman and LZW codecs),
    of the header writer and reader of [compressor.py] and of the generated
    data of [benchmark.py], with the properties the specification states
    about them and further properties of the code.

    Conventions of the embedding:
    - a Python [bytes] / [bytearray] value is a [list byte];
    - a Python [int] is a [Z];
    - a Python [dict] that is only looked up and stored to is a [gmap]; a
      [Counter], whose iteration order is observed, is an association list;
    - a Python exception is a value of type [exn], carried by [result];
    - [pickle.loads (pickle.dumps v)] is [v]: a pickled payload is modelled
      by the value it carries. *)

From Stdlib Require Import ZArith Lia Strings.Byte Strings.Ascii.
From stdpp Require Import base tactics option numbers list gmap strings.

Local Open Scope Z_scope.

(** ** Bytes *)

Abbreviation bytes := (list byte).

#[global] Instance byte_eq_dec : EqDecision byte := Byte.byte_eq_dec.

#[global] Program Instance byte_countable : Countable byte :=
  inj_countable Byte.to_N Byte.of_N _.
Next Obligation. exact Byte.of_to_N. Qed.

(** [data[i]]: the integer value of a byte. *)
Definition byte_to_Z (b : byte) : Z := Z.of_N (Byte.to_N b).

(** Python exceptions raised by the modelled code. The argument of
    [ValueError] tells the [raise] statements and library checks apart. *)
Inductive value_error : Type :=
  | ByteOutOfRange              (* bytes([i]), bytearray.extend: not in range(256) *)
  | InvalidLiteral              (* int(s, 2): not a binary literal *)
  | InvalidMagic                (* "Not a valid compressed file (invalid magic bytes)" *)
  | UnsupportedVersion (version : Z)   (* "Unsupported version: ..." *)
  | BadCompressedK (k : Z).     (* "Bad compressed k: ..." *)

Inductive exn : Type :=
  | ValueError (why : value_error)
  | KeyError        (* dict lookup of a missing key *)
  | IndexError      (* index out of range, pop from an empty list *)
  | StructError     (* struct.unpack on a buffer of the wrong size *)
  | UnicodeDecodeError.

Inductive result (A : Type) : Type :=
  | Ok (a : A)
  | Raise (e : exn).
Arguments Ok {A} a.
Arguments Raise {A} e.

#[global] Instance result_ret : MRet result := λ A a, Ok a.
#[global] Instance result_bind : MBind result := λ A B k m,
  match m with
  | Ok a => k a
  | Raise e => Raise e
  end.

Definition of_option {A} (e : exn) (o : option A) : result A :=
  match o with
  | Some a => Ok a
  | None => Raise e
  end.

(** [bytes([i])] and the element check of [bytearray.extend]: an integer
    outside [0..255] raises [ValueError]. *)
Definition byte_of_Z (z : Z) : result byte :=
  if decide (0 ≤ z) then
    of_option (ValueError ByteOutOfRange) (Byte.of_N (Z.to_N z))
  else Raise (ValueError ByteOutOfRange).

(** [range(0, n, step)] for a positive [step]. *)
Definition range_step (n step : nat) : list nat :=
  (λ j, step * j)%nat <$> seq 0 ((n + step - 1) / step)%nat.

(** [s[i:j]] for [0 <= i <= j]. *)
Definition slice {A} (s : list A) (i j : nat) : list A :=
  take (j - i)%nat (drop i s).

(** [l[i]] and [l[i] = x] on a Python list: out of range raises
    [IndexError]. *)
Definition getitem {A} (l : list A) (i : nat) : result A :=
  of_option IndexError (l !! i).

Definition setitem {A} (l : list A) (i : nat) (x : A) : result (list A) :=
  if decide (i < length l)%nat then Ok (<[i:=x]> l) else Raise IndexError.

(** ** Run-length encoding ([class RLE]) *)

Module RLE.

(** [compressed.extend([count, current])] *)
Definition extend_pair (compressed : bytes) (count : Z) (current : byte)
  : result bytes :=
  c ← byte_of_Z count;
  Ok (compressed ++ [c; current]).

(** The body of [for byte in data[1:]], threading
    [(compressed, count, current)]. *)
Fixpoint compress_loop (rest : bytes) (compressed : bytes) (count : Z)
    (current : byte) : result (bytes * Z * byte) :=
  match rest with
  | [] => Ok (compressed, count, current)
  | byte :: rest' =>
      if decide (byte = current ∧ count < 255) then
        compress_loop rest' compressed (count + 1) current
      else
        compressed' ← extend_pair compressed count current;
        compress_loop rest' compressed' 1 byte
  end.

Definition compress (data : bytes) : result bytes :=
  match data with
  | [] => Ok []
  | current :: rest =>
      '(compressed, count, current') ← compress_loop rest [] 1 current;
      extend_pair compressed count current'
  end.

(** The body of [for i in range(0, len(compressed_data), 2)]. *)
Definition decompress_step (compressed_data : bytes) (decompressed : bytes)
    (i : nat) : bytes :=
  if decide (i + 1 < length compressed_data)%nat then
    match compressed_data !! i, compressed_data !! (i + 1)%nat with
    | Some count, Some value =>
        decompressed ++ replicate (Z.to_nat (byte_to_Z count)) value
    | _, _ => decompressed
    end
  else decompressed.

Definition decompress (compressed_data : bytes) : bytes :=
  match compressed_data with
  | [] => []
  | _ => foldl (decompress_step compressed_data) []
           (range_step (length compressed_data) 2)
  end.

(** The same decoder by recursion on the pairs, used in the proofs. *)
Fixpoint decode_pairs (l : bytes) : bytes :=
  match l with
  | count :: value :: l' =>
      replicate (Z.to_nat (byte_to_Z count)) value ++ decode_pairs l'
  | _ => []
  end.

End RLE.

(** ** The binary heap of Python's [heapq] module

    [HuffmanCoding] keeps its nodes in a list managed by [heapq.heappush]
    and [heapq.heappop]; which node is popped when frequencies tie depends
    on the exact sift procedures, so they are transcribed from CPython's
    [Lib/heapq.py]. The two [while] loops take a fuel argument that bounds
    their iterations: [pos] strictly decreases in [_siftdown] and strictly
    increases below [endpos] in [_siftup]. *)

Module heapq.
Section heapq.
Context {A : Type} (lt : A → A → bool).

(** The [while pos > startpos] loop of [_siftdown]. *)
Fixpoint siftdown_loop (fuel : nat) (heap : list A) (startpos pos : nat)
    (newitem : A) : result (list A * nat) :=
  match fuel with
  | O => Ok (heap, pos)
  | S fuel' =>
      if decide (startpos < pos)%nat then
        let parentpos := ((pos - 1) / 2)%nat in
        parent ← getitem heap parentpos;
        if lt newitem parent then
          heap' ← setitem heap pos parent;
          siftdown_loop fuel' heap' startpos parentpos newitem
        else Ok (heap, pos)
      else Ok (heap, pos)
  end.

Definition _siftdown (heap : list A) (startpos pos : nat) : result (list A) :=
  newitem ← getitem heap pos;
  '(heap', pos') ← siftdown_loop (S pos) heap startpos pos newitem;
  setitem heap' pos' newitem.

(** The [while childpos < endpos] loop of [_siftup]. *)
Fixpoint siftup_loop (fuel : nat) (heap : list A) (endpos pos childpos : nat)
    : result (list A * nat) :=
  match fuel with
  | O => Ok (heap, pos)
  | S fuel' =>
      if decide (childpos < endpos)%nat then
        let rightpos := (childpos + 1)%nat in
        childpos' ←
          (if decide (rightpos < endpos)%nat then
             c ← getitem heap childpos;
             r ← getitem heap rightpos;
             Ok (if negb (lt c r) then rightpos else childpos)
           else Ok childpos);
        child ← getitem heap childpos';
        heap' ← setitem heap pos child;
        siftup_loop fuel' heap' endpos childpos' (2 * childpos' + 1)%nat
      else Ok (heap, pos)
  end.

Definition _siftup (heap : list A) (pos : nat) : result (list A) :=
  let endpos := length heap in
  let startpos := pos in
  newitem ← getitem heap pos;
  '(heap', pos') ← siftup_loop endpos heap endpos pos (2 * pos + 1)%nat;
  heap'' ← setitem heap' pos' newitem;
  _siftdown heap'' startpos pos'.

Definition heappush (heap : list A) (item : A) : result (list A) :=
  let heap' := heap ++ [item] in
  _siftdown heap' 0 (length heap' - 1).

(** Returns the popped item and the heap left. *)
Definition heappop (heap : list A) : result (A * list A) :=
  match reverse heap with
  | [] => Raise IndexError
  | lastelt :: rest_rev =>
      let heap' := reverse rest_rev in
      match heap' with
      | [] => Ok (lastelt, heap')
      | returnitem :: _ =>
          heap'' ← setitem heap' 0 lastelt;
          heap''' ← _siftup heap'' 0;
          Ok (returnitem, heap''')
      end
  end.

End heapq.
End heapq.

(** ** Huffman coding ([class HuffmanNode], [class HuffmanCoding]) *)

(** A Python [str]; here always a string of the characters ['0'] and ['1']. *)
Abbreviation str := (list ascii).

Module Huffman.

(** [class HuffmanNode]: [char] is [None] in a merged node, [left] and
    [right] are [None] in a node created from a symbol. *)
#[warnings="-register-all"]
Inductive HuffmanNode : Type :=
  mkNode {
    char : option byte;
    freq : Z;
    left : option HuffmanNode;
    right : option HuffmanNode
  }.

(** [HuffmanNode(char, freq)] *)
Definition new_node (char : option byte) (freq : Z) : HuffmanNode :=
  mkNode char freq None None.

(** [HuffmanNode.__lt__] *)
Definition lt (self other : HuffmanNode) : bool :=
  bool_decide (freq self < freq other).

(** The instance fields set by [__init__]; they persist between calls. *)
Record HuffmanCoding : Type :=
  mkHuffmanCoding {
    heap : list HuffmanNode;
    codes : gmap byte str;
    reverse_mapping : gmap str byte
  }.

(** [HuffmanCoding()] *)
Definition init : HuffmanCoding := mkHuffmanCoding [] ∅ ∅.

(** [Counter(data)]: the symbols in order of first occurrence, each with
    its number of occurrences. *)
Fixpoint counter_add (c : list (byte * Z)) (x : byte) : list (byte * Z) :=
  match c with
  | [] => [(x, 1)]
  | (y, n) :: c' =>
      if decide (x = y) then (y, n + 1) :: c' else (y, n) :: counter_add c' x
  end.

Definition Counter (data : bytes) : list (byte * Z) :=
  foldl counter_add [] data.

Definition _make_frequency_dict (data : bytes) : list (byte * Z) :=
  Counter data.

(** [_make_heap]: pushes one node per [(char, freq)] item on [self.heap]. *)
Fixpoint _make_heap (heap : list HuffmanNode) (frequency : list (byte * Z))
    : result (list HuffmanNode) :=
  match frequency with
  | [] => Ok heap
  | (char, freq) :: frequency' =>
      let node := new_node (Some char) freq in
      heap' ← heapq.heappush lt heap node;
      _make_heap heap' frequency'
  end.

(** [_merge_nodes]: each iteration shortens the heap by one, so
    [length heap] iterations are enough. *)
Fixpoint merge_loop (fuel : nat) (heap : list HuffmanNode)
    : result (list HuffmanNode) :=
  match fuel with
  | O => Ok heap
  | S fuel' =>
      if decide (1 < length heap)%nat then
        '(node1, heap1) ← heapq.heappop lt heap;
        '(node2, heap2) ← heapq.heappop lt heap1;
        let merged :=
          mkNode None (freq node1 + freq node2) (Some node1) (Some node2) in
        heap3 ← heapq.heappush lt heap2 merged;
        merge_loop fuel' heap3
      else Ok heap
  end.

Definition _merge_nodes (heap : list HuffmanNode) : result (list HuffmanNode) :=
  merge_loop (length heap) heap.

(** [_make_codes], on a node that is not [None]; the pair is
    [(self.codes, self.reverse_mapping)]. *)
Fixpoint make_codes_node (root : HuffmanNode) (current_code : str)
    (tables : gmap byte str * gmap str byte) : gmap byte str * gmap str byte :=
  let tables1 :=
    match char root with
    | Some c => (<[c := current_code]> tables.1, <[current_code := c]> tables.2)
    | None => tables
    end in
  let tables2 :=
    match left root with
    | Some l => make_codes_node l (current_code ++ ["0"%char]) tables1
    | None => tables1
    end in
  match right root with
  | Some r => make_codes_node r (current_code ++ ["1"%char]) tables2
  | None => tables2
  end.

Definition _make_codes (root : option HuffmanNode) (current_code : str)
    (tables : gmap byte str * gmap str byte) : gmap byte str * gmap str byte :=
  match root with
  | None => tables
  | Some n => make_codes_node n current_code tables
  end.

(** [_get_encoded_text]: [self.codes[char]] raises [KeyError] on a symbol
    without a code. *)
Fixpoint _get_encoded_text (codes : gmap byte str) (data : bytes)
    (encoded_text : str) : result str :=
  match data with
  | [] => Ok encoded_text
  | char :: data' =>
      code ← of_option KeyError (codes !! char);
      _get_encoded_text codes data' (encoded_text ++ code)
  end.

(** [format(n, "08b")]: the binary digits of [n], most significant first,
    zero-padded to a width of 8 (a minus sign counts in the width). *)
Fixpoint bin_digits (p : positive) (acc : str) : str :=
  match p with
  | xH => "1"%char :: acc
  | xO p' => bin_digits p' ("0"%char :: acc)
  | xI p' => bin_digits p' ("1"%char :: acc)
  end.

Definition format_08b (n : Z) : str :=
  match n with
  | Z0 => replicate 8 "0"%char
  | Zpos p =>
      let ds := bin_digits p [] in replicate (8 - length ds) "0"%char ++ ds
  | Zneg p =>
      let ds := bin_digits p [] in
      "-"%char :: replicate (7 - length ds) "0"%char ++ ds
  end.

(** [int(s, 2)] on a string of binary digits; the empty string and any
    other character raise [ValueError]. (Python also accepts a sign, a
    [0b] prefix, underscores and surrounding blanks, which never occur
    here.) *)
Fixpoint int2_loop (s : str) (acc : Z) : result Z :=
  match s with
  | [] => Ok acc
  | c :: s' =>
      if decide (c = "0"%char) then int2_loop s' (2 * acc)
      else if decide (c = "1"%char) then int2_loop s' (2 * acc + 1)
      else Raise (ValueError InvalidLiteral)
  end.

Definition int2 (s : str) : result Z :=
  match s with
  | [] => Raise (ValueError InvalidLiteral)
  | _ => int2_loop s 0
  end.

Definition _pad_encoded_text (encoded_text : str) : str :=
  let padding := 8 - Z.of_nat (length encoded_text) `mod` 8 in
  let padding := if decide (padding = 8) then 0 else padding in
  let padded_text := encoded_text ++ replicate (Z.to_nat padding) "0"%char in
  let padded_info := format_08b padding in
  padded_info ++ padded_text.

Definition _bytes_to_binary (data : bytes) : str :=
  foldl (λ binary byte, binary ++ format_08b (byte_to_Z byte)) [] data.

(** The loop of [compress] that converts the padded text to bytes,
    [i] ranging over [range(0, len(padded_encoded_text), 8)]. *)
Fixpoint pack_loop (padded_encoded_text : str) (indices : list nat)
    (byte_array : bytes) : result bytes :=
  match indices with
  | [] => Ok byte_array
  | i :: indices' =>
      let byte := slice padded_encoded_text i (i + 8) in
      n ← int2 byte;
      b ← byte_of_Z n;
      pack_loop padded_encoded_text indices' (byte_array ++ [b])
  end.

(** [compress]: returns the pickled pair [(bytes(byte_array),
    self.reverse_mapping)] and the instance as the call leaves it. *)
Definition compress (self : HuffmanCoding) (data : bytes)
    : result ((bytes * gmap str byte) * HuffmanCoding) :=
  match data with
  | [] => Ok (([], ∅), self)
  | _ =>
      let frequency := _make_frequency_dict data in
      heap1 ← _make_heap (heap self) frequency;
      heap2 ← _merge_nodes heap1;
      '(root, heap3) ← heapq.heappop lt heap2;
      let tables :=
        _make_codes (Some root) [] (codes self, reverse_mapping self) in
      encoded_text ← _get_encoded_text tables.1 data [];
      let padded_encoded_text := _pad_encoded_text encoded_text in
      byte_array ← pack_loop padded_encoded_text
                      (range_step (length padded_encoded_text) 8) [];
      Ok ((byte_array, tables.2), mkHuffmanCoding heap3 tables.1 tables.2)
  end.

Definition _remove_padding (bit_string : str) : result str :=
  let padding_info := take 8 bit_string in
  padding ← int2 padding_info;
  let bit_string := drop 8 bit_string in
  Ok (if decide (0 < padding)
      then take (length bit_string - Z.to_nat padding) bit_string
      else bit_string).

(** The loop of [_decode_text], threading [(current_code, decoded_text)]. *)
Fixpoint decode_loop (reverse_mapping : gmap str byte) (encoded_text : str)
    (current_code : str) (decoded_text : bytes) : bytes :=
  match encoded_text with
  | [] => decoded_text
  | bit :: encoded_text' =>
      let current_code := current_code ++ [bit] in
      match reverse_mapping !! current_code with
      | Some c => decode_loop reverse_mapping encoded_text' [] (decoded_text ++ [c])
      | None => decode_loop reverse_mapping encoded_text' current_code decoded_text
      end
  end.

Definition _decode_text (encoded_text : str) (reverse_mapping : gmap str byte)
    : bytes :=
  decode_loop reverse_mapping encoded_text [] [].

(** [decompress] reads no field of the instance. *)
Definition decompress (compressed_data : bytes * gmap str byte) : result bytes :=
  let '(byte_array, reverse_mapping) := compressed_data in
  match byte_array with
  | [] => Ok []
  | _ =>
      let bit_string := _bytes_to_binary byte_array in
      encoded_text ← _remove_padding bit_string;
      Ok (_decode_text encoded_text reverse_mapping)
  end.

End Huffman.

(** ** Lempel-Ziv-Welch ([class LZW]) *)

Module LZW.

(** The bytes [bytes([0])], ..., [bytes([255])] in order. *)
Definition all_bytes : bytes :=
  omap (λ i, Byte.of_nat i) (seq 0 256).

(** [{bytes([i]): i for i in range(dict_size)}] *)
Definition compress_dictionary : gmap bytes Z :=
  list_to_map ((λ b, ([b], byte_to_Z b)) <$> all_bytes).

(** [{i: bytes([i]) for i in range(dict_size)}] *)
Definition decompress_dictionary : gmap Z bytes :=
  list_to_map ((λ b, (byte_to_Z b, [b])) <$> all_bytes).

(** The encoder's loop variables. *)
Record compress_state : Type :=
  mkCompress {
    c_dictionary : gmap bytes Z;
    c_dict_size : Z;
    c_result : list Z;
    c_w : bytes
  }.

(** One iteration of [for c in data[1:]]. *)
Definition compress_step (st : compress_state) (c : byte)
    : result compress_state :=
  let wc := c_w st ++ [c] in
  if decide (is_Some (c_dictionary st !! wc)) then
    Ok (mkCompress (c_dictionary st) (c_dict_size st) (c_result st) wc)
  else
    code ← of_option KeyError (c_dictionary st !! c_w st);
    Ok (mkCompress (<[wc := c_dict_size st]> (c_dictionary st))
                   (c_dict_size st + 1)
                   (c_result st ++ [code])
                   [c]).

Fixpoint compress_loop (rest : bytes) (st : compress_state)
    : result compress_state :=
  match rest with
  | [] => Ok st
  | c :: rest' =>
      st' ← compress_step st c;
      compress_loop rest' st'
  end.

(** [compress]: the pickled list of codes. *)
Definition compress (data : bytes) : result (list Z) :=
  match data with
  | [] => Ok []
  | b :: rest =>
      st ← compress_loop rest (mkCompress compress_dictionary 256 [] [b]);
      match c_w st with
      | [] => Ok (c_result st)
      | _ =>
          code ← of_option KeyError (c_dictionary st !! c_w st);
          Ok (c_result st ++ [code])
      end
  end.

(** The decoder's loop variables. *)
Record decompress_state : Type :=
  mkDecompress {
    d_dictionary : gmap Z bytes;
    d_dict_size : Z;
    d_result : bytes;
    d_w : bytes
  }.

(** The statements before the loop: [compressed[0]] is looked up in the
    initial dictionary. *)
Definition decompress_start (k0 : Z) : result decompress_state :=
  w ← of_option KeyError (decompress_dictionary !! k0);
  Ok (mkDecompress decompress_dictionary 256 w w).

(** One iteration of [for k in compressed[1:]]; the [else] branch is the
    bad-code error. *)
Definition decompress_step (st : decompress_state) (k : Z)
    : result decompress_state :=
  entry ←
    match d_dictionary st !! k with
    | Some entry => Ok entry
    | None =>
        if decide (k = d_dict_size st) then
          w0 ← getitem (d_w st) 0;
          Ok (d_w st ++ [w0])
        else Raise (ValueError (BadCompressedK k))
    end;
  entry0 ← getitem entry 0;
  Ok (mkDecompress (<[d_dict_size st := d_w st ++ [entry0]]> (d_dictionary st))
                   (d_dict_size st + 1)
                   (d_result st ++ entry)
                   entry).

Fixpoint decompress_loop (rest : list Z) (st : decompress_state)
    : result decompress_state :=
  match rest with
  | [] => Ok st
  | k :: rest' =>
      st' ← decompress_step st k;
      decompress_loop rest' st'
  end.

(** The decoder's variables after the whole code list; [None] for the
    empty list, on which [decompress] returns before creating them. *)
Definition decompress_run (compressed : list Z)
    : result (option decompress_state) :=
  match compressed with
  | [] => Ok None
  | k0 :: rest =>
      st0 ← decompress_start k0;
      st ← decompress_loop rest st0;
      Ok (Some st)
  end.

Definition decompress (compressed : list Z) : result bytes :=
  st ← decompress_run compressed;
  Ok (from_option d_result [] st).

End LZW.

(** ** The container header ([Compressor.decompress_file], the [with] block) *)

Module Container.

(** [MAGIC = b'CMPR'], [VERSION = 1] *)
Definition MAGIC : bytes := ["C"%byte; "M"%byte; "P"%byte; "R"%byte].
Definition VERSION : Z := 1.

(** [f.read(n)] on a file whose unread content is [f]: the bytes read
    (fewer than [n] at the end of the file) and the content left. *)
Definition read (f : bytes) (n : Z) : bytes * bytes :=
  (take (Z.to_nat n) f, drop (Z.to_nat n) f).

(** [struct.unpack('B', b)[0]]: the buffer must hold exactly one byte. *)
Definition unpack_B (b : bytes) : result Z :=
  match b with
  | [x] => Ok (byte_to_Z x)
  | _ => Raise StructError
  end.

(** Is [b] a UTF-8 continuation byte within [lo..hi]? *)
Definition cont_in (lo hi : Z) (b : byte) : bool :=
  bool_decide (lo ≤ byte_to_Z b ≤ hi).

(** [b.decode('utf-8')] (strict): the code points of a well-formed UTF-8
    sequence; overlong forms, surrogates, code points above U+10FFFF and
    truncated sequences raise [UnicodeDecodeError]. *)
Fixpoint decode_utf8 (b : bytes) : result (list Z) :=
  match b with
  | [] => Ok []
  | b0 :: r0 =>
      let x0 := byte_to_Z b0 in
      if decide (x0 < 128) then
        s ← decode_utf8 r0; Ok (x0 :: s)
      else
        match r0 with
        | [] => Raise UnicodeDecodeError
        | b1 :: r1 =>
            let x1 := byte_to_Z b1 in
            if decide (194 ≤ x0 ≤ 223) then
              if cont_in 128 191 b1 then
                s ← decode_utf8 r1;
                Ok (((x0 - 192) * 64 + (x1 - 128)) :: s)
              else Raise UnicodeDecodeError
            else
              match r1 with
              | [] => Raise UnicodeDecodeError
              | b2 :: r2 =>
                  let x2 := byte_to_Z b2 in
                  if decide (224 ≤ x0 ≤ 239) then
                    if cont_in (if decide (x0 = 224) then 160 else 128)
                               (if decide (x0 = 237) then 159 else 191) b1
                       && cont_in 128 191 b2 then
                      s ← decode_utf8 r2;
                      Ok (((x0 - 224) * 4096 + (x1 - 128) * 64 + (x2 - 128)) :: s)
                    else Raise UnicodeDecodeError
                  else
                    match r2 with
                    | [] => Raise UnicodeDecodeError
                    | b3 :: r3 =>
                        let x3 := byte_to_Z b3 in
                        if decide (240 ≤ x0 ≤ 244) then
                          if cont_in (if decide (x0 = 240) then 144 else 128)
                                     (if decide (x0 = 244) then 143 else 191) b1
                             && cont_in 128 191 b2 && cont_in 128 191 b3 then
                            s ← decode_utf8 r3;
                            Ok (((x0 - 240) * 262144 + (x1 - 128) * 4096
                                 + (x2 - 128) * 64 + (x3 - 128)) :: s)
                          else Raise UnicodeDecodeError
                        else Raise UnicodeDecodeError
                    end
              end
        end
  end.

(** The [with open(input_file, 'rb') as f] block of [decompress_file]:
    from the content of the file to
    [(algorithm_name, ext, compressed_data)]. *)
Definition parse (f : bytes) : result (list Z * list Z * bytes) :=
  let '(magic, f) := read f 4 in
  if decide (magic ≠ MAGIC) then Raise (ValueError InvalidMagic) else
  let '(b, f) := read f 1 in
  version ← unpack_B b;
  if decide (version ≠ VERSION) then
    Raise (ValueError (UnsupportedVersion version)) else
  let '(b, f) := read f 1 in
  algo_len ← unpack_B b;
  let '(b, f) := read f algo_len in
  algorithm_name ← decode_utf8 b;
  let '(b, f) := read f 1 in
  ext_len ← unpack_B b;
  let '(b, f) := read f ext_len in
  ext ← decode_utf8 b;
  let compressed_data := f in
  Ok (algorithm_name, ext, compressed_data).

End Container.

(** ** Vocabulary of the specification *)

(** No two adjacent elements of [s] are equal. *)
Definition no_adjacent_equal {A} (s : list A) : Prop :=
  ∀ i x y, s !! i = Some x → s !! S i = Some y → x ≠ y.

(** No key of the table is a prefix of another key. *)
Definition prefix_free {V} (table : gmap str V) : Prop :=
  ∀ c1 c2, is_Some (table !! c1) → is_Some (table !! c2) →
    c1 ≠ c2 → ¬ c1 `prefix_of` c2.

(** The nodes [HuffmanCoding] creates: a node made from a symbol has no
    children, a merged node has no symbol and two children. *)
Inductive wf_node : Huffman.HuffmanNode → Prop :=
  | wf_leaf c f : wf_node (Huffman.mkNode (Some c) f None None)
  | wf_merged f l r :
      wf_node l → wf_node r → wf_node (Huffman.mkNode None f (Some l) (Some r)).

(** The [(code, symbol)] pairs that [_make_codes(root, current_code)]
    stores, in the order in which it stores them. *)
Fixpoint code_pairs (root : Huffman.HuffmanNode) (current_code : str)
    : list (str * byte) :=
  match Huffman.char root with
  | Some c => [(current_code, c)]
  | None => []
  end
  ++ match Huffman.left root with
     | Some l => code_pairs l (current_code ++ ["0"%char])
     | None => []
     end
  ++ match Huffman.right root with
     | Some r => code_pairs r (current_code ++ ["1"%char])
     | None => []
     end.

(** The symbols of a tree, in the same order. *)
Definition symbols (root : Huffman.HuffmanNode) : bytes :=
  (code_pairs root []).*2.

(** The effect of one assignment pair of [_make_codes] on
    [(self.codes, self.reverse_mapping)]. *)
Definition store_code (tables : gmap byte str * gmap str byte)
    (pair : str * byte) : gmap byte str * gmap str byte :=
  (<[pair.2 := pair.1]> tables.1, <[pair.1 := pair.2]> tables.2).

(** A string of the characters ['0'] and ['1']. *)
Definition binary (s : str) : Prop :=
  Forall (λ ch, ch = "0"%char ∨ ch = "1"%char) s.

(** The codes of a tree: no two of them are equal, none is a prefix of
    another, and they are binary strings. *)
Definition prefix_code (codes : list str) : Prop :=
  NoDup codes
  ∧ (∀ x y, x ∈ codes → y ∈ codes → x `prefix_of` y → x = y)
  ∧ Forall binary codes.

(** ** Invariants of LZW *)

(** What every state of the decoder satisfies: the dictionary's keys are
    exactly [0 .. dict_size - 1], it still maps every single-byte code to
    its byte, no entry is empty, and [w] is not empty. *)
Record dec_inv (st : LZW.decompress_state) : Prop :=
  mkDecInv {
    dec_keys : ∀ k, is_Some (LZW.d_dictionary st !! k) ↔ 0 ≤ k < LZW.d_dict_size st;
    dec_size : size (LZW.d_dictionary st) = Z.to_nat (LZW.d_dict_size st);
    dec_base : ∀ b, LZW.d_dictionary st !! byte_to_Z b = Some [b];
    dec_entries : ∀ k e, LZW.d_dictionary st !! k = Some e → e ≠ [];
    dec_w : LZW.d_w st ≠ [];
    dec_ge : 256 ≤ LZW.d_dict_size st
  }.

(** The relation between the encoder, stopped at the head of its loop
    with [rest] still to read, and the decoder run on the codes emitted so
    far. The decoder's dictionary is the encoder's, inverted, short of the
    entry the encoder added last: that entry is [w] of the decoder
    followed by the first byte of [w] of the encoder. *)
Record sim (data rest : bytes) (cst : LZW.compress_state) (dst : LZW.decompress_state)
    : Prop :=
  mkSim {
    sim_run : LZW.decompress_run (LZW.c_result cst) = Ok (Some dst);
    sim_inv : dec_inv dst;
    sim_size : LZW.c_dict_size cst = LZW.d_dict_size dst + 1;
    sim_len : LZW.d_dict_size dst = 255 + Z.of_nat (length (LZW.c_result cst));
    sim_dict : ∀ x k,
      LZW.c_dictionary cst !! x = Some k ↔
      LZW.d_dictionary dst !! k = Some x
      ∨ (x = LZW.d_w dst ++ take 1 (LZW.c_w cst) ∧ k = LZW.d_dict_size dst);
    sim_out : LZW.d_result dst ++ LZW.c_w cst ++ rest = data;
    sim_w : is_Some (LZW.c_dictionary cst !! LZW.c_w cst);
    sim_bound : ∀ i c, LZW.c_result cst !! i = Some c → 0 ≤ c < 256 + Z.of_nat i
  }.

(** The container header is cut short before the extension: the magic,
    the version byte, the length byte of the codec name, the codec name or
    the length byte of the extension runs past the end of [f]. *)
Definition header_cut_short (f : bytes) : Prop :=
  (length f < 6)%nat
  ∨ ∃ n, f !! 5%nat = Some n ∧ (length f < 7 + Z.to_nat (byte_to_Z n))%nat.

(** The header is whole up to the length byte of the extension, and the
    declared extension runs past the end of [f]. *)
Definition extension_cut_short (f : bytes) : Prop :=
  ∃ n e, f !! 5%nat = Some n
    ∧ f !! (6 + Z.to_nat (byte_to_Z n))%nat = Some e
    ∧ (length f < 7 + Z.to_nat (byte_to_Z n) + Z.to_nat (byte_to_Z e))%nat.

(** ** Canonical RLE payloads *)

(** The [(count, value)] pairs of an RLE payload, a lone last byte left
    out. *)
Fixpoint rle_pairs (l : bytes) : list (byte * byte) :=
  match l with
  | count :: value :: l' => (count, value) :: rle_pairs l'
  | _ => []
  end.

(** The payloads [RLE.compress] produces: an even number of bytes, no count
    of zero, and two adjacent pairs have the same value only when the first
    counts 255. *)
Definition rle_canonical (l : bytes) : Prop :=
  Nat.Even (length l)
  ∧ Forall (λ p, 1 ≤ byte_to_Z p.1) (rle_pairs l)
  ∧ ∀ i p q, rle_pairs l !! i = Some p → rle_pairs l !! S i = Some q →
      p.2 = q.2 → byte_to_Z p.1 = 255.

(** ** Writing the container ([Compressor.compress_file], the [with] block) *)

Module ContainerWriter.

(** The exceptions of the block: [str.encode] on a string that holds a
    surrogate, [struct.pack] on a length above 255. *)
Inductive write_exn : Type :=
  | UnicodeEncodeError
  | PackError.       (* struct.error *)

Inductive written : Type :=
  | Written (f : bytes)
  | WriteRaise (e : write_exn).

(** The bytes with the given values, all in [0..255]. *)
Definition bytes_of (l : list Z) : option bytes :=
  mapM (λ z, match byte_of_Z z with Ok b => Some b | Raise _ => None end) l.

(** The UTF-8 form of one code point; [None] for a surrogate, which
    [str.encode('utf-8')] refuses, and for a number that is no code point. *)
Definition encode_code_point (cp : Z) : option bytes :=
  if decide (cp < 0) then None
  else if decide (cp < 128) then bytes_of [cp]
  else if decide (cp < 2048) then bytes_of [192 + cp `div` 64; 128 + cp `mod` 64]
  else if decide (cp < 65536) then
    if decide (55296 ≤ cp ≤ 57343) then None
    else bytes_of [224 + cp `div` 4096; 128 + (cp `div` 64) `mod` 64; 128 + cp `mod` 64]
  else if decide (cp < 1114112) then
    bytes_of [240 + cp `div` 262144; 128 + (cp `div` 4096) `mod` 64;
              128 + (cp `div` 64) `mod` 64; 128 + cp `mod` 64]
  else None.

(** [s.encode('utf-8')]; [None] is [UnicodeEncodeError]. *)
Fixpoint encode_utf8 (s : list Z) : option bytes :=
  match s with
  | [] => Some []
  | cp :: s' =>
      match encode_code_point cp, encode_utf8 s' with
      | Some b, Some bs => Some (b ++ bs)
      | _, _ => None
      end
  end.

(** [struct.pack('B', n)] *)
Definition pack_B (n : Z) : option bytes := bytes_of [n].

(** The bytes the block writes to the output file, from
    [self.algorithm_name], the extension [os.path.splitext(input_file)[1]]
    and the compressed data; an exception leaves the file cut short, which
    is not modelled. *)
Definition write_container (algorithm_name ext : list Z) (compressed_data : bytes)
    : written :=
  let f := Container.MAGIC in
  match pack_B Container.VERSION with
  | None => WriteRaise PackError
  | Some version =>
  let f := f ++ version in
  match encode_utf8 algorithm_name with
  | None => WriteRaise UnicodeEncodeError
  | Some algo_bytes =>
  match pack_B (Z.of_nat (length algo_bytes)) with
  | None => WriteRaise PackError
  | Some algo_len =>
  let f := f ++ algo_len ++ algo_bytes in
  match encode_utf8 ext with
  | None => WriteRaise UnicodeEncodeError
  | Some ext_bytes =>
  match pack_B (Z.of_nat (length ext_bytes)) with
  | None => WriteRaise PackError
  | Some ext_len =>
  let f := f ++ ext_len ++ ext_bytes in
  Written (f ++ compressed_data)
  end end end end end.

End ContainerWriter.

(** ** The generated benchmark data ([benchmark.generate_test_data]) *)

Module Benchmark.

(** [bytes(l)] for a list of integers: [ValueError] on an element outside
    [0..255]. *)
Fixpoint bytes_of_ints (l : list Z) : result bytes :=
  match l with
  | [] => Ok []
  | z :: l' =>
      b ← byte_of_Z z;
      bs ← bytes_of_ints l';
      Ok (b :: bs)
  end.

(** [range(n)] *)
Definition range (n : Z) : list Z := Z.of_nat <$> seq 0 (Z.to_nat n).

(** [b * n] on bytes: empty for [n <= 0]. *)
Definition repeat_bytes (b : bytes) (n : Z) : bytes :=
  replicate (Z.to_nat n) b ≫= id.

(** [b[:n]]: a negative [n] counts from the end. *)
Definition slice_to (b : bytes) (n : Z) : bytes :=
  if decide (0 ≤ n) then take (Z.to_nat n) b
  else take (length b - Z.to_nat (- n)) b.

(** The branch [pattern_type == "repeated"] of [generate_test_data]. *)
Definition generate_test_data_repeated (size : Z) : bytes :=
  let pattern := repeat_bytes ["A"%byte; "B"%byte; "C"%byte] 10 in
  let repeats := size `div` Z.of_nat (length pattern) + 1 in
  slice_to (repeat_bytes pattern repeats) size.

(** The branch [pattern_type == "sequential"] of [generate_test_data]. *)
Definition generate_test_data_sequential (size : Z) : result bytes :=
  bytes_of_ints ((λ i, i `mod` 256) <$> range size).

End Benchmark.

(** ** The heap order *)

(** The invariant of [heapq]: no element is smaller than its parent, the
    element at index [(i - 1) / 2]. Elements are compared by a key, as
    [HuffmanNode.__lt__] compares by [freq]. *)
Definition heap_ordered {A} (key : A → Z) (heap : list A) : Prop :=
  ∀ i x p, (0 < i)%nat →
    heap !! i = Some x → heap !! ((i - 1) / 2)%nat = Some p → key p ≤ key x.

(** The state of the loop of [_siftdown], [newitem] being held back from
    index [pos]: the order holds everywhere but between [pos] and its
    parent, [newitem] is not above the children of [pos], and neither is the
    parent of [pos]. *)
Definition siftdown_inv {A} (key : A → Z) (heap : list A) (pos : nat)
    (newitem : A) : Prop :=
  (∀ i x p, (0 < i)%nat → i ≠ pos →
     heap !! i = Some x → heap !! ((i - 1) / 2)%nat = Some p → key p ≤ key x)
  ∧ (∀ c x, (0 < c)%nat → ((c - 1) / 2)%nat = pos →
       heap !! c = Some x → key newitem ≤ key x)
  ∧ (∀ c x g, (0 < c)%nat → ((c - 1) / 2)%nat = pos → (0 < pos)%nat →
       heap !! c = Some x → heap !! ((pos - 1) / 2)%nat = Some g → key g ≤ key x).

(** The state of the first loop of [_siftup], index [pos] being the hole: the
    order holds everywhere but between [pos] and its children, and the
    parent of [pos] is not above the children of [pos]. *)
Definition siftup_inv {A} (key : A → Z) (heap : list A) (pos : nat) : Prop :=
  (∀ i x p, (0 < i)%nat → ((i - 1) / 2)%nat ≠ pos →
     heap !! i = Some x → heap !! ((i - 1) / 2)%nat = Some p → key p ≤ key x)
  ∧ (∀ c x g, (0 < c)%nat → ((c - 1) / 2)%nat = pos → (0 < pos)%nat →
       heap !! c = Some x → heap !! ((pos - 1) / 2)%nat = Some g → key g ≤ key x).

(** ** Huffman's rule *)

(** The nodes [_make_heap] creates from the items of the frequency table. *)
Definition leaf_nodes (frequency : list (byte * Z)) : list Huffman.HuffmanNode :=
  (λ p, Huffman.new_node (Some p.1) p.2) <$> frequency.

(** The sum of the frequencies of some nodes. *)
Definition total_freq (nodes : list Huffman.HuffmanNode) : Z :=
  foldr (λ n s, Huffman.freq n + s) 0 nodes.

(** [huffman_merge nodes root]: [root] is obtained from [nodes], taken in
    any order, by Huffman's rule: as long as more than one node is left, two
    nodes of least frequency are replaced by a node that has them as
    children and the sum of their frequencies as its frequency. *)
Inductive huffman_merge : list Huffman.HuffmanNode → Huffman.HuffmanNode → Prop :=
  | huffman_merge_done root : huffman_merge [root] root
  | huffman_merge_step nodes node1 node2 rest root :
      nodes ≡ₚ node1 :: node2 :: rest →
      Huffman.freq node1 ≤ Huffman.freq node2 →
      (∀ n, n ∈ rest → Huffman.freq node2 ≤ Huffman.freq n) →
      huffman_merge
        (Huffman.mkNode None (Huffman.freq node1 + Huffman.freq node2)
           (Some node1) (Some node2) :: rest) root →
      huffman_merge nodes root.

(** * Properties *)

(** ** Bytes and the error monad *)

Lemma byte_to_Z_range b : 0 ≤ byte_to_Z b ≤ 255.
Proof.
  unfold byte_to_Z. pose proof (Byte.to_N_bounded b). lia.
Qed.

Lemma byte_of_to_Z b : byte_of_Z (byte_to_Z b) = Ok b.
Proof.
  unfold byte_of_Z, byte_to_Z.
  rewrite decide_True by lia.
  by rewrite N2Z.id, Byte.of_to_N.
Qed.

Lemma byte_of_Z_Ok z b : byte_of_Z z = Ok b → byte_to_Z b = z.
Proof.
  unfold byte_of_Z, byte_to_Z. case_decide; [|done].
  destruct (Byte.of_N (Z.to_N z)) as [b'|] eqn:E; simpl; [|done].
  intros [= <-]. apply Byte.to_of_N in E. lia.
Qed.

Lemma byte_of_Z_in_range z : 0 ≤ z ≤ 255 → ∃ b, byte_of_Z z = Ok b ∧ byte_to_Z b = z.
Proof.
  intros Hz. unfold byte_of_Z. rewrite decide_True by lia.
  destruct (Byte.of_N (Z.to_N z)) as [b|] eqn:E; simpl.
  - exists b. split; [done|]. apply Byte.to_of_N in E. unfold byte_to_Z. lia.
  - apply Byte.of_N_None_iff in E. lia.
Qed.

Lemma bind_Ok {A B} (m : result A) (k : A → result B) (b : B) :
  m ≫= k = Ok b ↔ ∃ a, m = Ok a ∧ k a = Ok b.
Proof.
  destruct m as [a|e]; simpl.
  - split; [eauto|]. by intros (? & [= <-] & ?).
  - split; [done|]. by intros (? & ? & ?).
Qed.

Lemma foldl_ext {A B} (f g : A → B → A) (a : A) (l : list B) :
  (∀ a b, f a b = g a b) → foldl f a l = foldl g a l.
Proof.
  intros Hfg. revert a. induction l as [|b l IH]; intros a; simpl; [done|].
  by rewrite Hfg, IH.
Qed.

Lemma range_step_S n step :
  (0 < step)%nat →
  range_step (n + step) step = 0%nat :: ((λ i, i + step)%nat <$> range_step n step).
Proof.
  intros Hstep. unfold range_step.
  replace (n + step + step - 1)%nat with (n + step - 1 + 1 * step)%nat by lia.
  rewrite Nat.div_add by lia. rewrite Nat.add_1_r. cbn [seq fmap list_fmap].
  f_equal; [lia|].
  rewrite <- seq_shift, <- !list_fmap_compose.
  apply list_fmap_ext. intros _ j _. simpl. lia.
Qed.

Lemma range_step_lt n step :
  (0 < n < step)%nat → range_step n step = [0%nat].
Proof.
  intros Hn. unfold range_step.
  replace (n + step - 1)%nat with (n - 1 + 1 * step)%nat by lia.
  rewrite Nat.div_add, Nat.div_small by lia. simpl. f_equal. lia.
Qed.

Lemma range_step_0 step : (0 < step)%nat → range_step 0 step = [].
Proof.
  intros Hstep. unfold range_step. rewrite Nat.div_small by lia. done.
Qed.

(** ** RLE *)

Section rle_facts.
Import RLE.

Lemma list_pair_ind {A} (P : list A → Prop) :
  P [] → (∀ x, P [x]) → (∀ x y l, P l → P (x :: y :: l)) → ∀ l, P l.
Proof.
  intros H0 H1 H2.
  assert (∀ l, P l ∧ ∀ x, P (x :: l)) as H; [|intros l; apply H].
  induction l as [|y l [IH1 IH2]]; split; auto.
Qed.

(** The index loop of [decompress] shifted past an already decoded pair. *)
Lemma rle_decompress_step_shift count value l acc i :
  decompress_step (count :: value :: l) acc (i + 2) = decompress_step l acc i.
Proof.
  unfold decompress_step. simpl length.
  replace (i + 2 + 1)%nat with (S (S (i + 1))) by lia.
  replace (i + 2)%nat with (S (S i)) by lia. simpl.
  repeat case_decide; try lia; done.
Qed.

Lemma rle_decompress_fold l acc :
  foldl (decompress_step l) acc (range_step (length l) 2) = acc ++ decode_pairs l.
Proof.
  revert acc. induction l as [|x|count value l IH] using list_pair_ind; intros acc.
  - simpl. by rewrite app_nil_r.
  - rewrite range_step_lt by (simpl; lia). simpl. by rewrite app_nil_r.
  - replace (length (count :: value :: l)) with (length l + 2)%nat by (simpl; lia).
    rewrite range_step_S by lia. cbn [foldl].
    rewrite foldl_fmap.
    rewrite (foldl_ext _ (decompress_step l)); last first.
    { intros. apply rle_decompress_step_shift. }
    rewrite IH. unfold decompress_step at 1. simpl.
    by rewrite <- app_assoc.
Qed.

Lemma rle_decompress_decode_pairs l : decompress l = decode_pairs l.
Proof.
  destruct l as [|x l]; [done|]. unfold decompress. by rewrite rle_decompress_fold.
Qed.

Lemma decode_pairs_app l1 l2 :
  Nat.Even (length l1) → decode_pairs (l1 ++ l2) = decode_pairs l1 ++ decode_pairs l2.
Proof.
  induction l1 as [|x|count value l1 IH] using list_pair_ind; intros Hev.
  - done.
  - destruct Hev as [k Hk]. simpl in Hk. lia.
  - simpl. rewrite IH, app_assoc; [done|].
    destruct Hev as [k Hk]. exists (k - 1)%nat. simpl in Hk. lia.
Qed.

Lemma decode_pairs_odd l x :
  Nat.Even (length l) → decode_pairs (l ++ [x]) = decode_pairs l.
Proof.
  intros Hev. rewrite decode_pairs_app by done. simpl. by rewrite app_nil_r.
Qed.

Lemma rle_extend_pair_Ok compressed count current :
  0 ≤ count ≤ 255 →
  ∃ c, extend_pair compressed count current = Ok (compressed ++ [c; current])
       ∧ byte_to_Z c = count.
Proof.
  intros Hc. destruct (byte_of_Z_in_range count Hc) as (c & Hc1 & Hc2).
  exists c. unfold extend_pair. rewrite Hc1. done.
Qed.

(** What the encoder's loop maintains: the pairs emitted so far have even
    length, the pending count is in [1..255], and the emitted pairs
    followed by the pending run decode to the input read so far. *)
Lemma rle_compress_loop_spec rest compressed count current :
  1 ≤ count ≤ 255 → Nat.Even (length compressed) →
  ∃ compressed' count' current',
    compress_loop rest compressed count current = Ok (compressed', count', current')
    ∧ 1 ≤ count' ≤ 255 ∧ Nat.Even (length compressed')
    ∧ decode_pairs compressed' ++ replicate (Z.to_nat count') current'
      = decode_pairs compressed ++ replicate (Z.to_nat count) current ++ rest
    ∧ (length compressed' ≤ length compressed + 2 * length rest)%nat
    ∧ (no_adjacent_equal (current :: rest) →
       length compressed' = (length compressed + 2 * length rest)%nat).
Proof.
  revert compressed count current.
  induction rest as [|byte rest IH]; intros compressed count current Hc Hev.
  - exists compressed, count, current. simpl. rewrite app_nil_r.
    split_and!; auto; lia.
  - simpl. case_decide as Hcase.
    + destruct Hcase as [-> Hlt].
      destruct (IH compressed (count + 1) current) as (c' & n' & x' & -> & ? & ? & Hd & Hl & _);
        [lia|done|].
      exists c', n', x'. split_and!; auto; try lia.
      * rewrite Hd. f_equal.
        replace (Z.to_nat (count + 1)) with (Z.to_nat count + 1)%nat by lia.
        rewrite replicate_add. simpl. by rewrite <- app_assoc.
      * intros Hadj. exfalso. by apply (Hadj 0%nat current current).
    + destruct (rle_extend_pair_Ok compressed count current) as (c & -> & Hcz); [lia|].
      simpl.
      destruct (IH (compressed ++ [c; current]) 1 byte)
        as (c' & n' & x' & -> & ? & ? & Hd & Hl & Heq); [lia| |].
      { rewrite length_app. simpl. destruct Hev as [k Hk]. exists (S k). lia. }
      exists c', n', x'. rewrite length_app in Hl, Heq. simpl in Hl, Heq.
      split_and!; auto; try lia.
      * rewrite Hd, decode_pairs_app by done. simpl.
        rewrite Hcz, app_nil_r, <- !app_assoc. done.
      * intros Hadj. rewrite Heq; [lia|].
        intros i x y Hx Hy. apply (Hadj (S i) x y); done.
Qed.

Lemma rle_compress_spec data :
  ∃ compressed,
    compress data = Ok compressed ∧ Nat.Even (length compressed)
    ∧ decode_pairs compressed = data
    ∧ (length compressed ≤ 2 * length data)%nat
    ∧ (no_adjacent_equal data → length compressed = (2 * length data)%nat).
Proof.
  destruct data as [|current rest].
  - exists []. simpl. split_and!; auto. by exists 0%nat.
  - unfold compress.
    destruct (rle_compress_loop_spec rest [] 1 current)
      as (c' & n' & x' & -> & ? & Hev & Hd & Hl & Heq); [lia|by exists 0%nat|].
    simpl. destruct (rle_extend_pair_Ok c' n' x') as (c & -> & Hcz); [lia|].
    exists (c' ++ [c; x']). rewrite length_app. simpl in *.
    split_and!; auto; try lia.
    + destruct Hev as [k Hk]. exists (S k). lia.
    + rewrite decode_pairs_app by done. simpl. by rewrite Hcz, app_nil_r.
    + intros Hadj. rewrite Heq by done. lia.
Qed.

End rle_facts.

(** C3. Round trip of RLE: for every byte sequence [s], [RLE.compress(s)]
    returns, and [RLE.decompress] of what it returns is [s]. *)
Theorem rle_roundtrip (s : bytes) :
  ∃ compressed, RLE.compress s = Ok compressed ∧ RLE.decompress compressed = s.
Proof.
  destruct (rle_compress_spec s) as (c & Hc & _ & Hd & _).
  exists c. by rewrite rle_decompress_decode_pairs.
Qed.

(** C8. Expansion bound of RLE: [len(RLE.compress(s)) <= 2 * len(s)], with
    equality whenever no two adjacent bytes of [s] are equal. *)
Theorem rle_expansion_bound (s : bytes) :
  ∃ compressed, RLE.compress s = Ok compressed
    ∧ (length compressed ≤ 2 * length s)%nat
    ∧ (no_adjacent_equal s → length compressed = (2 * length s)%nat).
Proof.
  destruct (rle_compress_spec s) as (c & Hc & _ & _ & Hl & Heq). eauto.
Qed.

(** C4, as the code has it: on an input of odd length [RLE.decompress]
    raises nothing; the guard [i + 1 < len(compressed_data)] skips the lone
    last byte, and the result is the decoding of the pairs before it. *)
Theorem rle_decompress_odd_drops_last (compressed_data : bytes) :
  Nat.Odd (length compressed_data) →
  ∃ l x, compressed_data = l ++ [x] ∧ RLE.decompress compressed_data = RLE.decompress l.
Proof.
  intros Hodd.
  induction compressed_data as [|y l' _] using rev_ind.
  { destruct Hodd as [k Hk]. simpl in Hk. lia. }
  exists l', y. split; [done|].
  rewrite !rle_decompress_decode_pairs. apply decode_pairs_odd.
  rewrite length_app in Hodd. simpl in Hodd.
  destruct Hodd as [k Hk]. exists k. lia.
Qed.

Lemma rle_decompress_odd_drops_last_witness :
  ∃ l x, ["003"%byte; "A"%byte; "B"%byte] = l ++ [x]
         ∧ RLE.decompress ["003"%byte; "A"%byte; "B"%byte] = RLE.decompress l.
Proof.
  apply (rle_decompress_odd_drops_last ["003"%byte; "A"%byte; "B"%byte]).
  exists 1%nat. reflexivity.
Defined.

(** C4, as stated, fails: an input of odd length is decoded without any
    error. *)
Lemma rle_decompress_odd_no_error :
  Nat.Odd (length ["003"%byte; "A"%byte; "B"%byte])
  ∧ RLE.decompress ["003"%byte; "A"%byte; "B"%byte] = ["A"%byte; "A"%byte; "A"%byte].
Proof.
  split; [exists 1%nat|]; reflexivity.
Qed.

(** ** LZW *)

Section lzw_facts.
Import LZW.

(** *** The initial dictionaries *)

Lemma all_bytes_to_nat : Byte.to_nat <$> all_bytes = seq 0 256.
Proof. vm_compute. reflexivity. Qed.

Lemma NoDup_all_bytes : NoDup all_bytes.
Proof.
  apply (NoDup_fmap_1 Byte.to_nat). rewrite all_bytes_to_nat. apply NoDup_seq.
Qed.

Lemma elem_of_all_bytes b : b ∈ all_bytes.
Proof.
  unfold all_bytes. apply list_elem_of_omap. exists (Byte.to_nat b).
  split; [|apply Byte.of_to_nat].
  apply elem_of_seq. pose proof (Byte.to_nat_bounded b). lia.
Qed.

Lemma length_all_bytes : length all_bytes = 256%nat.
Proof. rewrite <- (length_fmap Byte.to_nat), all_bytes_to_nat. apply length_seq. Qed.

Lemma byte_to_Z_inj b1 b2 : byte_to_Z b1 = byte_to_Z b2 → b1 = b2.
Proof.
  intros H. pose proof (byte_of_to_Z b1) as H1.
  rewrite H, byte_of_to_Z in H1. congruence.
Qed.

Lemma compress_dictionary_lookup x k :
  compress_dictionary !! x = Some k ↔ ∃ b, x = [b] ∧ k = byte_to_Z b.
Proof.
  unfold compress_dictionary. rewrite <- elem_of_list_to_map.
  - rewrite list_elem_of_fmap. split.
    + intros (b & [= -> ->] & _). eauto.
    + intros (b & -> & ->). exists b. split; [done|apply elem_of_all_bytes].
  - rewrite <- list_fmap_compose.
    apply NoDup_fmap_2_strong; [|apply NoDup_all_bytes].
    intros b1 b2 _ _. simpl. congruence.
Qed.

Lemma decompress_dictionary_lookup k x :
  decompress_dictionary !! k = Some x ↔ ∃ b, x = [b] ∧ k = byte_to_Z b.
Proof.
  unfold decompress_dictionary. rewrite <- elem_of_list_to_map.
  - rewrite list_elem_of_fmap. split.
    + intros (b & [= -> ->] & _). eauto.
    + intros (b & -> & ->). exists b. split; [done|apply elem_of_all_bytes].
  - rewrite <- list_fmap_compose.
    apply NoDup_fmap_2_strong; [|apply NoDup_all_bytes].
    intros b1 b2 _ _. simpl. apply byte_to_Z_inj.
Qed.

Lemma size_decompress_dictionary : size decompress_dictionary = 256%nat.
Proof.
  unfold decompress_dictionary. rewrite map_size_list_to_map.
  - by rewrite length_fmap, length_all_bytes.
  - rewrite <- list_fmap_compose.
    apply NoDup_fmap_2_strong; [|apply NoDup_all_bytes].
    intros b1 b2 _ _. simpl. apply byte_to_Z_inj.
Qed.

#[local] Opaque all_bytes compress_dictionary decompress_dictionary.

Lemma decompress_dictionary_is_Some k :
  is_Some (decompress_dictionary !! k) ↔ 0 ≤ k < 256.
Proof.
  split.
  - intros [x (b & -> & ->)%decompress_dictionary_lookup].
    pose proof (byte_to_Z_range b). lia.
  - intros Hk. destruct (byte_of_Z_in_range k) as (b & _ & <-); [lia|].
    exists [b]. apply decompress_dictionary_lookup. eauto.
Qed.

(** *** The decoder's invariant *)

Lemma dec_inv_start k0 st :
  decompress_start k0 = Ok st → dec_inv st ∧ d_dict_size st = 256.
Proof.
  unfold decompress_start.
  destruct (decompress_dictionary !! k0) as [w|] eqn:E;
    cbn [of_option mbind result_bind]; [|discriminate].
  intros [= <-]. split; [|reflexivity].
  constructor; cbn [d_dictionary d_dict_size d_w d_result].
  - apply decompress_dictionary_is_Some.
  - by rewrite size_decompress_dictionary.
  - intros b. apply decompress_dictionary_lookup. eauto.
  - intros k e (b & -> & _)%decompress_dictionary_lookup. done.
  - apply decompress_dictionary_lookup in E as (b & -> & _). done.
  - lia.
Qed.

(** The entry a step decodes, and the state it leaves. *)
Lemma decompress_step_Ok st k st' :
  decompress_step st k = Ok st' →
  ∃ entry entry0,
    (d_dictionary st !! k = Some entry
     ∨ d_dictionary st !! k = None ∧ k = d_dict_size st
       ∧ ∃ w0, d_w st !! 0%nat = Some w0 ∧ entry = d_w st ++ [w0])
    ∧ entry !! 0%nat = Some entry0
    ∧ st' = mkDecompress (<[d_dict_size st := d_w st ++ [entry0]]> (d_dictionary st))
                         (d_dict_size st + 1) (d_result st ++ entry) entry.
Proof.
  unfold decompress_step. intros (entry & Hentry & (entry0 & H0 & [= <-])%bind_Ok)%bind_Ok.
  exists entry, entry0. split_and!; [| |done].
  - destruct (d_dictionary st !! k) as [e|]; [left; congruence|right].
    case_decide; [|done]. apply bind_Ok in Hentry as (w0 & Hw0 & [= <-]).
    split_and!; [done..|]. exists w0. split; [|done].
    unfold getitem in Hw0. by destruct (d_w st !! 0%nat); simplify_eq/=.
  - unfold getitem in H0. by destruct (entry !! 0%nat); simplify_eq/=.
Qed.

Lemma dec_inv_step st k st' :
  dec_inv st → decompress_step st k = Ok st' →
  dec_inv st' ∧ d_dict_size st' = d_dict_size st + 1.
Proof.
  intros [Hkeys Hsize Hbase Hent Hw Hge] (entry & entry0 & Hentry & H0 & ->)%decompress_step_Ok.
  split; [|done]. constructor; simpl.
  - intros k'. rewrite lookup_insert_is_Some, Hkeys. lia.
  - rewrite map_size_insert_None, Hsize; [lia|].
    apply eq_None_not_Some. rewrite Hkeys. lia.
  - intros b. rewrite lookup_insert_ne; [done|].
    pose proof (byte_to_Z_range b). lia.
  - intros k' e. rewrite lookup_insert_Some. intros [[_ <-]|[_ ?]]; [|by eauto].
    by destruct (d_w st).
  - destruct Hentry as [?|(_ & _ & w0 & _ & ->)]; [by eauto|].
    by destruct (d_w st).
  - lia.
Qed.

(** A code that is a key of the dictionary or the next free key is
    accepted. *)
Lemma decompress_step_accepts st k :
  dec_inv st → 0 ≤ k ≤ d_dict_size st → ∃ st', decompress_step st k = Ok st'.
Proof.
  intros [Hkeys Hsize Hbase Hent Hw Hge] Hk. unfold decompress_step.
  destruct (d_w st) as [|w0 w] eqn:Ew; [done|].
  destruct (d_dictionary st !! k) as [entry|] eqn:E; simpl.
  - destruct entry as [|e0 entry]; [by apply Hent in E|]. simpl. eauto.
  - rewrite decide_True; [simpl; eauto|].
    apply eq_None_not_Some in E. rewrite Hkeys in E. lia.
Qed.

Lemma decompress_loop_app l1 l2 st :
  decompress_loop (l1 ++ l2) st = decompress_loop l1 st ≫= decompress_loop l2.
Proof.
  revert st. induction l1 as [|k l1 IH]; intros st; simpl; [done|].
  destruct (decompress_step st k); simpl; [apply IH|done].
Qed.

Lemma decompress_run_snoc r k dst dst' :
  decompress_run r = Ok (Some dst) → decompress_step dst k = Ok dst' →
  decompress_run (r ++ [k]) = Ok (Some dst').
Proof.
  destruct r as [|k0 r]; [done|]. cbn [decompress_run app].
  intros (st0 & -> & (st & Hst & [= <-])%bind_Ok)%bind_Ok Hstep.
  cbn [mbind result_bind]. rewrite decompress_loop_app, Hst.
  cbn [mbind result_bind decompress_loop]. by rewrite Hstep.
Qed.

(** *** The encoder and the decoder in step *)

Lemma sim_w_ne data rest cst dst : sim data rest cst dst → c_w cst ≠ [].
Proof.
  intros Hsim Hw. destruct (sim_w _ _ _ _ Hsim) as [k Hk].
  rewrite Hw in Hk. apply (sim_dict _ _ _ _ Hsim) in Hk as [Hk|[Hk _]].
  - by apply (dec_entries _ (sim_inv _ _ _ _ Hsim)) in Hk.
  - symmetry in Hk. apply app_nil in Hk as [Hk _].
    by apply (dec_w _ (sim_inv _ _ _ _ Hsim)).
Qed.

(** The decoder accepts the code of the encoder's [w] and decodes it to
    that [w], through the dictionary or through the self-reference rule. *)
Lemma sim_emit data rest cst dst k :
  sim data rest cst dst → c_dictionary cst !! c_w cst = Some k →
  0 ≤ k ≤ d_dict_size dst
  ∧ decompress_step dst k =
      Ok (mkDecompress
            (<[d_dict_size dst := d_w dst ++ take 1 (c_w cst)]> (d_dictionary dst))
            (d_dict_size dst + 1) (d_result dst ++ c_w cst) (c_w cst)).
Proof.
  intros Hsim Hk. pose proof (sim_w_ne _ _ _ _ Hsim) as Hne.
  destruct Hsim as [_ [Hkeys _ _ Hent Hw Hge] _ _ Hdict _ _ _].
  destruct (c_w cst) as [|w0 w] eqn:Ew; [done|]. cbn [take].
  apply Hdict in Hk as [Hk|[Hk ->]]; unfold decompress_step.
  - split; [assert (0 ≤ k < d_dict_size dst) by (apply Hkeys; eauto); lia|].
    rewrite Hk. reflexivity.
  - assert (d_dictionary dst !! d_dict_size dst = None) as ->.
    { apply eq_None_not_Some. rewrite Hkeys. lia. }
    split; [lia|].
    rewrite decide_True by done.
    destruct (d_w dst) as [|v0 v] eqn:Ev; [done|].
    cbn [take app] in Hk. injection Hk as -> ->. reflexivity.
Qed.

Lemma sim_step data c rest cst dst :
  sim data (c :: rest) cst dst →
  ∃ cst' dst', compress_step cst c = Ok cst' ∧ sim data rest cst' dst'.
Proof.
  intros Hsim. pose proof (sim_w_ne _ _ _ _ Hsim) as Hne.
  unfold compress_step. case_decide as Hwc.
  - (* [wc] is in the dictionary: [w] grows, nothing is emitted *)
    eexists _, dst. split; [done|].
    destruct Hsim as [Hrun Hinv Hsize Hlen Hdict Hout Hw Hbound].
    constructor; cbn [c_result c_dictionary c_dict_size c_w]; try done.
    + intros x k. rewrite Hdict. by destruct (c_w cst).
    + by rewrite <- Hout, <- app_assoc.
  - (* [wc] is new: the code of [w] is emitted and [wc] gets the next code *)
    destruct (sim_w _ _ _ _ Hsim) as [k Hk]. rewrite Hk.
    destruct (sim_emit _ _ _ _ _ Hsim Hk) as [Hkb Hstep].
    cbn [of_option mbind result_bind].
    match type of Hstep with _ = Ok ?d => eexists _, d end. split; [done|].
    destruct (dec_inv_step _ _ _ (sim_inv _ _ _ _ Hsim) Hstep) as [Hinv' _].
    destruct Hsim as [Hrun Hinv Hsize Hlen Hdict Hout Hw Hbound].
    constructor; cbn [c_result c_dictionary c_dict_size c_w
                      d_dictionary d_dict_size d_result d_w take].
    + by apply (decompress_run_snoc _ _ dst).
    + done.
    + lia.
    + rewrite length_app. simpl. lia.
    + intros x k'. rewrite lookup_insert_Some, lookup_insert_Some, Hdict.
      assert (∀ k'', d_dictionary dst !! k'' = Some (c_w cst ++ [c]) → False) as Hfresh1.
      { intros k'' Hk''. apply Hwc. exists k''. apply Hdict. by left. }
      assert (c_w cst ++ [c] ≠ d_w dst ++ take 1 (c_w cst)) as Hfresh2.
      { intros Heq. apply Hwc. exists (d_dict_size dst). apply Hdict. by right. }
      assert (∀ x', d_dictionary dst !! d_dict_size dst = Some x' → False) as Hnokey.
      { intros x' Hx'. assert (is_Some (d_dictionary dst !! d_dict_size dst)) as Hs by eauto.
        apply (dec_keys _ Hinv) in Hs. lia. }
      split.
      * intros [[<- <-]|[Hne' [Hx|[-> ->]]]].
        -- right. split; [done|lia].
        -- left. right. split; [|done]. intros <-. eauto.
        -- left. left. done.
      * intros [[[<- <-]|[Hne' Hx]]|[-> ->]].
        -- right. split; [congruence|]. by right.
        -- right. split; [|by left]. intros <-. eauto.
        -- left. split; [done|lia].
    + by rewrite <- Hout, <- !app_assoc.
    + rewrite lookup_insert_ne.
      * destruct (Hdict [c] (byte_to_Z c)) as [_ H]. eexists. apply H. left.
        apply (dec_base _ Hinv).
      * destruct (c_w cst); [done|]. simpl. intros [= _ E]. by destruct l.
    + intros i c'. rewrite lookup_app_Some. intros [?|[Hi Hc]]; [by eauto|].
      apply list_lookup_singleton_Some in Hc as [Hi' <-]. lia.
Qed.

Lemma sim_loop data rest cst dst :
  sim data rest cst dst →
  ∃ cst' dst', compress_loop rest cst = Ok cst' ∧ sim data [] cst' dst'.
Proof.
  revert cst dst. induction rest as [|c rest IH]; intros cst dst Hsim.
  - exists cst, dst. done.
  - destruct (sim_step _ _ _ _ _ Hsim) as (cst1 & dst1 & Hstep & Hsim1).
    cbn [compress_loop]. rewrite Hstep. cbn [mbind result_bind]. by eapply IH.
Qed.

(** The encoder and the decoder are in step once the first code is out. *)
Lemma sim_first data b c rest :
  data = b :: c :: rest →
  sim data rest
    (mkCompress (<[[b; c] := 256]> compress_dictionary) 257 [byte_to_Z b] [c])
    (mkDecompress decompress_dictionary 256 [b] [b]).
Proof.
  intros ->.
  assert (decompress_start (byte_to_Z b)
          = Ok (mkDecompress decompress_dictionary 256 [b] [b])) as Hstart.
  { unfold decompress_start.
    by rewrite (proj2 (decompress_dictionary_lookup _ [b])) by eauto. }
  constructor; cbn [c_result c_dictionary c_dict_size c_w
                    d_dictionary d_dict_size d_result d_w take app length].
  - cbn [decompress_run]. rewrite Hstart. reflexivity.
  - by apply (dec_inv_start (byte_to_Z b)).
  - done.
  - done.
  - intros x k. rewrite lookup_insert_Some, compress_dictionary_lookup,
      decompress_dictionary_lookup. split.
    + intros [[<- <-]|[_ ?]]; [by right|by left].
    + intros [(b' & -> & ->)|[-> ->]]; [right|by left].
      split; [done|by eauto].
  - done.
  - rewrite lookup_insert_ne by done.
    exists (byte_to_Z c). apply compress_dictionary_lookup. eauto.
  - intros i k [-> <-]%list_lookup_singleton_Some.
    pose proof (byte_to_Z_range b). lia.
Qed.

(** [compress] returns a list of codes that [decompress] maps back to the
    input, and the code at index [i] is below [256 + i]. *)
Lemma lzw_compress_spec data :
  ∃ compressed,
    compress data = Ok compressed
    ∧ decompress compressed = Ok data
    ∧ ∀ i c, compressed !! i = Some c → 0 ≤ c < 256 + Z.of_nat i.
Proof.
  destruct data as [|b [|c rest]].
  - exists []. split_and!; [done..|]. intros i c. by rewrite lookup_nil.
  - exists [byte_to_Z b]. unfold compress, decompress, decompress_run, decompress_start.
    cbn [compress_loop mbind result_bind c_w c_dictionary c_result app].
    rewrite (proj2 (compress_dictionary_lookup [b] _)) by eauto.
    rewrite (proj2 (decompress_dictionary_lookup _ [b])) by eauto.
    split_and!; [done..|].
    intros i k [-> <-]%list_lookup_singleton_Some.
    pose proof (byte_to_Z_range b). lia.
  - pose proof (sim_first _ b c rest eq_refl) as Hsim.
    apply sim_loop in Hsim as (cst & dst & Hloop & Hsim).
    pose proof (sim_w_ne _ _ _ _ Hsim) as Hne.
    destruct (sim_w _ _ _ _ Hsim) as [k Hk].
    destruct (sim_emit _ _ _ _ _ Hsim Hk) as [Hkb Hstep].
    exists (c_result cst ++ [k]). split_and!.
    + unfold compress. cbn [compress_loop].
      assert (compress_step (mkCompress compress_dictionary 256 [] [b]) c
              = Ok (mkCompress (<[[b; c] := 256]> compress_dictionary) 257
                               [byte_to_Z b] [c])) as ->.
      { unfold compress_step. cbn [c_result c_dictionary c_dict_size c_w app].
        rewrite decide_False.
        - by rewrite (proj2 (compress_dictionary_lookup [b] _)) by eauto.
        - intros [k' (b' & [=] & _)%compress_dictionary_lookup]. }
      cbn [mbind result_bind]. rewrite Hloop. cbn [mbind result_bind].
      rewrite Hk. by destruct (c_w cst).
    + unfold decompress.
      rewrite (decompress_run_snoc _ _ _ _ (sim_run _ _ _ _ Hsim) Hstep).
      cbn [mbind result_bind from_option d_result]. f_equal.
      rewrite <- (sim_out _ _ _ _ Hsim). by rewrite app_nil_r.
    + intros i c'. rewrite lookup_app_Some. intros [?|[Hi Hc]].
      * by apply (sim_bound _ _ _ _ Hsim).
      * apply list_lookup_singleton_Some in Hc as [Hi' <-].
        pose proof (sim_len _ _ _ _ Hsim). lia.
Qed.

(** *** Runs of the decoder *)

Lemma decompress_loop_inv rest st st' :
  dec_inv st → decompress_loop rest st = Ok st' →
  dec_inv st' ∧ d_dict_size st' = d_dict_size st + Z.of_nat (length rest).
Proof.
  revert st. induction rest as [|k rest IH]; intros st Hinv; cbn [decompress_loop].
  - intros [= <-]. split; [done|simpl; lia].
  - intros (st1 & Hstep & Hloop)%bind_Ok.
    destruct (dec_inv_step _ _ _ Hinv Hstep) as [Hinv1 Hsz1].
    destruct (IH _ Hinv1 Hloop) as [Hinv' Hsz']. split; [done|].
    rewrite Hsz', Hsz1. simpl length. lia.
Qed.

(** The run on a list of codes passes through the state reached on each
    of its non-empty prefixes. *)
Lemma decompress_run_app l1 l2 st :
  l1 ≠ [] → decompress_run (l1 ++ l2) = Ok (Some st) →
  ∃ st1, decompress_run l1 = Ok (Some st1) ∧ decompress_loop l2 st1 = Ok st.
Proof.
  destruct l1 as [|k0 l1]; [done|]. intros _. cbn [decompress_run app].
  intros (st0 & -> & (st' & Hloop & [= <-])%bind_Ok)%bind_Ok.
  cbn [mbind result_bind]. rewrite decompress_loop_app in Hloop.
  apply bind_Ok in Hloop as (st1 & -> & Hloop). eauto.
Qed.

Lemma decompress_run_inv compressed st :
  decompress_run compressed = Ok (Some st) →
  dec_inv st ∧ d_dict_size st = 255 + Z.of_nat (length compressed).
Proof.
  destruct compressed as [|k0 rest]; [done|]. cbn [decompress_run].
  intros (st0 & Hstart & (st' & Hloop & [= <-])%bind_Ok)%bind_Ok.
  apply dec_inv_start in Hstart as [Hinv0 Hsz0].
  destruct (decompress_loop_inv _ _ _ Hinv0 Hloop) as [Hinv Hsz].
  split; [done|]. rewrite Hsz, Hsz0. simpl length. lia.
Qed.

(** Codes that stay below [256 + i] at every index [i] never reach the
    bad-code branch, nor any other error. *)
Lemma decompress_loop_accepts rest st :
  dec_inv st →
  (∀ i c, rest !! i = Some c → 0 ≤ c ≤ d_dict_size st + Z.of_nat i) →
  ∃ st', decompress_loop rest st = Ok st'.
Proof.
  revert st. induction rest as [|k rest IH]; intros st Hinv Hb; cbn [decompress_loop].
  - eauto.
  - destruct (decompress_step_accepts st k Hinv) as [st1 Hstep].
    { specialize (Hb 0%nat k eq_refl). lia. }
    rewrite Hstep. cbn [mbind result_bind].
    destruct (dec_inv_step _ _ _ Hinv Hstep) as [Hinv1 Hsz1].
    apply IH; [done|]. intros i c Hc. specialize (Hb (S i) c Hc). lia.
Qed.

Lemma decompress_accepts compressed :
  (∀ i c, compressed !! i = Some c → 0 ≤ c < 256 + Z.of_nat i) →
  ∃ out, decompress compressed = Ok out.
Proof.
  intros Hb. unfold decompress. destruct compressed as [|k0 rest]; [by eexists|].
  cbn [decompress_run].
  destruct (decompress_start k0) as [st0|] eqn:Hstart.
  - cbn [mbind result_bind].
    apply dec_inv_start in Hstart as [Hinv0 Hsz0].
    destruct (decompress_loop_accepts rest st0 Hinv0) as [st' ->]; [|by eexists].
    intros i c Hc. specialize (Hb (S i) c Hc). lia.
  - exfalso. unfold decompress_start in Hstart.
    destruct (proj2 (decompress_dictionary_is_Some k0)) as [w Hw].
    { specialize (Hb 0%nat k0 eq_refl). lia. }
    by rewrite Hw in Hstart.
Qed.

End lzw_facts.

(** C2. Round trip of LZW: for every byte sequence [s], [LZW.compress(s)]
    returns a list of codes, and [LZW.decompress], which starts from the 256
    single-byte entries and applies the self-reference rule when
    [k == dict_size], returns [s] on it. *)
Theorem lzw_roundtrip (s : bytes) :
  ∃ compressed, LZW.compress s = Ok compressed ∧ LZW.decompress compressed = Ok s.
Proof.
  destruct (lzw_compress_spec s) as (compressed & Hc & Hd & _). eauto.
Qed.

(** C10. The code at index [i] of [LZW.compress(s)] is below [256 + i], and
    so [LZW.decompress] of that list never raises the bad-code error. *)
Theorem lzw_codes_below_next_code (s : bytes) :
  ∃ compressed,
    LZW.compress s = Ok compressed
    ∧ (∀ i c, compressed !! i = Some c → 0 ≤ c < 256 + Z.of_nat i)
    ∧ ∀ k, LZW.decompress compressed ≠ Raise (ValueError (BadCompressedK k)).
Proof.
  destruct (lzw_compress_spec s) as (compressed & Hc & _ & Hb).
  exists compressed. split_and!; [done..|].
  intros k. destruct (decompress_accepts compressed Hb) as [out ->]. done.
Qed.

(** C7. When [LZW.decompress] accepts a code list, then for every [k >= 1]
    its run passes, after the first [k] codes, through a state whose
    dictionary has exactly [256 + (k - 1)] entries; that state is the one
    the decoder reaches on the first [k] codes alone, so every accepted
    code list with the same first [k] codes passes through it as well. *)
Theorem lzw_decoder_dictionary_size (compressed : list Z) (out : bytes) (k : nat) :
  LZW.decompress compressed = Ok out →
  (1 ≤ k ≤ length compressed)%nat →
  ∃ st,
    LZW.decompress_run (take k compressed) = Ok (Some st)
    ∧ (LZW.decompress_loop (drop k compressed) st ≫= λ st', Ok (LZW.d_result st'))
      = Ok out
    ∧ size (LZW.d_dictionary st) = (256 + (k - 1))%nat
    ∧ (∀ key, is_Some (LZW.d_dictionary st !! key) ↔ 0 ≤ key < 256 + (Z.of_nat k - 1))
    ∧ ∀ compressed' out',
        LZW.decompress compressed' = Ok out' →
        take k compressed' = take k compressed →
        (LZW.decompress_loop (drop k compressed') st ≫= λ st', Ok (LZW.d_result st'))
        = Ok out'.
Proof.
  assert (∀ l o, LZW.decompress l = Ok o → (1 ≤ k ≤ length l)%nat →
    ∃ st, LZW.decompress_run (take k l) = Ok (Some st)
      ∧ (LZW.decompress_loop (drop k l) st ≫= λ st', Ok (LZW.d_result st')) = Ok o)
    as Hprefix.
  { intros l o Hd Hk. unfold LZW.decompress in Hd.
    apply bind_Ok in Hd as (ost & Hrun & [= <-]).
    destruct ost as [st|]; [|destruct l; [simpl in Hk; lia|]; cbn in Hrun;
      apply bind_Ok in Hrun as (? & _ & (? & _ & [=])%bind_Ok)].
    rewrite <- (take_drop k l) in Hrun.
    apply decompress_run_app in Hrun as (st1 & Hrun1 & Hloop).
    - exists st1. split; [done|]. by rewrite Hloop.
    - destruct l; [simpl in Hk; lia|]. destruct k; [lia|done]. }
  intros Hd Hk. destruct (Hprefix _ _ Hd Hk) as (st & Hrun & Hrest).
  exists st. destruct (decompress_run_inv _ _ Hrun) as [Hinv Hsz].
  rewrite length_take, Nat.min_l in Hsz by lia.
  split_and!; [done..| | |].
  - rewrite (dec_size _ Hinv), Hsz. lia.
  - intros key. rewrite (dec_keys _ Hinv), Hsz. lia.
  - intros compressed' out' Hd' Htake.
    destruct (Hprefix compressed' out' Hd') as (st' & Hrun' & Hrest').
    + assert (length (take k compressed') = length (take k compressed)) as Hl
        by by rewrite Htake.
      rewrite !length_take in Hl. lia.
    + rewrite Htake, Hrun in Hrun'. by injection Hrun' as <-.
Qed.

Lemma lzw_decoder_dictionary_size_witness :
  ∃ st,
    LZW.decompress_run (take 2 [65; 256; 257]) = Ok (Some st)
    ∧ (LZW.decompress_loop (drop 2 [65; 256; 257]) st ≫= λ st', Ok (LZW.d_result st'))
      = Ok (replicate 6 "A"%byte)
    ∧ size (LZW.d_dictionary st) = (256 + (2 - 1))%nat
    ∧ (∀ key, is_Some (LZW.d_dictionary st !! key) ↔ 0 ≤ key < 256 + (Z.of_nat 2 - 1))
    ∧ ∀ compressed' out',
        LZW.decompress compressed' = Ok out' →
        take 2 compressed' = take 2 [65; 256; 257] →
        (LZW.decompress_loop (drop 2 compressed') st ≫= λ st', Ok (LZW.d_result st'))
        = Ok out'.
Proof.
  apply (lzw_decoder_dictionary_size [65; 256; 257] (replicate 6 "A"%byte) 2).
  - vm_compute. reflexivity.
  - simpl. lia.
Defined.

(** ** The container header *)

Section container_facts.
Import Container.

Lemma parse_short_magic f :
  (length f < 4)%nat → parse f = Raise (ValueError InvalidMagic).
Proof.
  intros Hlen. unfold parse, read.
  rewrite decide_True; [done|].
  intros Hmagic. apply (f_equal length) in Hmagic.
  rewrite length_take in Hmagic. change (length MAGIC) with 4%nat in Hmagic. lia.
Qed.

(** [parse] on a buffer that holds the magic, the version byte and the
    length byte of the codec name. *)
Lemma parse_after_algo_len b0 b1 b2 b3 b4 b5 r :
  parse (b0 :: b1 :: b2 :: b3 :: b4 :: b5 :: r) =
  if decide ([b0; b1; b2; b3] ≠ MAGIC) then Raise (ValueError InvalidMagic)
  else if decide (byte_to_Z b4 ≠ VERSION) then
    Raise (ValueError (UnsupportedVersion (byte_to_Z b4)))
  else
    let n := Z.to_nat (byte_to_Z b5) in
    algorithm_name ← decode_utf8 (take n r);
    ext_len ← unpack_B (take 1 (drop n r));
    ext ← decode_utf8 (take (Z.to_nat ext_len) (drop 1 (drop n r)));
    Ok (algorithm_name, ext, drop (Z.to_nat ext_len) (drop 1 (drop n r))).
Proof.
  unfold parse, read.
  change (Z.to_nat 4) with 4%nat. change (Z.to_nat 1) with 1%nat.
  cbn [take drop unpack_B mbind result_bind].
  repeat case_decide; done.
Qed.

(** A declared extension longer than what is left is read short, without
    any error, and the payload is empty. *)
Lemma parse_extension_cut_short n name_bytes e ext_bytes :
  length name_bytes = Z.to_nat (byte_to_Z n) →
  (length ext_bytes ≤ Z.to_nat (byte_to_Z e))%nat →
  parse (MAGIC ++ ["001"%byte; n] ++ name_bytes ++ [e] ++ ext_bytes) =
  algorithm_name ← decode_utf8 name_bytes;
  ext ← decode_utf8 ext_bytes;
  Ok (algorithm_name, ext, []).
Proof.
  intros Hn He. unfold MAGIC. cbn [app]. rewrite parse_after_algo_len.
  rewrite decide_False by (by intros []).
  rewrite decide_False by (by intros []). cbn zeta.
  rewrite <- Hn, take_app_length, drop_app_length. cbn [take drop unpack_B app].
  destruct (decode_utf8 name_bytes); cbn [mbind result_bind]; [|done].
  rewrite take_0, drop_0. cbn [mbind result_bind].
  rewrite take_ge, drop_ge by done. done.
Qed.

Lemma decode_utf8_error b e :
  decode_utf8 b = Raise e → e = UnicodeDecodeError.
Proof.
  induction b as [b IH] using (induction_ltof1 _ length). unfold ltof in IH.
  destruct b as [|b0 r0]; [done|]. cbn [decode_utf8].
  assert (∀ r (g : list Z → list Z),
    (decode_utf8 r ≫= λ s, Ok (g s)) = Raise e →
    (length r < length (b0 :: r0))%nat → e = UnicodeDecodeError) as Hrec.
  { intros r g Hg Hr. revert Hg. specialize (IH r Hr).
    destruct (decode_utf8 r); cbn [mbind result_bind]; [done|].
    intros [= <-]. by apply IH. }
  repeat first
    [ case_decide
    | match goal with
      | |- context [match ?l with [] => _ | _ :: _ => _ end] => is_var l; destruct l
      | |- context [if ?c then _ else _] => destruct c
      end ];
    first [ by intros [= <-]
          | intros Hg; apply Hrec in Hg; [done|simpl; lia] ].
Qed.

End container_facts.

(** A header cut short before the extension makes [parse] fail, and with
    which error. *)
Lemma parse_header_cut_short_fails (f : bytes) :
  header_cut_short f →
  (∃ e, Container.parse f = Raise e)
  ∧ ((length f < 4)%nat → Container.parse f = Raise (ValueError InvalidMagic))
  ∧ (take 5 f = Container.MAGIC ++ ["001"%byte] →
     Container.parse f = Raise StructError
     ∨ Container.parse f = Raise UnicodeDecodeError).
Proof.
  intros Hcut. split_and!; [| apply parse_short_magic |].
  - destruct f as [|b0 [|b1 [|b2 [|b3 [|b4 [|b5 r]]]]]];
      try (rewrite parse_short_magic by (simpl; lia); by eexists).
    + unfold Container.parse, Container.read.
      change (Z.to_nat 4) with 4%nat. cbn [take drop].
      case_decide; [by eexists|]. cbn. by eexists.
    + unfold Container.parse, Container.read.
      change (Z.to_nat 4) with 4%nat. change (Z.to_nat 1) with 1%nat.
      cbn [take drop Container.unpack_B mbind result_bind].
      repeat case_decide; by eexists.
    + rewrite parse_after_algo_len. repeat case_decide; try by eexists.
      destruct Hcut as [Hlen|(n & [= <-] & Hlen)];
        [exfalso; cbn [length] in Hlen; lia|].
      cbn zeta. cbn [length] in Hlen.
      rewrite (take_ge r) by lia.
      destruct (Container.decode_utf8 r); cbn [mbind result_bind]; [|by eexists].
      rewrite (drop_ge r) by lia. by eexists.
  - intros Htake.
    destruct f as [|b0 [|b1 [|b2 [|b3 [|b4 [|b5 r]]]]]]; try done.
    + injection Htake as -> -> -> -> ->.
      unfold Container.parse, Container.read.
      change (Z.to_nat 4) with 4%nat. change (Z.to_nat 1) with 1%nat.
      cbn [take drop Container.unpack_B mbind result_bind].
      rewrite decide_False by (by intros []).
      rewrite decide_False by (by intros []). by left.
    + injection Htake as -> -> -> -> ->.
      rewrite parse_after_algo_len.
      rewrite decide_False by (by intros []).
      rewrite decide_False by (by intros []).
      destruct Hcut as [Hlen|(n & [= <-] & Hlen)];
        [exfalso; cbn [length] in Hlen; lia|].
      cbn zeta. cbn [length] in Hlen. rewrite (take_ge r) by lia.
      pose proof (decode_utf8_error r) as Herr.
      destruct (Container.decode_utf8 r) as [name|e]; cbn [mbind result_bind].
      * rewrite (drop_ge r) by lia. by left.
      * right. f_equal. by apply Herr.
Qed.

(** A declared extension that runs past the end is read short, without
    any error. *)
Lemma parse_extension_past_end (f : bytes) :
  extension_cut_short f → take 5 f = Container.MAGIC ++ ["001"%byte] →
  ∃ n, f !! 5%nat = Some n
    ∧ Container.parse f
      = (algorithm_name ←
           Container.decode_utf8 (take (Z.to_nat (byte_to_Z n)) (drop 6 f));
         ext ← Container.decode_utf8 (drop (7 + Z.to_nat (byte_to_Z n)) f);
         Ok (algorithm_name, ext, [])).
Proof.
  intros (n & e & Hn & He & Hlen) Htake.
  destruct f as [|b0 [|b1 [|b2 [|b3 [|b4 [|b5 r]]]]]]; try done.
  injection Htake as -> -> -> -> ->. injection Hn as ->.
  exists n. split; [done|].
  change (6 + Z.to_nat (byte_to_Z n))%nat
    with (S (S (S (S (S (S (Z.to_nat (byte_to_Z n)))))))) in He.
  cbn [lookup list_lookup] in He. cbn [length] in Hlen.
  change (7 + Z.to_nat (byte_to_Z n))%nat
    with (S (S (S (S (S (S (S (Z.to_nat (byte_to_Z n))))))))).
  cbn [drop].
  set (k := Z.to_nat (byte_to_Z n)) in *.
  pose proof (parse_extension_cut_short n (take k r) e (drop (S k) r)) as Hparse.
  unfold Container.MAGIC in Hparse. cbn [app] in Hparse.
  rewrite (take_drop_middle r k e He) in Hparse. apply Hparse.
  - rewrite length_take. apply lookup_lt_Some in He. lia.
  - rewrite length_drop. lia.
Qed.

(** C5, as the code has it: when the magic, the version byte, a length byte
    or the declared codec name runs past the end of the buffer, parsing
    fails; the error is the invalid-magic [ValueError] when fewer than four
    bytes are there, and, when the magic and the version are right,
    [struct.error], or [UnicodeDecodeError] if the name, as far as it goes,
    is not UTF-8. When the declared extension runs past the end of a buffer
    with the right magic and version, nothing is raised for it: the bytes
    that are left are the extension and the payload is empty. *)
Theorem parse_header_past_end (f : bytes) :
  (header_cut_short f →
   (∃ e, Container.parse f = Raise e)
   ∧ ((length f < 4)%nat → Container.parse f = Raise (ValueError InvalidMagic))
   ∧ (take 5 f = Container.MAGIC ++ ["001"%byte] →
      Container.parse f = Raise StructError
      ∨ Container.parse f = Raise UnicodeDecodeError))
  ∧ (extension_cut_short f → take 5 f = Container.MAGIC ++ ["001"%byte] →
     ∃ n, f !! 5%nat = Some n
       ∧ Container.parse f
         = (algorithm_name ←
              Container.decode_utf8 (take (Z.to_nat (byte_to_Z n)) (drop 6 f));
            ext ← Container.decode_utf8 (drop (7 + Z.to_nat (byte_to_Z n)) f);
            Ok (algorithm_name, ext, []))).
Proof.
  split.
  - apply parse_header_cut_short_fails.
  - apply parse_extension_past_end.
Qed.

Lemma parse_header_past_end_witness :
  ((∃ e, Container.parse (Container.MAGIC ++ ["001"%byte; "003"%byte; "r"%byte; "l"%byte])
         = Raise e)
   ∧ ((length (Container.MAGIC ++ ["001"%byte; "003"%byte; "r"%byte; "l"%byte]) < 4)%nat →
      Container.parse (Container.MAGIC ++ ["001"%byte; "003"%byte; "r"%byte; "l"%byte])
      = Raise (ValueError InvalidMagic))
   ∧ (take 5 (Container.MAGIC ++ ["001"%byte; "003"%byte; "r"%byte; "l"%byte])
      = Container.MAGIC ++ ["001"%byte] →
      Container.parse (Container.MAGIC ++ ["001"%byte; "003"%byte; "r"%byte; "l"%byte])
      = Raise StructError
      ∨ Container.parse (Container.MAGIC ++ ["001"%byte; "003"%byte; "r"%byte; "l"%byte])
        = Raise UnicodeDecodeError))
  ∧ ∃ n,
      (Container.MAGIC ++ ["001"%byte; "003"%byte; "r"%byte; "l"%byte; "e"%byte;
                           "005"%byte; "."%byte; "t"%byte]) !! 5%nat = Some n
      ∧ Container.parse
          (Container.MAGIC ++ ["001"%byte; "003"%byte; "r"%byte; "l"%byte; "e"%byte;
                               "005"%byte; "."%byte; "t"%byte])
        = (algorithm_name ←
             Container.decode_utf8
               (take (Z.to_nat (byte_to_Z n))
                  (drop 6 (Container.MAGIC
                           ++ ["001"%byte; "003"%byte; "r"%byte; "l"%byte; "e"%byte;
                               "005"%byte; "."%byte; "t"%byte])));
           ext ← Container.decode_utf8
                   (drop (7 + Z.to_nat (byte_to_Z n))
                      (Container.MAGIC
                       ++ ["001"%byte; "003"%byte; "r"%byte; "l"%byte; "e"%byte;
                           "005"%byte; "."%byte; "t"%byte]));
           Ok (algorithm_name, ext, [])).
Proof.
  split.
  - apply (proj1 (parse_header_past_end
                    (Container.MAGIC ++ ["001"%byte; "003"%byte; "r"%byte; "l"%byte]))).
    right. exists "003"%byte. split; [reflexivity|]. vm_compute. lia.
  - apply (proj2 (parse_header_past_end
                    (Container.MAGIC ++ ["001"%byte; "003"%byte; "r"%byte; "l"%byte;
                                         "e"%byte; "005"%byte; "."%byte; "t"%byte]))).
    + exists "003"%byte, "005"%byte. split_and!; [reflexivity..|]. vm_compute. lia.
    + reflexivity.
Defined.

(** C5, as stated, fails: in this buffer the header declares an extension of
    five bytes where two are left, and parsing returns normally, with the
    extension [".t"] and an empty payload. *)
Lemma parse_extension_cut_short_accepted :
  extension_cut_short
    (Container.MAGIC ++ ["001"%byte; "003"%byte; "r"%byte; "l"%byte; "e"%byte;
                         "005"%byte; "."%byte; "t"%byte])
  ∧ Container.parse
      (Container.MAGIC ++ ["001"%byte; "003"%byte; "r"%byte; "l"%byte; "e"%byte;
                           "005"%byte; "."%byte; "t"%byte])
    = Ok ([114; 108; 101], [46; 116], []).
Proof.
  split; [|vm_compute; reflexivity].
  exists "003"%byte, "005"%byte. split_and!; [reflexivity..|]. vm_compute. lia.
Qed.

(** ** The binary heap *)

Section heapq_facts.
Context {A : Type} (lt : A → A → bool).
Implicit Types heap : list A.

Lemma insert_head_swap (l : list A) j x y :
  l !! j = Some y → y :: <[j:=x]> l ≡ₚ x :: l.
Proof.
  revert j. induction l as [|a l IH]; intros [|j] Hj; simplify_eq/=.
  - apply perm_swap.
  - rewrite perm_swap, (IH j Hj). apply perm_swap.
Qed.

Lemma insert_head_exchange (l : list A) i x y :
  (i < length l)%nat → x :: <[i:=y]> l ≡ₚ y :: <[i:=x]> l.
Proof.
  revert i. induction l as [|a l IH]; intros [|i] Hi; simpl in *; try lia.
  - apply perm_swap.
  - rewrite perm_swap, (IH i) by lia. apply perm_swap.
Qed.

(** Moving the element at [j] to [i] and writing [x] at [j] permutes the
    list in which [x] is written at [i]. *)
Lemma insert_swap (l : list A) i j x y :
  (i < length l)%nat → l !! j = Some y →
  <[j:=x]> (<[i:=y]> l) ≡ₚ <[i:=x]> l.
Proof.
  revert i j. induction l as [|a l IH]; intros [|i] [|j] Hi Hj; simplify_eq/=;
    try lia.
  - done.
  - by apply insert_head_swap.
  - apply insert_head_exchange. lia.
  - f_equiv. apply IH; [lia|done].
Qed.

Lemma getitem_lt heap i :
  (i < length heap)%nat → ∃ x, getitem heap i = Ok x ∧ heap !! i = Some x.
Proof.
  intros Hi. destruct (lookup_lt_is_Some_2 heap i Hi) as [x Hx].
  exists x. unfold getitem. by rewrite Hx.
Qed.

Lemma setitem_lt heap i x :
  (i < length heap)%nat → setitem heap i x = Ok (<[i:=x]> heap).
Proof. intros Hi. unfold setitem. by rewrite decide_True. Qed.

Lemma siftdown_loop_spec fuel heap startpos pos newitem :
  (pos < length heap)%nat →
  ∃ heap' pos',
    heapq.siftdown_loop lt fuel heap startpos pos newitem = Ok (heap', pos')
    ∧ (pos' < length heap')%nat ∧ length heap' = length heap
    ∧ <[pos':=newitem]> heap' ≡ₚ <[pos:=newitem]> heap.
Proof.
  revert heap pos. induction fuel as [|fuel IH]; intros heap pos Hpos;
    cbn [heapq.siftdown_loop].
  { by exists heap, pos. }
  case_decide as Hstart; [|by exists heap, pos].
  assert ((pos - 1) / 2 < pos)%nat as Hparent.
  { apply Nat.Div0.div_lt_upper_bound. lia. }
  destruct (getitem_lt heap ((pos - 1) / 2)) as (parent & -> & Hp); [lia|].
  cbn [mbind result_bind]. destruct (lt newitem parent); [|by exists heap, pos].
  rewrite setitem_lt by done. cbn [mbind result_bind].
  destruct (IH (<[pos:=parent]> heap) ((pos - 1) / 2)%nat)
    as (heap' & pos' & -> & Hpos' & Hlen & Hperm).
  { rewrite length_insert. lia. }
  exists heap', pos'. rewrite length_insert in Hlen.
  split_and!; [done..|]. rewrite Hperm. by apply insert_swap.
Qed.

Lemma _siftdown_spec heap startpos pos :
  (pos < length heap)%nat →
  ∃ heap', heapq._siftdown lt heap startpos pos = Ok heap' ∧ heap' ≡ₚ heap.
Proof.
  intros Hpos. unfold heapq._siftdown.
  destruct (getitem_lt heap pos Hpos) as (newitem & -> & Hn).
  cbn [mbind result_bind].
  destruct (siftdown_loop_spec (S pos) heap startpos pos newitem Hpos)
    as (heap' & pos' & -> & Hpos' & _ & Hperm).
  cbn [mbind result_bind]. rewrite setitem_lt by done.
  eexists. split; [done|]. by rewrite Hperm, list_insert_id.
Qed.

Lemma siftup_loop_spec fuel heap pos childpos :
  (pos < length heap)%nat →
  ∃ heap' pos',
    heapq.siftup_loop lt fuel heap (length heap) pos childpos = Ok (heap', pos')
    ∧ (pos' < length heap')%nat ∧ length heap' = length heap
    ∧ ∀ x, <[pos':=x]> heap' ≡ₚ <[pos:=x]> heap.
Proof.
  revert heap pos childpos. induction fuel as [|fuel IH]; intros heap pos childpos Hpos;
    cbn [heapq.siftup_loop].
  { by exists heap, pos. }
  case_decide as Hchild; [|by exists heap, pos].
  assert (∃ childpos',
    (if decide (childpos + 1 < length heap)%nat then
       c ← getitem heap childpos; r ← getitem heap (childpos + 1);
       Ok (if negb (lt c r) then (childpos + 1)%nat else childpos)
     else Ok childpos) = Ok childpos' ∧ (childpos' < length heap)%nat)
    as (childpos' & -> & Hchild').
  { case_decide as Hright; [|by exists childpos].
    destruct (getitem_lt heap childpos Hchild) as (c & -> & _).
    destruct (getitem_lt heap (childpos + 1) Hright) as (r & -> & _).
    cbn [mbind result_bind]. destruct (negb (lt c r)); eauto. }
  cbn [mbind result_bind].
  destruct (getitem_lt heap childpos' Hchild') as (child & -> & Hc).
  cbn [mbind result_bind]. rewrite setitem_lt by done. cbn [mbind result_bind].
  destruct (IH (<[pos:=child]> heap) childpos' (2 * childpos' + 1)%nat)
    as (heap' & pos' & Hloop & Hpos' & Hlen & Hperm).
  { rewrite length_insert. lia. }
  rewrite length_insert in Hloop, Hlen. rewrite Hloop.
  exists heap', pos'. split_and!; [done..|].
  intros x. rewrite Hperm. by apply insert_swap.
Qed.

Lemma _siftup_spec heap pos :
  (pos < length heap)%nat →
  ∃ heap', heapq._siftup lt heap pos = Ok heap' ∧ heap' ≡ₚ heap.
Proof.
  intros Hpos. unfold heapq._siftup.
  destruct (getitem_lt heap pos Hpos) as (newitem & -> & Hn).
  cbn [mbind result_bind].
  destruct (siftup_loop_spec (length heap) heap pos (2 * pos + 1) Hpos)
    as (heap' & pos' & -> & Hpos' & Hlen & Hperm).
  cbn [mbind result_bind]. rewrite setitem_lt by done. cbn [mbind result_bind].
  destruct (_siftdown_spec (<[pos':=newitem]> heap') pos pos') as (heap'' & -> & Hperm').
  { by rewrite length_insert. }
  exists heap''. split; [done|]. by rewrite Hperm', Hperm, list_insert_id.
Qed.

Lemma heappush_spec heap item :
  ∃ heap', heapq.heappush lt heap item = Ok heap' ∧ heap' ≡ₚ item :: heap.
Proof.
  unfold heapq.heappush.
  destruct (_siftdown_spec (heap ++ [item]) 0 (length (heap ++ [item]) - 1))
    as (heap' & -> & Hperm).
  { rewrite length_app. simpl. lia. }
  exists heap'. split; [done|]. by rewrite Hperm, Permutation_app_comm.
Qed.

Lemma heappop_spec heap :
  heap ≠ [] →
  ∃ item heap', heapq.heappop lt heap = Ok (item, heap') ∧ item :: heap' ≡ₚ heap.
Proof.
  intros Hne. unfold heapq.heappop.
  destruct (reverse heap) as [|lastelt rest_rev] eqn:Hrev.
  { apply (f_equal reverse) in Hrev. by rewrite reverse_involutive in Hrev. }
  assert (heap = reverse rest_rev ++ [lastelt]) as ->.
  { by rewrite <- reverse_cons, <- Hrev, reverse_involutive. }
  destruct (reverse rest_rev) as [|returnitem t].
  - by exists lastelt, [].
  - rewrite setitem_lt by (simpl; lia). cbn [mbind result_bind].
    destruct (_siftup_spec (<[0%nat:=lastelt]> (returnitem :: t)) 0)
      as (heap' & -> & Hperm); [simpl; lia|].
    exists returnitem, heap'. split; [done|].
    rewrite Hperm. simpl. by rewrite Permutation_app_comm.
Qed.

End heapq_facts.

Section heapq_fuel.
Context {A : Type} (lt : A → A → bool).
Implicit Types heap : list A.

(** The fuel of the sift loops is never what stops them: any two amounts
    above the stated bound give the same result. *)
Lemma siftdown_loop_fuel fuel fuel' heap startpos pos newitem :
  (pos < fuel)%nat → (pos < fuel')%nat →
  heapq.siftdown_loop lt fuel heap startpos pos newitem
  = heapq.siftdown_loop lt fuel' heap startpos pos newitem.
Proof.
  revert fuel' heap pos. induction fuel as [|fuel IH];
    intros [|fuel'] heap pos Hf Hf'; try lia.
  cbn [heapq.siftdown_loop]. case_decide as Hstart; [|done].
  destruct (getitem heap ((pos - 1) / 2)) as [parent|]; [|done].
  cbn [mbind result_bind]. destruct (lt newitem parent); [|done].
  destruct (setitem heap pos parent) as [heap'|]; [|done].
  cbn [mbind result_bind].
  assert ((pos - 1) / 2 < pos)%nat by (apply Nat.Div0.div_lt_upper_bound; lia).
  apply IH; lia.
Qed.

Lemma siftup_loop_fuel fuel fuel' heap endpos pos childpos :
  (pos < childpos)%nat → (endpos - pos ≤ fuel)%nat → (endpos - pos ≤ fuel')%nat →
  heapq.siftup_loop lt fuel heap endpos pos childpos
  = heapq.siftup_loop lt fuel' heap endpos pos childpos.
Proof.
  revert fuel' heap pos childpos. induction fuel as [|fuel IH];
    intros [|fuel'] heap pos childpos Hc Hf Hf'; cbn [heapq.siftup_loop];
    try done; try (rewrite decide_False by lia; done).
  case_decide as Hchild; [|done].
  assert (∀ (m : result nat) (k1 k2 : nat → result (list A * nat)),
    (∀ c, m = Ok c → k1 c = k2 c) → m ≫= k1 = m ≫= k2) as Hbind.
  { intros [c|e] k1 k2 Hk; [by apply Hk|done]. }
  apply Hbind. intros childpos' Hchildpos'.
  assert (childpos ≤ childpos' < endpos)%nat as Hrange.
  { case_decide as Hright; [|injection Hchildpos' as <-; lia].
    destruct (getitem heap childpos); [|done].
    destruct (getitem heap (childpos + 1)); [|done].
    cbn [mbind result_bind] in Hchildpos'. injection Hchildpos' as <-.
    destruct (negb _); lia. }
  destruct (getitem heap childpos') as [child|]; [|done].
  cbn [mbind result_bind]. destruct (setitem heap pos child) as [heap'|]; [|done].
  cbn [mbind result_bind]. apply IH; lia.
Qed.

End heapq_fuel.

(** ** Huffman coding *)

Section huffman_facts.
Import Huffman.

(** *** Trees and code tables *)

Lemma HuffmanNode_ind' (P : HuffmanNode → Prop) :
  (∀ c f l r, from_option P True l → from_option P True r → P (mkNode c f l r)) →
  ∀ n, P n.
Proof.
  intros H. fix IH 1. intros [c f l r]. apply H.
  - destruct l as [l|]; [apply IH|exact I].
  - destruct r as [r|]; [apply IH|exact I].
Qed.

Lemma make_codes_node_pairs root current_code tables :
  make_codes_node root current_code tables
  = foldl store_code tables (code_pairs root current_code).
Proof.
  revert current_code tables.
  induction root as [c f l r IHl IHr] using HuffmanNode_ind'.
  intros current_code tables. cbn [make_codes_node code_pairs char left right].
  rewrite !foldl_app.
  destruct r as [r|], l as [l|]; cbn [from_option] in *;
    rewrite ?IHl, ?IHr; destruct c; destruct tables; reflexivity.
Qed.

(** Storing pairs never removes a key of [reverse_mapping]. *)
Lemma foldl_store_code_keys pairs tables code :
  is_Some ((foldl store_code tables pairs).2 !! code)
  ↔ code ∈ pairs.*1 ∨ is_Some (tables.2 !! code).
Proof.
  revert tables. induction pairs as [|[code' c] pairs IH]; intros tables; simpl.
  - rewrite elem_of_nil. tauto.
  - rewrite IH. unfold store_code. simpl.
    rewrite lookup_insert_is_Some, elem_of_cons.
    destruct (decide (code' = code)); split; intros; destruct_or?; destruct_and?; subst; auto.
Qed.

Lemma foldl_store_code_symbols pairs tables c :
  is_Some ((foldl store_code tables pairs).1 !! c)
  ↔ c ∈ pairs.*2 ∨ is_Some (tables.1 !! c).
Proof.
  revert tables. induction pairs as [|[code c'] pairs IH]; intros tables; simpl.
  - rewrite elem_of_nil. tauto.
  - rewrite IH. unfold store_code. simpl.
    rewrite lookup_insert_is_Some, elem_of_cons.
    destruct (decide (c' = c)); split; intros; destruct_or?; destruct_and?; subst; auto.
Qed.

(** The codes below [current_code] are the codes below the empty code,
    with [current_code] in front. *)
Lemma code_pairs_prefix root current_code :
  code_pairs root current_code
  = prod_map (λ s, current_code ++ s) id <$> code_pairs root [].
Proof.
  revert current_code.
  induction root as [c f l r IHl IHr] using HuffmanNode_ind'.
  intros current_code. cbn [code_pairs char left right].
  rewrite !fmap_app. f_equal; [|f_equal].
  - destruct c; simpl; [|done]. by rewrite app_nil_r.
  - destruct l as [l|]; [|done]. cbn [from_option] in IHl.
    rewrite (IHl (current_code ++ _)), (IHl ([] ++ _)), <- list_fmap_compose.
    apply list_fmap_ext. intros _ [s b] _. simpl. by rewrite <- app_assoc.
  - destruct r as [r|]; [|done]. cbn [from_option] in IHr.
    rewrite (IHr (current_code ++ _)), (IHr ([] ++ _)), <- list_fmap_compose.
    apply list_fmap_ext. intros _ [s b] _. simpl. by rewrite <- app_assoc.
Qed.

Lemma symbols_code_pairs root current_code :
  (code_pairs root current_code).*2 = symbols root.
Proof.
  unfold symbols. rewrite code_pairs_prefix, <- list_fmap_compose.
  apply list_fmap_ext. by intros _ [s b] _.
Qed.

Lemma symbols_leaf c f : symbols (new_node (Some c) f) = [c].
Proof. done. Qed.

Lemma symbols_merged f l r :
  symbols (mkNode None f (Some l) (Some r)) = symbols l ++ symbols r.
Proof.
  unfold symbols at 1. cbn [code_pairs char left right].
  by rewrite app_nil_l, fmap_app, !symbols_code_pairs.
Qed.

Lemma prefix_code_wf root :
  wf_node root → prefix_code (code_pairs root []).*1.
Proof.
  induction 1 as [c f|f l r _ (NDl & Pl & Bl) _ (NDr & Pr & Br)].
  - simpl. split_and!.
    + apply NoDup_singleton.
    + by intros x y ->%list_elem_of_singleton ->%list_elem_of_singleton.
    + by repeat constructor.
  - cbn [code_pairs char left right]. rewrite app_nil_l, fmap_app.
    rewrite (code_pairs_prefix l), (code_pairs_prefix r), <- !list_fmap_compose.
    change (fst ∘ prod_map (λ s, ([] ++ ["0"%char]) ++ s) id)
      with ((λ s, "0"%char :: s) ∘ (fst : str * byte → str)).
    change (fst ∘ prod_map (λ s, ([] ++ ["1"%char]) ++ s) id)
      with ((λ s, "1"%char :: s) ∘ (fst : str * byte → str)).
    rewrite !list_fmap_compose.
    set (L := (code_pairs l []).*1) in *. set (R := (code_pairs r []).*1) in *.
    split_and!.
    + apply NoDup_app. split_and!.
      * apply (NoDup_fmap_2 _), NDl.
      * intros x (a & -> & _)%list_elem_of_fmap (b & [=] & _)%list_elem_of_fmap.
      * apply (NoDup_fmap_2 _), NDr.
    + intros x y [(a & -> & Ha)%list_elem_of_fmap|(a & -> & Ha)%list_elem_of_fmap]%elem_of_app
                 [(b & -> & Hb)%list_elem_of_fmap|(b & -> & Hb)%list_elem_of_fmap]%elem_of_app
                 [k Hk]; simplify_eq/=.
      * f_equal. apply Pl; [done..|]. by exists k.
      * f_equal. apply Pr; [done..|]. by exists k.
    + apply Forall_app. split; apply Forall_fmap; (eapply Forall_impl; [eassumption|]);
        intros s Hs; constructor; auto.
Qed.

End huffman_facts.

Section huffman_tree_facts.
Import Huffman.

(** *** The frequency table *)

Lemma counter_add_keys c x y :
  y ∈ (counter_add c x).*1 ↔ y = x ∨ y ∈ c.*1.
Proof.
  induction c as [|[z n] c IH]; simpl.
  - rewrite list_elem_of_singleton, elem_of_nil. tauto.
  - case_decide as Hx; simpl; rewrite !elem_of_cons, ?IH; [subst|]; tauto.
Qed.

Lemma counter_add_NoDup c x : NoDup c.*1 → NoDup (counter_add c x).*1.
Proof.
  induction c as [|[z n] c IH]; simpl; intros Hnd.
  - apply NoDup_singleton.
  - apply NoDup_cons in Hnd as [Hz Hnd].
    case_decide as Hx; simpl; apply NoDup_cons; [done|].
    split; [|by apply IH]. rewrite counter_add_keys. intros [->|?]; done.
Qed.

Lemma Counter_keys data x : x ∈ (Counter data).*1 ↔ x ∈ data.
Proof.
  unfold Counter.
  assert (∀ c, x ∈ (foldl counter_add c data).*1 ↔ x ∈ c.*1 ∨ x ∈ data) as H.
  { induction data as [|b data IH]; intros c; simpl.
    - rewrite elem_of_nil. tauto.
    - rewrite IH, counter_add_keys, elem_of_cons. tauto. }
  rewrite H. simpl. rewrite elem_of_nil. tauto.
Qed.

Lemma Counter_NoDup data : NoDup (Counter data).*1.
Proof.
  unfold Counter.
  assert (∀ c, NoDup c.*1 → NoDup (foldl counter_add c data).*1) as H.
  { induction data as [|b data IH]; intros c Hc; simpl; [done|].
    by apply IH, counter_add_NoDup. }
  apply H. constructor.
Qed.

(** *** Building the tree *)

Lemma _make_heap_spec heap frequency :
  ∃ heap', _make_heap heap frequency = Ok heap'
    ∧ heap' ≡ₚ heap ++ ((λ p, new_node (Some p.1) p.2) <$> frequency).
Proof.
  revert heap. induction frequency as [|[c f] frequency IH]; intros heap; simpl.
  - exists heap. by rewrite app_nil_r.
  - destruct (heappush_spec lt heap (new_node (Some c) f)) as (heap1 & -> & Hperm1).
    cbn [mbind result_bind].
    destruct (IH heap1) as (heap' & -> & Hperm). exists heap'. split; [done|].
    rewrite Hperm, Hperm1. simpl. apply Permutation_middle.
Qed.

(** The loop of [_merge_nodes] ends with a single node, whatever fuel at
    least the length of the heap it is given; the node holds the symbols of
    all nodes of the heap. *)
Lemma merge_loop_spec fuel heap :
  (length heap ≤ fuel)%nat → heap ≠ [] → Forall wf_node heap →
  ∃ root, merge_loop fuel heap = Ok [root]
    ∧ wf_node root ∧ symbols root ≡ₚ heap ≫= symbols.
Proof.
  revert heap. induction fuel as [|fuel IH]; intros heap Hfuel Hne Hwf.
  { destruct heap; [done|simpl in Hfuel; lia]. }
  cbn [merge_loop]. case_decide as Hlen.
  - destruct (heappop_spec lt heap Hne) as (node1 & heap1 & -> & Hperm1).
    cbn [mbind result_bind].
    assert (heap1 ≠ []) as Hne1.
    { intros ->. apply Permutation_length in Hperm1. simpl in Hperm1. lia. }
    destruct (heappop_spec lt heap1 Hne1) as (node2 & heap2 & -> & Hperm2).
    cbn [mbind result_bind].
    destruct (heappush_spec lt heap2
                (mkNode None (freq node1 + freq node2) (Some node1) (Some node2)))
      as (heap3 & -> & Hperm3).
    cbn [mbind result_bind].
    rewrite <- Hperm1, <- Hperm2 in Hwf.
    apply Forall_cons in Hwf as [Hwf1 Hwf]. apply Forall_cons in Hwf as [Hwf2 Hwf].
    destruct (IH heap3) as (root & -> & Hroot & Hsym).
    + apply Permutation_length in Hperm1, Hperm2, Hperm3. simpl in *. lia.
    + intros ->. apply Permutation_length in Hperm3. simpl in Hperm3. lia.
    + rewrite Hperm3. apply Forall_cons. split; [by constructor|done].
    + exists root. split_and!; [done..|].
      rewrite Hsym, Hperm3, <- Hperm1, <- Hperm2. simpl.
      by rewrite symbols_merged, app_assoc.
  - destruct heap as [|root [|? ?]]; [done| |simpl in Hlen; lia].
    exists root. apply Forall_cons in Hwf as [Hwf _].
    split_and!; [done..|]. simpl. by rewrite app_nil_r.
Qed.

(** On any data that is not empty, the three tree-building steps of
    [compress] on a fresh instance return a tree, leave the heap empty, and
    the symbols of the tree are those of the data, each once. *)
Lemma build_tree_spec data :
  data ≠ [] →
  ∃ root,
    (heap1 ← _make_heap [] (_make_frequency_dict data);
     heap2 ← _merge_nodes heap1;
     heapq.heappop lt heap2) = Ok (root, [])
    ∧ wf_node root ∧ symbols root ≡ₚ (Counter data).*1.
Proof.
  intros Hne. unfold _make_frequency_dict.
  destruct (_make_heap_spec [] (Counter data)) as (heap1 & -> & Hperm1).
  cbn [mbind result_bind]. rewrite app_nil_l in Hperm1.
  destruct (merge_loop_spec (length heap1) heap1) as (root & Hmerge & Hwf & Hsym).
  - done.
  - intros ->. apply Permutation_length in Hperm1.
    rewrite length_fmap in Hperm1. destruct data as [|b data]; [done|].
    assert (b ∈ (Counter (b :: data)).*1) as Hb by (apply Counter_keys; left).
    destruct (Counter (b :: data)); [by apply elem_of_nil in Hb|done].
  - rewrite Hperm1. apply Forall_fmap, Forall_forall. intros [c f] _. constructor.
  - exists root. unfold _merge_nodes. rewrite Hmerge. split_and!; [done..|].
    rewrite Hsym, Hperm1. clear.
    induction (Counter data) as [|[c f] l IH]; [done|]. simpl. by rewrite IH.
Qed.

End huffman_tree_facts.

Section merge_fuel.
Import Huffman.

(** Likewise for the loop of [_merge_nodes]. *)
Lemma merge_loop_fuel fuel fuel' heap :
  (length heap ≤ fuel)%nat → (length heap ≤ fuel')%nat →
  merge_loop fuel heap = merge_loop fuel' heap.
Proof.
  revert fuel' heap. induction fuel as [|fuel IH];
    intros [|fuel'] heap Hf Hf'; cbn [merge_loop];
    try done; try (rewrite decide_False by lia; done).
  case_decide as Hlen; [|done].
  destruct (heappop_spec lt heap) as (node1 & heap1 & -> & Hperm1).
  { intros ->. simpl in Hlen. lia. }
  cbn [mbind result_bind].
  destruct (heappop_spec lt heap1) as (node2 & heap2 & -> & Hperm2).
  { intros ->. apply Permutation_length in Hperm1. simpl in Hperm1. lia. }
  cbn [mbind result_bind].
  destruct (heappush_spec lt heap2
              (mkNode None (freq node1 + freq node2) (Some node1) (Some node2)))
    as (heap3 & -> & Hperm3).
  cbn [mbind result_bind].
  apply Permutation_length in Hperm1, Hperm2, Hperm3. simpl in *.
  apply IH; lia.
Qed.

End merge_fuel.

Section huffman_bits_facts.
Import Huffman.

(** *** Bits and bytes *)

Lemma binary_app s1 s2 : binary s1 → binary s2 → binary (s1 ++ s2).
Proof. intros. by apply Forall_app. Qed.

Lemma binary_zeros n : binary (replicate n "0"%char).
Proof. apply Forall_replicate. by left. Qed.

Lemma binary_bin_digits p acc : binary acc → binary (bin_digits p acc).
Proof.
  revert acc. induction p as [p IH|p IH|]; intros acc Hacc; simpl.
  - apply IH. constructor; auto.
  - apply IH. constructor; auto.
  - constructor; auto.
Qed.

Lemma binary_format_08b n : 0 ≤ n → binary (format_08b n).
Proof.
  intros Hn. destruct n as [|p|p]; [apply binary_zeros| |lia].
  simpl. apply binary_app; [apply binary_zeros|]. apply binary_bin_digits. constructor.
Qed.

Lemma format_08b_byte b :
  length (format_08b (byte_to_Z b)) = 8%nat
  ∧ int2 (format_08b (byte_to_Z b)) = Ok (byte_to_Z b).
Proof. destruct b; split; reflexivity. Qed.

Lemma format_08b_range n :
  0 ≤ n ≤ 255 →
  length (format_08b n) = 8%nat ∧ int2 (format_08b n) = Ok n.
Proof.
  intros (b & _ & <-)%byte_of_Z_in_range. apply format_08b_byte.
Qed.

(** Eight binary digits are the [format(b, "08b")] of the byte [b] that
    [int(_, 2)] reads from them. *)
Lemma int2_chunk chunk :
  binary chunk → length chunk = 8%nat →
  ∃ b, int2 chunk = Ok (byte_to_Z b) ∧ format_08b (byte_to_Z b) = chunk.
Proof.
  intros Hbin Hlen.
  assert (∃ n, int2 chunk = Ok n ∧ 0 ≤ n ≤ 255 ∧ format_08b n = chunk)
    as (n & Hint & Hn & Hfmt).
  { do 9 (destruct chunk as [|? chunk]; try discriminate Hlen).
    unfold binary in Hbin. rewrite !Forall_cons in Hbin.
    destruct Hbin as ([->| ->] & [->| ->] & [->| ->] & [->| ->]
                      & [->| ->] & [->| ->] & [->| ->] & [->| ->] & _);
      (eexists; split; [reflexivity|split; [by vm_compute|reflexivity]]). }
  destruct (byte_of_Z_in_range n Hn) as (b & _ & <-). eauto.
Qed.

Lemma _bytes_to_binary_cons b data :
  _bytes_to_binary (b :: data) = format_08b (byte_to_Z b) ++ _bytes_to_binary data.
Proof.
  unfold _bytes_to_binary. simpl. generalize (format_08b (byte_to_Z b)).
  induction data as [|b' data IH] using rev_ind; intros s.
  - simpl. by rewrite app_nil_r.
  - by rewrite !foldl_snoc, IH, app_assoc.
Qed.

(** *** Packing the padded text *)

Lemma pack_loop_shift chunk rest indices byte_array :
  length chunk = 8%nat →
  pack_loop (chunk ++ rest) ((λ i, i + 8)%nat <$> indices) byte_array
  = pack_loop rest indices byte_array.
Proof.
  intros Hlen. revert byte_array.
  induction indices as [|i indices IH]; intros byte_array; [done|].
  cbn [fmap list_fmap pack_loop]. unfold slice.
  replace (i + 8 + 8 - (i + 8))%nat with (i + 8 - i)%nat by lia.
  replace (i + 8)%nat with (length chunk + i)%nat at 2 by lia.
  rewrite drop_app_add.
  destruct (int2 (take (i + 8 - i) (drop i rest))) as [n|]; [|done].
  cbn [mbind result_bind]. destruct (byte_of_Z n); [|done].
  cbn [mbind result_bind]. apply IH.
Qed.

Lemma pack_loop_spec k text :
  binary text → length text = (8 * k)%nat →
  ∃ packed, _bytes_to_binary packed = text
    ∧ ∀ byte_array,
        pack_loop text (range_step (length text) 8) byte_array
        = Ok (byte_array ++ packed).
Proof.
  revert text. induction k as [|k IH]; intros text Hbin Hlen.
  - destruct text; [|done]. exists []. split; [done|].
    intros byte_array. by rewrite app_nil_r.
  - rewrite <- (take_drop 8 text) in Hbin |- *.
    apply Forall_app in Hbin as [Hbin1 Hbin2].
    assert (length (take 8 text) = 8%nat) as Hlen1 by (rewrite length_take; lia).
    assert (length (drop 8 text) = (8 * k)%nat) as Hlen2 by (rewrite length_drop; lia).
    destruct (int2_chunk _ Hbin1 Hlen1) as (b & Hint & Hfmt).
    destruct (IH _ Hbin2 Hlen2) as (packed & Hpacked & Hloop).
    exists (b :: packed). split.
    + by rewrite _bytes_to_binary_cons, Hfmt, Hpacked.
    + intros byte_array. rewrite length_app, Hlen1, (Nat.add_comm 8).
      rewrite range_step_S by lia. cbn [pack_loop]. unfold slice at 1.
      rewrite drop_0. replace (0 + 8 - 0)%nat with (length (take 8 text)) by lia.
      rewrite take_app_length, Hint. cbn [mbind result_bind].
      rewrite byte_of_to_Z. cbn [mbind result_bind].
      rewrite pack_loop_shift, Hloop by done. by rewrite <- app_assoc.
Qed.

(** *** Padding *)

Lemma _pad_encoded_text_spec encoded_text :
  ∃ padding,
    0 ≤ padding ≤ 7
    ∧ _pad_encoded_text encoded_text
      = format_08b padding ++ encoded_text ++ replicate (Z.to_nat padding) "0"%char
    ∧ (Z.of_nat (length encoded_text) + padding) `mod` 8 = 0
    ∧ ∃ k, length (_pad_encoded_text encoded_text) = (8 * k)%nat.
Proof.
  unfold _pad_encoded_text.
  set (len := Z.of_nat (length encoded_text)).
  pose proof (Z.mod_pos_bound len 8 ltac:(lia)) as Hmod.
  pose proof (Z.div_mod len 8 ltac:(lia)) as Hdiv.
  exists (if decide (8 - len `mod` 8 = 8) then 0 else 8 - len `mod` 8).
  split; [case_decide; lia|]. split; [reflexivity|].
  split.
  { fold len. case_decide as Hc.
    - rewrite Z.add_0_r. lia.
    - replace (len + (8 - len `mod` 8)) with (len `mod` 8 + (8 - len `mod` 8) + len `div` 8 * 8) by lia.
      rewrite Z.mod_add by lia. replace (len `mod` 8 + (8 - len `mod` 8)) with 8 by lia. done. }
  destruct (format_08b_range (if decide (8 - len `mod` 8 = 8) then 0 else 8 - len `mod` 8))
    as [Hl _]; [case_decide; lia|].
  rewrite !length_app, Hl, length_replicate.
  exists (Z.to_nat (1 + len `div` 8 + (if decide (8 - len `mod` 8 = 8) then 0 else 1))).
  subst len. case_decide; lia.
Qed.

(** *** Encoding the data *)

Lemma _get_encoded_text_spec codes data encoded_text :
  (∀ b, b ∈ data → is_Some (codes !! b)) →
  _get_encoded_text codes data encoded_text
  = Ok (encoded_text ++ (data ≫= λ b, default [] (codes !! b))).
Proof.
  revert encoded_text. induction data as [|b data IH]; intros encoded_text Hcodes.
  - simpl. by rewrite app_nil_r.
  - cbn [_get_encoded_text]. destruct (Hcodes b) as [code Hcode]; [by left|].
    rewrite Hcode. cbn [of_option mbind result_bind].
    rewrite IH by (intros; apply Hcodes; by right).
    simpl. by rewrite Hcode, app_assoc.
Qed.

End huffman_bits_facts.

Section huffman_codec_facts.
Import Huffman.

(** *** [compress] on a fresh instance *)

Lemma foldl_store_code_lookup pairs tables :
  (∀ c code, (foldl store_code tables pairs).1 !! c = Some code →
     (code, c) ∈ pairs ∨ tables.1 !! c = Some code)
  ∧ (∀ code c, (foldl store_code tables pairs).2 !! code = Some c →
       (code, c) ∈ pairs ∨ tables.2 !! code = Some c).
Proof.
  revert tables. induction pairs as [|[code' c'] pairs IH]; intros tables; simpl.
  - split; auto.
  - destruct (IH (store_code tables (code', c'))) as [IH1 IH2].
    unfold store_code in IH1 at 2, IH2 at 2. simpl in IH1, IH2. split.
    + intros c code [?|[[<- <-]|[_ ?]]%lookup_insert_Some]%IH1;
        rewrite ?elem_of_cons; auto.
    + intros code c [?|[[<- <-]|[_ ?]]%lookup_insert_Some]%IH2;
        rewrite ?elem_of_cons; auto.
Qed.

Lemma binary_bind {B} (f : B → str) (l : list B) :
  (∀ x, x ∈ l → binary (f x)) → binary (l ≫= f).
Proof.
  induction l as [|x l IH]; intros Hf; simpl; [constructor|].
  apply binary_app; [apply Hf; by left|]. apply IH. intros; apply Hf; by right.
Qed.

(** [compress] on a fresh instance and data that is not empty: it returns;
    the tables are those of a well-formed tree over the symbols of the
    data; the bytes, read back as bits, are the padding descriptor, the
    codes of the data and the padding. *)
Lemma compress_fresh_spec data :
  data ≠ [] →
  ∃ root packed padding,
    let tables := foldl store_code (∅, ∅) (code_pairs root []) in
    let encoded_text := data ≫= λ b, default [] (tables.1 !! b) in
    compress init data
    = Ok ((packed, tables.2), mkHuffmanCoding [] tables.1 tables.2)
    ∧ wf_node root
    ∧ symbols root ≡ₚ (Counter data).*1
    ∧ 0 ≤ padding ≤ 7
    ∧ (Z.of_nat (length encoded_text) + padding) `mod` 8 = 0
    ∧ _bytes_to_binary packed
      = format_08b padding ++ encoded_text ++ replicate (Z.to_nat padding) "0"%char.
Proof.
  intros Hne.
  destruct (build_tree_spec data Hne) as (root & Hbuild & Hwf & Hsym).
  apply bind_Ok in Hbuild as (heap1 & Hheap1 & (heap2 & Hheap2 & Hpop)%bind_Ok).
  set (tables := foldl store_code (∅, ∅) (code_pairs root [])).
  set (encoded_text := data ≫= λ b, default [] (tables.1 !! b)).
  assert (_get_encoded_text tables.1 data [] = Ok encoded_text) as Henc.
  { rewrite _get_encoded_text_spec; [done|].
    intros b Hb. apply foldl_store_code_symbols. left.
    rewrite symbols_code_pairs, Hsym. by apply Counter_keys. }
  assert (binary encoded_text) as Hbin.
  { apply binary_bind. intros b _.
    destruct (tables.1 !! b) as [code|] eqn:Hcode; [|constructor]. simpl.
    apply (foldl_store_code_lookup (code_pairs root [])) in Hcode as [Hcode|Hcode];
      [|simpl in Hcode; by rewrite lookup_empty in Hcode].
    destruct (prefix_code_wf root Hwf) as (_ & _ & Hb).
    rewrite Forall_forall in Hb. apply Hb.
    apply list_elem_of_fmap. by exists (code, b). }
  destruct (_pad_encoded_text_spec encoded_text)
    as (padding & Hpad & Hpadded & Hmod & k & Hk).
  destruct (pack_loop_spec k (_pad_encoded_text encoded_text)) as (packed & Hpacked & Hpack).
  { rewrite Hpadded. apply binary_app; [apply binary_format_08b; lia|].
    apply binary_app; [done|apply binary_zeros]. }
  { done. }
  exists root, packed, padding. cbv zeta. fold tables. fold encoded_text.
  split_and!; [|done|done|lia|lia|done|by rewrite Hpacked].
  unfold compress. destruct data as [|b data]; [done|].
  cbn [heap init codes reverse_mapping]. rewrite Hheap1. cbn [mbind result_bind].
  rewrite Hheap2. cbn [mbind result_bind]. rewrite Hpop. cbn [mbind result_bind].
  cbn [_make_codes]. rewrite make_codes_node_pairs. fold tables.
  rewrite Henc. cbn [mbind result_bind]. rewrite Hpack. reflexivity.
Qed.

(** *** [decompress] *)

Lemma decompress_spec packed reverse_mapping padding encoded_text :
  0 ≤ padding ≤ 7 →
  _bytes_to_binary packed
  = format_08b padding ++ encoded_text ++ replicate (Z.to_nat padding) "0"%char →
  decompress (packed, reverse_mapping)
  = Ok (_decode_text encoded_text reverse_mapping).
Proof.
  intros Hpad Hbits. destruct (format_08b_range padding) as [Hlen Hint]; [lia|].
  unfold decompress. destruct packed as [|b packed].
  { apply (f_equal length) in Hbits. rewrite length_app, Hlen in Hbits. done. }
  rewrite Hbits. unfold _remove_padding.
  symmetry in Hlen.
  rewrite (take_app_length' _ _ 8 Hlen), !(drop_app_length' _ _ 8 Hlen), Hint.
  cbn [mbind result_bind].
  do 2 f_equal. case_decide.
  - rewrite length_app, length_replicate.
    replace (length encoded_text + Z.to_nat padding - Z.to_nat padding)%nat
      with (length encoded_text) by lia.
    apply take_app_length.
  - replace padding with 0 by lia. apply app_nil_r.
Qed.

End huffman_codec_facts.

(** C6. On every input, the table that [HuffmanCoding.compress] emits on a
    fresh instance has no code that is a prefix of another. *)
Theorem huffman_table_prefix_free (s : bytes) :
  ∃ packed table self',
    Huffman.compress Huffman.init s = Ok ((packed, table), self')
    ∧ prefix_free table.
Proof.
  destruct s as [|b s].
  { exists [], ∅, Huffman.init. split; [done|].
    intros c1 c2 [? H]. by rewrite lookup_empty in H. }
  destruct (compress_fresh_spec (b :: s)) as (root & packed & padding & Hc & Hwf & _);
    [done|].
  eexists _, _, _. split; [exact Hc|].
  destruct (prefix_code_wf root Hwf) as (_ & Hpre & _).
  intros c1 c2 H1 H2 Hne Hprefix. apply Hne, Hpre; [| |done].
  - apply foldl_store_code_keys in H1 as [?|[? H1]]; [done|].
    simpl in H1. by rewrite lookup_empty in H1.
  - apply foldl_store_code_keys in H2 as [?|[? H2]]; [done|].
    simpl in H2. by rewrite lookup_empty in H2.
Qed.

Section huffman_roundtrip_facts.
Import Huffman.

(** *** Decoding *)

Lemma wf_node_symbols_ne root : wf_node root → symbols root ≠ [].
Proof.
  induction 1 as [c f|f l r _ IHl _ IHr]; [done|].
  rewrite symbols_merged. by destruct (symbols l).
Qed.

(** A tree with a single symbol is a node made from that symbol. *)
Lemma wf_node_single root b :
  wf_node root → symbols root = [b] → code_pairs root [] = [([], b)].
Proof.
  intros [c f|f l r Hl Hr].
  - by intros [= ->].
  - rewrite symbols_merged. intros Hs.
    apply wf_node_symbols_ne in Hl, Hr.
    apply (f_equal length) in Hs. rewrite length_app in Hs.
    destruct (symbols l), (symbols r); simpl in Hs; try done; lia.
Qed.

(** In a tree with two symbols or more, no code is empty. *)
Lemma wf_node_codes_ne root code b :
  wf_node root → (1 < length (symbols root))%nat →
  (code, b) ∈ code_pairs root [] → code ≠ [].
Proof.
  intros [c f|f l r Hl Hr] Hlen; [simpl in Hlen; lia|].
  cbn [code_pairs char left right]. rewrite app_nil_l, elem_of_app.
  rewrite (code_pairs_prefix l), (code_pairs_prefix r).
  intros [([s c] & [= -> ->] & _)%list_elem_of_fmap
         |([s c] & [= -> ->] & _)%list_elem_of_fmap]; done.
Qed.

Lemma NoDup_fst_functional {K V} (l : list (K * V)) x y1 y2 :
  NoDup l.*1 → (x, y1) ∈ l → (x, y2) ∈ l → y1 = y2.
Proof.
  induction l as [|[x' y'] l IH]; simpl; intros Hnd H1 H2.
  - by apply elem_of_nil in H1.
  - apply NoDup_cons in Hnd as [Hx Hnd].
    apply elem_of_cons in H1 as [[= -> ->]|H1], H2 as [[= ->]|H2]; try done.
    + destruct Hx. apply list_elem_of_fmap. by exists (x', y2).
    + simplify_eq. destruct Hx. apply list_elem_of_fmap. by exists (x', y1).
    + by apply IH.
Qed.

Lemma NoDup_snd_functional {K V} (l : list (K * V)) x1 x2 y :
  NoDup l.*2 → (x1, y) ∈ l → (x2, y) ∈ l → x1 = x2.
Proof.
  induction l as [|[x' y'] l IH]; simpl; intros Hnd H1 H2.
  - by apply elem_of_nil in H1.
  - apply NoDup_cons in Hnd as [Hy Hnd].
    apply elem_of_cons in H1 as [[= -> ->]|H1], H2 as [[= ->]|H2]; try done.
    + destruct Hy. apply list_elem_of_fmap. by exists (x2, y').
    + simplify_eq. destruct Hy. apply list_elem_of_fmap. by exists (x1, y').
    + by apply IH.
Qed.

(** The tables of a tree whose codes and symbols are pairwise distinct are
    the two directions of its list of pairs. *)
Lemma foldl_store_code_inverse pairs :
  NoDup pairs.*1 → NoDup pairs.*2 →
  let tables := foldl store_code (∅, ∅) pairs in
  ∀ code c, (code, c) ∈ pairs →
    tables.1 !! c = Some code ∧ tables.2 !! code = Some c.
Proof.
  intros Hnd1 Hnd2 tables code c Hin.
  assert (is_Some (tables.1 !! c)) as [code' Hc].
  { apply foldl_store_code_symbols. left. apply list_elem_of_fmap. by exists (code, c). }
  assert (is_Some (tables.2 !! code)) as [c' Hcode].
  { apply foldl_store_code_keys. left. apply list_elem_of_fmap. by exists (code, c). }
  rewrite Hc, Hcode.
  apply (foldl_store_code_lookup pairs) in Hc as [Hc|Hc];
    [|simpl in Hc; by rewrite lookup_empty in Hc].
  apply (foldl_store_code_lookup pairs) in Hcode as [Hcode|Hcode];
    [|simpl in Hcode; by rewrite lookup_empty in Hcode].
  split; f_equal.
  - by eapply NoDup_snd_functional.
  - by eapply NoDup_fst_functional.
Qed.

(** Reading, bit by bit, a code none of whose proper prefixes is in the
    table emits its symbol when its last bit is read. *)
Lemma decode_loop_code reverse_mapping pre suf rest decoded_text c :
  suf ≠ [] →
  reverse_mapping !! (pre ++ suf) = Some c →
  (∀ q, is_Some (reverse_mapping !! q) → q `prefix_of` pre ++ suf → q = pre ++ suf) →
  decode_loop reverse_mapping (suf ++ rest) pre decoded_text
  = decode_loop reverse_mapping rest [] (decoded_text ++ [c]).
Proof.
  revert pre. induction suf as [|bit suf IH]; intros pre Hne Hcode Hpre; [done|].
  cbn [app decode_loop]. destruct suf as [|bit' suf].
  - rewrite Hcode. done.
  - destruct (reverse_mapping !! (pre ++ [bit])) as [c'|] eqn:Hq.
    + exfalso. assert (pre ++ [bit] = pre ++ bit :: bit' :: suf) as Heq.
      { apply Hpre; [by eexists|]. exists (bit' :: suf). by rewrite <- app_assoc. }
      apply app_inv_head in Heq. done.
    + apply IH; [done|by rewrite <- app_assoc..].
Qed.

Lemma decode_loop_data reverse_mapping (codes : gmap byte str) data decoded_text :
  (∀ b, b ∈ data → ∃ code,
     codes !! b = Some code ∧ code ≠ [] ∧ reverse_mapping !! code = Some b
     ∧ ∀ q, is_Some (reverse_mapping !! q) → q `prefix_of` code → q = code) →
  decode_loop reverse_mapping (data ≫= λ b, default [] (codes !! b)) [] decoded_text
  = decoded_text ++ data.
Proof.
  revert decoded_text. induction data as [|b data IH]; intros decoded_text Hcodes.
  - simpl. by rewrite app_nil_r.
  - destruct (Hcodes b) as (code & Hcode & Hne & Hrev & Hpre); [by left|].
    simpl. rewrite Hcode. simpl.
    rewrite (decode_loop_code _ [] code _ _ b) by done.
    rewrite IH, <- app_assoc; [done|]. intros; apply Hcodes; by right.
Qed.

End huffman_roundtrip_facts.

(** Round trip of Huffman coding on inputs with two distinct symbols or
    more: [compress] on a fresh instance returns, and [decompress] returns
    the input. *)
Theorem huffman_roundtrip_two_symbols (s : bytes) (a b : byte) :
  a ∈ s → b ∈ s → a ≠ b →
  ∃ payload self',
    Huffman.compress Huffman.init s = Ok (payload, self')
    ∧ Huffman.decompress payload = Ok s.
Proof.
  intros Ha Hb Hab.
  destruct (compress_fresh_spec s) as (root & packed & padding & Hspec);
    [by intros ->; apply elem_of_nil in Ha|].
  cbv zeta in Hspec. destruct Hspec as (Hc & Hwf & Hsym & Hpad & _ & Hbits).
  eexists _, _. split; [exact Hc|].
  rewrite (decompress_spec _ _ _ _ Hpad Hbits). f_equal.
  unfold Huffman._decode_text.
  destruct (prefix_code_wf root Hwf) as (Hnd1 & Hpre & _).
  assert (NoDup (code_pairs root []).*2) as Hnd2.
  { rewrite symbols_code_pairs, Hsym. apply Counter_NoDup. }
  assert (1 < length (symbols root))%nat as Hlen.
  { rewrite Hsym. assert (a ∈ (Huffman.Counter s).*1) as Ha' by by apply Counter_keys.
    assert (b ∈ (Huffman.Counter s).*1) as Hb' by by apply Counter_keys.
    destruct (Huffman.Counter s).*1 as [|x [|y l]]; simpl; [|exfalso|lia].
    - by apply elem_of_nil in Ha'.
    - apply list_elem_of_singleton in Ha', Hb'. congruence. }
  rewrite decode_loop_data; [done|].
  intros c Hc'.
  assert (c ∈ (code_pairs root []).*2) as ([code c'] & -> & Hin)%list_elem_of_fmap.
  { rewrite symbols_code_pairs, Hsym. by apply Counter_keys. }
  simpl. destruct (foldl_store_code_inverse _ Hnd1 Hnd2 code c' Hin) as [H1 H2].
  exists code. split_and!; [done| |done|].
  - by eapply wf_node_codes_ne.
  - intros q Hq Hprefix. apply Hpre; [| |done].
    + apply foldl_store_code_keys in Hq as [?|[? Hq]]; [done|].
      simpl in Hq. by rewrite lookup_empty in Hq.
    + apply list_elem_of_fmap. by exists (code, c').
Qed.

(** C1, where the code departs from it: on an input made of a single symbol
    repeated, [compress] on a fresh instance returns, and [decompress]
    returns the empty sequence, not the input. The only code is the empty
    string, so the bit stream is empty and nothing is decoded. *)
Theorem huffman_single_symbol_lost (b : byte) (n : nat) :
  ∃ payload self',
    Huffman.compress Huffman.init (replicate (S n) b) = Ok (payload, self')
    ∧ Huffman.decompress payload = Ok []
    ∧ replicate (S n) b ≠ [].
Proof.
  destruct (compress_fresh_spec (replicate (S n) b)) as (root & packed & padding & Hspec);
    [done|].
  cbv zeta in Hspec. destruct Hspec as (Hc & Hwf & Hsym & Hpad & Hmod & Hbits).
  eexists _, _. split; [exact Hc|]. split; [|done].
  assert ((Huffman.Counter (replicate (S n) b)).*1 = [b]) as Hkeys.
  { pose proof (Counter_NoDup (replicate (S n) b)) as Hnd.
    assert (∀ x, x ∈ (Huffman.Counter (replicate (S n) b)).*1 ↔ x = b) as Hin.
    { intros x. rewrite Counter_keys, elem_of_replicate. split; [tauto|]. split; [done|lia]. }
    destruct (Huffman.Counter (replicate (S n) b)).*1 as [|x [|y l]].
    - pose proof (proj2 (Hin b) eq_refl) as Hb. by apply elem_of_nil in Hb.
    - f_equal. apply Hin. by left.
    - apply NoDup_cons in Hnd as [Hx _]. destruct Hx.
      rewrite (proj1 (Hin x)), <- (proj1 (Hin y)) by (rewrite !elem_of_cons; auto).
      by left. }
  rewrite Hkeys in Hsym. apply Permutation_singleton_r in Hsym.
  rewrite (wf_node_single root b Hwf Hsym) in Hbits, Hmod.
  assert (∀ m, (replicate m b ≫= λ b0,
            default [] ((foldl store_code (∅, ∅) [([], b)]).1 !! b0)) = []) as Henc.
  { intros m. induction m as [|m IH]; [done|].
    cbn [replicate]. rewrite bind_cons, IH. simpl. by rewrite lookup_insert_eq. }
  rewrite Henc in Hbits, Hmod. simpl in Hmod.
  rewrite (decompress_spec _ _ _ _ Hpad Hbits). done.
Qed.

(** C9. A second [compress] on the same instance ships entries of the
    first: after [compress(b"AB")], [compress(b"ABC")] ships a table that
    still maps the code [1] to [B], though the code of [B] is now [11], and
    [decompress] of what it returns is [b"BCBBC"], not [b"ABC"]. *)
Theorem huffman_reuse_breaks_roundtrip :
  ∃ (s1 s2 out : bytes) (code : str) (c : byte),
    ('(_, self) ← Huffman.compress Huffman.init s1;
     Ok (Huffman.reverse_mapping self !! code)) = Ok (Some c)
    ∧ ('(_, self) ← Huffman.compress Huffman.init s1;
       '(payload, self') ← Huffman.compress self s2;
       Ok (payload.2 !! code, Huffman.codes self' !! c))
      = Ok (Some c, Some (code ++ code))
    ∧ ('(_, self) ← Huffman.compress Huffman.init s1;
       '(payload, _) ← Huffman.compress self s2;
       Huffman.decompress payload) = Ok out
    ∧ out ≠ s2.
Proof.
  exists ["A"%byte; "B"%byte], ["A"%byte; "B"%byte; "C"%byte],
         ["B"%byte; "C"%byte; "B"%byte; "B"%byte; "C"%byte],
         ["1"%char], "B"%byte.
  split_and!; [vm_compute; reflexivity..|discriminate].
Qed.

(** ** LZW: which code lists the decoder accepts, and what it makes of them *)

Section lzw_decoder_facts.
Import LZW.

(** A step raises the bad-code error on any code that is neither a key nor
    the next free key. *)
Lemma decompress_step_rejects st k :
  dec_inv st → ¬ (0 ≤ k ≤ d_dict_size st) →
  decompress_step st k = Raise (ValueError (BadCompressedK k)).
Proof.
  intros [Hkeys _ _ _ _ Hge] Hk. unfold decompress_step.
  destruct (d_dictionary st !! k) as [entry|] eqn:E.
  - assert (0 ≤ k < d_dict_size st) by (apply Hkeys; eauto). lia.
  - rewrite decide_False by lia. done.
Qed.

Lemma decompress_step_Ok_range st k st' :
  dec_inv st → decompress_step st k = Ok st' → 0 ≤ k ≤ d_dict_size st.
Proof.
  intros Hinv Hstep.
  destruct (decide (0 ≤ k ≤ d_dict_size st)) as [|Hk]; [done|].
  by rewrite (decompress_step_rejects st k Hinv Hk) in Hstep.
Qed.

Lemma decompress_loop_Ok_range rest st st' :
  dec_inv st → decompress_loop rest st = Ok st' →
  ∀ i c, rest !! i = Some c → 0 ≤ c ≤ d_dict_size st + Z.of_nat i.
Proof.
  revert st. induction rest as [|k rest IH]; intros st Hinv Hloop i c Hc.
  { by rewrite lookup_nil in Hc. }
  cbn [decompress_loop] in Hloop. apply bind_Ok in Hloop as (st1 & Hstep & Hloop).
  destruct (dec_inv_step _ _ _ Hinv Hstep) as [Hinv1 Hsz1].
  destruct i as [|i]; simpl in Hc.
  - injection Hc as <-. pose proof (decompress_step_Ok_range _ _ _ Hinv Hstep). lia.
  - pose proof (IH st1 Hinv1 Hloop i c Hc). lia.
Qed.

(** Each step appends at least one byte to the output. *)
Lemma decompress_loop_length rest st st' :
  decompress_loop rest st = Ok st' →
  (length (d_result st) + length rest ≤ length (d_result st'))%nat.
Proof.
  revert st. induction rest as [|k rest IH]; intros st Hloop; cbn [decompress_loop] in Hloop.
  { injection Hloop as <-. simpl. lia. }
  apply bind_Ok in Hloop as (st1 & Hstep & Hloop).
  apply IH in Hloop.
  apply decompress_step_Ok in Hstep as (entry & entry0 & _ & H0 & ->).
  cbn [d_result] in Hloop. rewrite length_app in Hloop.
  apply lookup_lt_Some in H0. simpl. lia.
Qed.

End lzw_decoder_facts.

(** [LZW.decompress] returns exactly on the code lists whose code at every
    index [i] lies in [0 .. 255 + i]: the first code is a byte, and each
    later code is a key of the dictionary or its next free key. *)
Theorem lzw_decompress_accepts_iff (compressed : list Z) :
  (∃ out, LZW.decompress compressed = Ok out)
  ↔ ∀ i c, compressed !! i = Some c → 0 ≤ c < 256 + Z.of_nat i.
Proof.
  split; [|apply decompress_accepts].
  intros [out Hd] i c Hc. unfold LZW.decompress in Hd.
  apply bind_Ok in Hd as (ost & Hrun & _).
  destruct compressed as [|k0 rest]; [by rewrite lookup_nil in Hc|].
  cbn [LZW.decompress_run] in Hrun.
  apply bind_Ok in Hrun as (st0 & Hstart & (st & Hloop & _)%bind_Ok).
  destruct (dec_inv_start _ _ Hstart) as [Hinv0 Hsz0].
  destruct i as [|i]; simpl in Hc.
  - injection Hc as <-. unfold LZW.decompress_start in Hstart.
    apply bind_Ok in Hstart as (w & Hw & _).
    destruct (LZW.decompress_dictionary !! k0) as [w'|] eqn:E; [|done].
    assert (0 ≤ k0 < 256) by (apply decompress_dictionary_is_Some; eauto). lia.
  - pose proof (decompress_loop_Ok_range _ _ _ Hinv0 Hloop i c Hc). lia.
Qed.

(** A first code outside [0 .. 255] makes [LZW.decompress] raise [KeyError]:
    it is looked up in the initial dictionary without a check. *)
Theorem lzw_decompress_first_code_KeyError (k0 : Z) (rest : list Z) :
  ¬ (0 ≤ k0 < 256) → LZW.decompress (k0 :: rest) = Raise KeyError.
Proof.
  intros Hk. unfold LZW.decompress, LZW.decompress_run, LZW.decompress_start.
  destruct (LZW.decompress_dictionary !! k0) as [w|] eqn:E; [|done].
  assert (0 ≤ k0 < 256) by (apply decompress_dictionary_is_Some; eauto). lia.
Qed.

Lemma lzw_decompress_first_code_KeyError_witness :
  LZW.decompress (256 :: [65]) = Raise KeyError.
Proof. apply (lzw_decompress_first_code_KeyError 256 [65]). lia. Defined.

(** After a non-empty run of acceptable codes, the first code that is
    negative or above the next free key makes [LZW.decompress] raise
    [ValueError("Bad compressed k: ...")] with that code, whatever follows. *)
Theorem lzw_decompress_bad_code_ValueError (good : list Z) (k : Z) (rest : list Z) :
  good ≠ [] →
  (∀ i c, good !! i = Some c → 0 ≤ c < 256 + Z.of_nat i) →
  ¬ (0 ≤ k < 256 + Z.of_nat (length good)) →
  LZW.decompress (good ++ k :: rest) = Raise (ValueError (BadCompressedK k)).
Proof.
  intros Hne Hgood Hk.
  destruct (decompress_accepts good Hgood) as [out Hout].
  unfold LZW.decompress in Hout |- *.
  apply bind_Ok in Hout as (ost & Hrun & _).
  destruct good as [|k0 good]; [done|].
  cbn [LZW.decompress_run app] in Hrun |- *.
  apply bind_Ok in Hrun as (st0 & Hstart & (st & Hloop & _)%bind_Ok).
  rewrite Hstart. cbn [mbind result_bind].
  rewrite decompress_loop_app, Hloop. cbn [mbind result_bind LZW.decompress_loop].
  destruct (dec_inv_start _ _ Hstart) as [Hinv0 Hsz0].
  destruct (decompress_loop_inv _ _ _ Hinv0 Hloop) as [Hinv Hsz].
  rewrite decompress_step_rejects; [done..|].
  simpl length in Hk. lia.
Qed.

Lemma lzw_decompress_bad_code_ValueError_witness :
  LZW.decompress ([65; 66] ++ 258 :: [67]) = Raise (ValueError (BadCompressedK 258)).
Proof.
  apply (lzw_decompress_bad_code_ValueError [65; 66] 258 [67]).
  - discriminate.
  - intros [|[|i]] c [=]; subst; simpl; lia.
  - simpl. lia.
Defined.

(** Every code decodes to at least one byte: an accepted code list is never
    longer than the output. *)
Theorem lzw_decompress_output_length (compressed : list Z) (out : bytes) :
  LZW.decompress compressed = Ok out → (length compressed ≤ length out)%nat.
Proof.
  unfold LZW.decompress. intros (ost & Hrun & [= <-])%bind_Ok.
  destruct compressed as [|k0 rest]; [simpl; lia|].
  cbn [LZW.decompress_run] in Hrun.
  apply bind_Ok in Hrun as (st0 & Hstart & (st & Hloop & [= <-])%bind_Ok).
  apply decompress_loop_length in Hloop.
  unfold LZW.decompress_start in Hstart. apply bind_Ok in Hstart as (w & Hw & [= <-]).
  destruct (LZW.decompress_dictionary !! k0) as [w'|] eqn:E; [|done].
  injection Hw as ->. apply decompress_dictionary_lookup in E as (b & -> & _).
  simpl in *. lia.
Qed.

Lemma lzw_decompress_output_length_witness :
  (length [65; 256; 257] ≤ length (replicate 6 "A"%byte))%nat.
Proof.
  apply (lzw_decompress_output_length [65; 256; 257] (replicate 6 "A"%byte)).
  vm_compute. reflexivity.
Defined.

Section lzw_encoder_facts.
Import LZW.

Lemma compress_loop_length rest st st' :
  compress_loop rest st = Ok st' →
  (length (c_result st') ≤ length (c_result st) + length rest)%nat
  ∧ (c_w st ≠ [] → c_w st' ≠ []).
Proof.
  revert st. induction rest as [|c rest IH]; intros st Hloop; cbn [compress_loop] in Hloop.
  { injection Hloop as <-. split; [simpl; lia|done]. }
  apply bind_Ok in Hloop as (st1 & Hstep & Hloop).
  apply IH in Hloop as [Hlen Hw]. unfold compress_step in Hstep.
  case_decide.
  - injection Hstep as <-. cbn [c_result c_w] in *. split; [simpl; lia|].
    intros _. apply Hw. by destruct (c_w st).
  - apply bind_Ok in Hstep as (code & _ & [= <-]).
    cbn [c_result c_w] in *. rewrite length_app in Hlen. split; [simpl in *; lia|].
    intros _. by apply Hw.
Qed.

End lzw_encoder_facts.

(** [LZW.compress] never emits more codes than the input has bytes, and it
    emits at least one code unless the input is empty. *)
Theorem lzw_compress_length (data : bytes) :
  ∃ compressed,
    LZW.compress data = Ok compressed
    ∧ (length compressed ≤ length data)%nat
    ∧ (data ≠ [] → compressed ≠ []).
Proof.
  destruct (lzw_compress_spec data) as (compressed & Hc & _ & _).
  exists compressed. split; [done|].
  destruct data as [|b rest]; [by injection Hc as <-|].
  unfold LZW.compress in Hc.
  apply bind_Ok in Hc as (st & Hloop & Hc).
  apply compress_loop_length in Hloop as [Hlen Hw].
  cbn [LZW.c_result LZW.c_w] in Hlen, Hw. specialize (Hw ltac:(done)).
  destruct (LZW.c_w st) as [|w0 w]; [done|].
  apply bind_Ok in Hc as (code & _ & [= <-]).
  rewrite length_app. simpl in *. split; [lia|]. intros _. by destruct (LZW.c_result st).
Qed.

Section rle_more_facts.
Import RLE.

Lemma rle_pairs_app l1 l2 :
  Nat.Even (length l1) → rle_pairs (l1 ++ l2) = rle_pairs l1 ++ rle_pairs l2.
Proof.
  induction l1 as [|x|count value l1 IH] using list_pair_ind; intros Hev.
  - done.
  - destruct Hev as [k Hk]. simpl in Hk. lia.
  - simpl. rewrite IH; [done|].
    destruct Hev as [k Hk]. exists (k - 1)%nat. simpl in Hk. lia.
Qed.

Lemma decode_pairs_rle_pairs l :
  decode_pairs l = rle_pairs l ≫= λ p, replicate (Z.to_nat (byte_to_Z p.1)) p.2.
Proof.
  induction l as [|x|count value l IH] using list_pair_ind; [done..|].
  simpl. by rewrite IH.
Qed.

(** The loop over the bytes of a run that still fits in the count. *)
Lemma compress_loop_run m rest compressed count current :
  count + Z.of_nat m ≤ 255 →
  compress_loop (replicate m current ++ rest) compressed count current
  = compress_loop rest compressed (count + Z.of_nat m) current.
Proof.
  revert count. induction m as [|m IH]; intros count Hc.
  - simpl. by rewrite Z.add_0_r.
  - cbn [replicate app compress_loop]. rewrite decide_True by (split; [done|lia]).
    rewrite IH by lia. f_equal. lia.
Qed.

(** What the loop keeps, besides the facts of [rle_compress_loop_spec]: the
    pairs emitted so far are canonical, and the last of them has another
    value than the pending run unless it counts 255. *)
Lemma compress_loop_canonical rest compressed count current compressed' count' current' :
  1 ≤ count ≤ 255 → rle_canonical compressed →
  (∀ p, last (rle_pairs compressed) = Some p →
     p.2 = current → byte_to_Z p.1 = 255) →
  compress_loop rest compressed count current = Ok (compressed', count', current') →
  1 ≤ count' ≤ 255 ∧ rle_canonical compressed'
  ∧ ∀ p, last (rle_pairs compressed') = Some p →
      p.2 = current' → byte_to_Z p.1 = 255.
Proof.
  revert compressed count current.
  induction rest as [|byte rest IH]; intros compressed count current Hc Hcan Hlast Hloop.
  - simpl in Hloop. by simplify_eq.
  - cbn [compress_loop] in Hloop. case_decide as Hcase.
    + destruct Hcase as [-> Hlt]. eapply IH; [| |done|done]; [lia|done].
    + destruct (rle_extend_pair_Ok compressed count current) as (c & Hext & Hcz); [lia|].
      rewrite Hext in Hloop. cbn [mbind result_bind] in Hloop.
      destruct Hcan as (Hev & Hpos & Hadj).
      assert (rle_pairs (compressed ++ [c; current])
              = rle_pairs compressed ++ [(c, current)]) as Hpairs
        by by rewrite rle_pairs_app.
      eapply IH; [| | |done]; [lia| |].
      * split_and!.
        -- rewrite length_app. destruct Hev as [k Hk]. exists (S k). simpl. lia.
        -- rewrite Hpairs. apply Forall_app. split; [done|].
           repeat constructor. simpl. lia.
        -- rewrite Hpairs. intros i p q Hp Hq Hpq.
           destruct (decide (S i < length (rle_pairs compressed))%nat) as [Hi|Hi].
           ++ rewrite lookup_app_l in Hp, Hq by lia. by eapply Hadj.
           ++ rewrite lookup_app_r in Hq by lia.
              apply list_lookup_singleton_Some in Hq as [Hi' <-].
              rewrite lookup_app_l in Hp by lia.
              apply Hlast; [|done]. rewrite last_lookup. rewrite <- Hp. f_equal. lia.
      * rewrite Hpairs, last_snoc. intros p [= <-] Hp. simpl in *. subst byte.
        destruct (decide (count < 255)); [|lia]. destruct Hcase. done.
Qed.

End rle_more_facts.

(** The output of [RLE.compress] is canonical: an even number of bytes, no
    count of zero, and adjacent pairs share a value only where a run was
    split at 255. *)
Theorem rle_compress_canonical (s : bytes) :
  ∃ compressed, RLE.compress s = Ok compressed ∧ rle_canonical compressed.
Proof.
  destruct (rle_compress_spec s) as (compressed & Hc & Hev & _).
  exists compressed. split; [done|].
  destruct s as [|current rest].
  { injection Hc as <-. split_and!; [done|constructor|].
    by intros i p q ?. }
  unfold RLE.compress in Hc.
  apply bind_Ok in Hc as ([[compressed' count'] current'] & Hloop & Hext).
  eapply compress_loop_canonical in Hloop as (Hc' & (Hev' & Hpos & Hadj) & Hlast);
    [|lia| |].
  - destruct (rle_extend_pair_Ok compressed' count' current') as (c & Hext' & Hcz); [lia|].
    rewrite Hext' in Hext. injection Hext as <-.
    assert (rle_pairs (compressed' ++ [c; current'])
            = rle_pairs compressed' ++ [(c, current')]) as Hpairs
      by by rewrite rle_pairs_app.
    split_and!; [done| |]; rewrite Hpairs.
    + apply Forall_app. split; [done|]. repeat constructor. simpl. lia.
    + intros i p q Hp Hq Hpq.
      destruct (decide (S i < length (rle_pairs compressed'))%nat) as [Hi|Hi].
      * rewrite lookup_app_l in Hp, Hq by lia. by eapply Hadj.
      * rewrite lookup_app_r in Hq by lia.
        apply list_lookup_singleton_Some in Hq as [Hi' <-].
        rewrite lookup_app_l in Hp by lia.
        apply Hlast; [|done]. rewrite last_lookup. rewrite <- Hp. f_equal. lia.
  - split_and!; [by exists 0%nat|constructor|].
    by intros i p q ?.
  - intros p. simpl. done.
Qed.

Section rle_canonical_facts.
Import RLE.

Lemma rle_pairs_flatten l :
  Nat.Even (length l) → l = rle_pairs l ≫= λ p, [p.1; p.2].
Proof.
  induction l as [|x|count value l IH] using list_pair_ind; intros Hev.
  - done.
  - destruct Hev as [k Hk]. simpl in Hk. lia.
  - cbn [rle_pairs]. rewrite bind_cons. cbn [fst snd app]. do 2 f_equal.
    apply IH. destruct Hev as [k Hk]. exists (k - 1)%nat. simpl in Hk. lia.
Qed.

(** Encoding the bytes that a canonical list of pairs stands for gives the
    pairs back: the pending run [(count, v)] grows to the first pair, which
    is emitted when the next pair starts. *)
Lemma compress_loop_pairs ps acc c v m count :
  1 ≤ count → count + Z.of_nat m = byte_to_Z c →
  Forall (λ p, 1 ≤ byte_to_Z p.1) ps →
  (∀ i p q, ((c, v) :: ps) !! i = Some p → ((c, v) :: ps) !! S i = Some q →
     p.2 = q.2 → byte_to_Z p.1 = 255) →
  (r ← compress_loop
         (replicate m v ++ (ps ≫= λ p, replicate (Z.to_nat (byte_to_Z p.1)) p.2))
         acc count v;
   extend_pair r.1.1 r.1.2 r.2)
  = Ok (acc ++ (((c, v) :: ps) ≫= λ p, [p.1; p.2])).
Proof.
  revert acc c v m count.
  induction ps as [|[c2 v2] ps IH]; intros acc c v m count Hcount Hm Hpos Hadj.
  - rewrite compress_loop_run by (pose proof (byte_to_Z_range c); lia).
    rewrite Hm. cbn [mbind list_bind compress_loop result_bind fst snd].
    unfold extend_pair. by rewrite byte_of_to_Z.
  - rewrite compress_loop_run by (pose proof (byte_to_Z_range c); lia).
    rewrite Hm. apply Forall_cons in Hpos as [Hc2 Hpos]. simpl in Hc2.
    rewrite bind_cons. cbn [fst snd].
    destruct (Z.to_nat (byte_to_Z c2)) as [|m2] eqn:Em2; [lia|].
    cbn [replicate app compress_loop].
    rewrite decide_False; last first.
    { intros [-> Hlt]. specialize (Hadj 0%nat (c, v) (c2, v) eq_refl eq_refl eq_refl).
      simpl in Hadj. lia. }
    assert (extend_pair acc (byte_to_Z c) v = Ok (acc ++ [c; v])) as ->
      by (unfold extend_pair; by rewrite byte_of_to_Z).
    cbn [mbind result_bind].
    rewrite (IH (acc ++ [c; v]) c2 v2 m2 1); [|lia|lia|done|].
    + f_equal. rewrite (bind_cons _ (c, v)). cbn [fst snd]. by rewrite <- app_assoc.
    + intros i p q Hp Hq. apply (Hadj (S i) p q); done.
Qed.

Lemma compress_decode_pairs_canonical l :
  rle_canonical l → compress (decode_pairs l) = Ok l.
Proof.
  intros (Hev & Hpos & Hadj).
  rewrite decode_pairs_rle_pairs.
  rewrite (rle_pairs_flatten l Hev) at 2.
  destruct (rle_pairs l) as [|[c v] ps]; [done|].
  apply Forall_cons in Hpos as [Hc Hpos]. simpl in Hc.
  rewrite bind_cons. cbn [fst snd].
  destruct (Z.to_nat (byte_to_Z c)) as [|m] eqn:Em; [lia|].
  cbn [replicate app compress].
  pose proof (compress_loop_pairs ps [] c v m 1) as H.
  rewrite app_nil_l in H. rewrite <- H; [|lia|lia|done|done].
  destruct (compress_loop _ _ _ _) as [[[a n] x]|]; done.
Qed.

End rle_canonical_facts.

(** On a canonical payload, [RLE.compress] undoes [RLE.decompress]: the
    canonical payloads are exactly the outputs of [RLE.compress], each the
    only canonical payload of the bytes it stands for. *)
Theorem rle_compress_decompress (l : bytes) :
  rle_canonical l → RLE.compress (RLE.decompress l) = Ok l.
Proof.
  intros Hcan. rewrite rle_decompress_decode_pairs.
  by apply compress_decode_pairs_canonical.
Qed.

Lemma rle_compress_decompress_witness :
  RLE.compress (RLE.decompress ["255"%byte; "A"%byte; "002"%byte; "A"%byte; "001"%byte; "B"%byte])
  = Ok ["255"%byte; "A"%byte; "002"%byte; "A"%byte; "001"%byte; "B"%byte].
Proof.
  apply (rle_compress_decompress
           ["255"%byte; "A"%byte; "002"%byte; "A"%byte; "001"%byte; "B"%byte]).
  split_and!.
  - exists 3%nat. reflexivity.
  - repeat constructor; by vm_compute.
  - intros [|[|[|i]]] p q [= <-] [= <-]; simpl; intros; done.
Defined.

Section rle_run_facts.
Import RLE.

Lemma rle_pairs_full_runs q b tail :
  rle_pairs ((replicate q ["255"%byte; b] ≫= id) ++ tail)
  = replicate q ("255"%byte, b) ++ rle_pairs tail.
Proof.
  induction q as [|q IH]; [done|]. cbn [replicate]. rewrite bind_cons.
  simpl. by rewrite IH.
Qed.

Lemma decode_pairs_full_runs q b tail :
  decode_pairs ((replicate q ["255"%byte; b] ≫= id) ++ tail)
  = replicate (255 * q) b ++ decode_pairs tail.
Proof.
  induction q as [|q IH]; [done|]. cbn [replicate]. rewrite bind_cons.
  cbn [id app decode_pairs]. rewrite IH, app_assoc, <- replicate_add.
  do 2 f_equal. change (Z.to_nat (byte_to_Z "255")) with 255%nat. lia.
Qed.

End rle_run_facts.

(** A run of one byte is split at every 255th byte: [255 * q + r] copies of
    [b], with [r] in [1 .. 255], are encoded as [q] pairs [(255, b)]
    followed by the pair [(r, b)]. In particular a run of at most 255 bytes
    is one pair. *)
Theorem rle_compress_run (q r : nat) (b c : byte) :
  byte_to_Z c = Z.of_nat r → (1 ≤ r)%nat →
  RLE.compress (replicate (255 * q + r) b)
  = Ok ((replicate q ["255"%byte; b] ≫= id) ++ [c; b]).
Proof.
  intros Hc Hr.
  rewrite <- (compress_decode_pairs_canonical
                ((replicate q ["255"%byte; b] ≫= id) ++ [c; b])).
  - f_equal. rewrite decode_pairs_full_runs.
    simpl. rewrite app_nil_r, Hc, Nat2Z.id. by rewrite replicate_add.
  - split_and!.
    + rewrite length_app. simpl.
      assert (length (replicate q ["255"%byte; b] ≫= id) = (2 * q)%nat) as ->.
      { induction q as [|q' IH]; [done|]. cbn [replicate]. rewrite bind_cons.
        rewrite length_app, IH. simpl. lia. }
      exists (S q). lia.
    + rewrite rle_pairs_full_runs. apply Forall_app. split.
      * apply Forall_replicate. by vm_compute.
      * repeat constructor. simpl. lia.
    + rewrite rle_pairs_full_runs. cbn [rle_pairs].
      intros i p p' Hp Hp' _.
      apply lookup_lt_Some in Hp' as Hlt. rewrite length_app, length_replicate in Hlt.
      simpl in Hlt. rewrite lookup_app_l in Hp by (rewrite length_replicate; lia).
      apply lookup_replicate in Hp as [-> _]. reflexivity.
Qed.

Lemma rle_compress_run_witness :
  RLE.compress (replicate (255 * 1 + 45) "A"%byte)
  = Ok ((replicate 1 ["255"%byte; "A"%byte] ≫= id) ++ ["-"%byte; "A"%byte]).
Proof.
  apply (rle_compress_run 1 45 "A"%byte "-"%byte); [reflexivity|lia].
Defined.

(** [RLE.decompress] expands each pair to at most 255 bytes: its output is
    never longer than 255 times the number of pairs of its input. *)
Theorem rle_decompress_length_bound (compressed_data : bytes) :
  (length (RLE.decompress compressed_data) ≤ 255 * (length compressed_data / 2))%nat.
Proof.
  rewrite rle_decompress_decode_pairs.
  induction compressed_data as [|x|count value l IH] using list_pair_ind.
  - simpl. lia.
  - simpl. lia.
  - cbn [RLE.decode_pairs length]. rewrite length_app, length_replicate.
    replace (S (S (length l))) with (length l + 1 * 2)%nat by lia.
    rewrite Nat.div_add by lia. pose proof (byte_to_Z_range count). lia.
Qed.

(** [RLE.decompress] decodes pair by pair: after a prefix of even length,
    the rest is decoded on its own. *)
Theorem rle_decompress_app (l1 l2 : bytes) :
  Nat.Even (length l1) →
  RLE.decompress (l1 ++ l2) = RLE.decompress l1 ++ RLE.decompress l2.
Proof.
  intros Hev. rewrite !rle_decompress_decode_pairs. by apply decode_pairs_app.
Qed.

Lemma rle_decompress_app_witness :
  RLE.decompress (["002"%byte; "A"%byte] ++ ["001"%byte; "B"%byte])
  = RLE.decompress ["002"%byte; "A"%byte] ++ RLE.decompress ["001"%byte; "B"%byte].
Proof.
  apply (rle_decompress_app ["002"%byte; "A"%byte] ["001"%byte; "B"%byte]).
  exists 1%nat. reflexivity.
Defined.

Lemma huffman_roundtrip_two_symbols_witness :
  ∃ payload self',
    Huffman.compress Huffman.init ["A"%byte; "B"%byte; "A"%byte] = Ok (payload, self')
    ∧ Huffman.decompress payload = Ok ["A"%byte; "B"%byte; "A"%byte].
Proof.
  apply (huffman_roundtrip_two_symbols ["A"%byte; "B"%byte; "A"%byte] "A"%byte "B"%byte).
  - apply (bool_decide_unpack _). by vm_compute.
  - apply (bool_decide_unpack _). by vm_compute.
  - apply (bool_decide_unpack _). by vm_compute.
Defined.

Section huffman_more_facts.
Import Huffman.

Lemma _remove_padding_spec padding encoded_text :
  0 ≤ padding ≤ 7 →
  _remove_padding
    (format_08b padding ++ encoded_text ++ replicate (Z.to_nat padding) "0"%char)
  = Ok encoded_text.
Proof.
  intros Hpad. destruct (format_08b_range padding) as [Hlen Hint]; [lia|].
  unfold _remove_padding. symmetry in Hlen.
  rewrite (take_app_length' _ _ 8 Hlen), !(drop_app_length' _ _ 8 Hlen), Hint.
  cbn [mbind result_bind]. f_equal. case_decide.
  - rewrite length_app, length_replicate.
    replace (length encoded_text + Z.to_nat padding - Z.to_nat padding)%nat
      with (length encoded_text) by lia.
    apply take_app_length.
  - replace padding with 0 by lia. apply app_nil_r.
Qed.

Lemma length__bytes_to_binary data :
  length (_bytes_to_binary data) = (8 * length data)%nat.
Proof.
  induction data as [|b data IH]; [done|].
  rewrite _bytes_to_binary_cons, length_app, IH.
  destruct (format_08b_byte b) as [-> _]. simpl. lia.
Qed.

Lemma pack_loop__bytes_to_binary data byte_array :
  pack_loop (_bytes_to_binary data)
    (range_step (length (_bytes_to_binary data)) 8) byte_array
  = Ok (byte_array ++ data).
Proof.
  revert byte_array. induction data as [|b data IH]; intros byte_array.
  { simpl. by rewrite app_nil_r. }
  destruct (format_08b_byte b) as [Hlen Hint].
  rewrite _bytes_to_binary_cons, length_app, Hlen, (Nat.add_comm 8).
  rewrite range_step_S by lia. cbn [pack_loop]. unfold slice at 1.
  rewrite drop_0. replace (0 + 8 - 0)%nat with (length (format_08b (byte_to_Z b))) by lia.
  rewrite take_app_length, Hint. cbn [mbind result_bind].
  rewrite byte_of_to_Z. cbn [mbind result_bind].
  rewrite pack_loop_shift, IH by done. by rewrite <- app_assoc.
Qed.

Lemma decode_loop_length reverse_mapping encoded_text current_code decoded_text :
  (length (decode_loop reverse_mapping encoded_text current_code decoded_text)
   ≤ length decoded_text + length encoded_text)%nat.
Proof.
  revert current_code decoded_text.
  induction encoded_text as [|bit encoded_text IH]; intros current_code decoded_text.
  - simpl. lia.
  - cbn [decode_loop]. destruct (reverse_mapping !! (current_code ++ [bit])).
    + etrans; [apply IH|]. rewrite length_app. simpl. lia.
    + etrans; [apply IH|]. simpl. lia.
Qed.

(** A symbol of the tree gets its code from the tree, whatever the table
    held for it before. *)
Lemma foldl_store_code_lookup_symbol pairs tables c code :
  c ∈ pairs.*2 → (foldl store_code tables pairs).1 !! c = Some code →
  (code, c) ∈ pairs.
Proof.
  revert tables. induction pairs as [|[code' c'] pairs IH]; intros tables Hc Hcode.
  { by apply elem_of_nil in Hc. }
  simpl in Hcode.
  destruct (decide (c ∈ pairs.*2)) as [Hin|Hnin].
  - right. by eapply IH.
  - simpl in Hc. apply elem_of_cons in Hc as [->|Hc]; [|done].
    apply (foldl_store_code_lookup pairs) in Hcode as [Hcode|Hcode]; [by right|].
    unfold store_code in Hcode. simpl in Hcode.
    rewrite lookup_insert_eq in Hcode. injection Hcode as <-. by left.
Qed.

(** [compress] on an instance whose heap is empty, as [__init__] and every
    call that returned leave it: the generalisation of
    [compress_fresh_spec] to tables that are not empty. *)
Lemma compress_spec self data :
  heap self = [] → data ≠ [] →
  ∃ root packed padding,
    let tables := foldl store_code (codes self, reverse_mapping self)
                    (code_pairs root []) in
    let encoded_text := data ≫= λ b, default [] (tables.1 !! b) in
    compress self data
    = Ok ((packed, tables.2), mkHuffmanCoding [] tables.1 tables.2)
    ∧ wf_node root
    ∧ symbols root ≡ₚ (Counter data).*1
    ∧ 0 ≤ padding ≤ 7
    ∧ (Z.of_nat (length encoded_text) + padding) `mod` 8 = 0
    ∧ _bytes_to_binary packed
      = format_08b padding ++ encoded_text ++ replicate (Z.to_nat padding) "0"%char.
Proof.
  intros Hheap Hne.
  destruct (build_tree_spec data Hne) as (root & Hbuild & Hwf & Hsym).
  apply bind_Ok in Hbuild as (heap1 & Hheap1 & (heap2 & Hheap2 & Hpop)%bind_Ok).
  set (tables := foldl store_code (codes self, reverse_mapping self) (code_pairs root [])).
  set (encoded_text := data ≫= λ b, default [] (tables.1 !! b)).
  assert (∀ b, b ∈ data → b ∈ (code_pairs root []).*2) as Hsymbols.
  { intros b Hb. rewrite symbols_code_pairs, Hsym. by apply Counter_keys. }
  assert (_get_encoded_text tables.1 data [] = Ok encoded_text) as Henc.
  { rewrite _get_encoded_text_spec; [done|].
    intros b Hb. apply foldl_store_code_symbols. left. by apply Hsymbols. }
  assert (binary encoded_text) as Hbin.
  { apply binary_bind. intros b Hb.
    destruct (tables.1 !! b) as [code|] eqn:Hcode; [|constructor]. simpl.
    apply foldl_store_code_lookup_symbol in Hcode; [|by apply Hsymbols].
    destruct (prefix_code_wf root Hwf) as (_ & _ & Hbins).
    rewrite Forall_forall in Hbins. apply Hbins.
    apply list_elem_of_fmap. by exists (code, b). }
  destruct (_pad_encoded_text_spec encoded_text)
    as (padding & Hpad & Hpadded & Hmod & k & Hk).
  destruct (pack_loop_spec k (_pad_encoded_text encoded_text)) as (packed & Hpacked & Hpack).
  { rewrite Hpadded. apply binary_app; [apply binary_format_08b; lia|].
    apply binary_app; [done|apply binary_zeros]. }
  { done. }
  exists root, packed, padding. cbv zeta. fold tables. fold encoded_text.
  split_and!; [|done|done|lia|lia|done|by rewrite Hpacked].
  unfold compress. destruct data as [|b data]; [done|].
  rewrite Hheap, Hheap1. cbn [mbind result_bind].
  rewrite Hheap2. cbn [mbind result_bind]. rewrite Hpop. cbn [mbind result_bind].
  cbn [_make_codes]. rewrite make_codes_node_pairs. fold tables.
  rewrite Henc. cbn [mbind result_bind]. rewrite Hpack. reflexivity.
Qed.

End huffman_more_facts.

(** [_remove_padding] undoes [_pad_encoded_text] on every string. *)
Theorem huffman_remove_padding_pad (encoded_text : str) :
  Huffman._remove_padding (Huffman._pad_encoded_text encoded_text) = Ok encoded_text.
Proof.
  destruct (_pad_encoded_text_spec encoded_text) as (padding & Hpad & -> & _).
  by apply _remove_padding_spec.
Qed.

(** The loop of [compress] that packs bits into bytes undoes
    [_bytes_to_binary]: the bits of any bytes are packed back into them. *)
Theorem huffman_pack_bytes_to_binary (data : bytes) :
  Huffman.pack_loop (Huffman._bytes_to_binary data)
    (range_step (length (Huffman._bytes_to_binary data)) 8) []
  = Ok data.
Proof. apply (pack_loop__bytes_to_binary data []). Qed.

(** [_decode_text] emits at most one symbol for each bit it reads, whatever
    the table: an empty bit string decodes to nothing. *)
Theorem huffman_decode_text_length (encoded_text : str) (reverse_mapping : gmap str byte) :
  (length (Huffman._decode_text encoded_text reverse_mapping) ≤ length encoded_text)%nat.
Proof. apply (decode_loop_length reverse_mapping encoded_text [] []). Qed.

(** [compress] keeps an instance usable: started with an empty heap it
    returns and leaves the heap empty; it removes no key from [codes] or
    [reverse_mapping]; every symbol of the data has a code afterwards; and
    on data that is not empty the table shipped is the whole
    [reverse_mapping] of the instance. *)
Theorem huffman_compress_keeps_instance (self : Huffman.HuffmanCoding) (data : bytes) :
  Huffman.heap self = [] →
  ∃ payload self',
    Huffman.compress self data = Ok (payload, self')
    ∧ Huffman.heap self' = []
    ∧ (∀ code, is_Some (Huffman.reverse_mapping self !! code) →
         is_Some (Huffman.reverse_mapping self' !! code))
    ∧ (∀ c, is_Some (Huffman.codes self !! c) → is_Some (Huffman.codes self' !! c))
    ∧ (∀ b, b ∈ data → is_Some (Huffman.codes self' !! b))
    ∧ (data ≠ [] → payload.2 = Huffman.reverse_mapping self').
Proof.
  intros Hheap. destruct data as [|b data].
  { exists ([], ∅), self. split_and!; try done. by intros b ?%elem_of_nil. }
  destruct (compress_spec self (b :: data) Hheap) as (root & packed & padding & Hspec); [done|].
  cbv zeta in Hspec. destruct Hspec as (Hc & Hwf & Hsym & _).
  eexists _, _. split; [exact Hc|]. cbn [Huffman.heap Huffman.codes Huffman.reverse_mapping].
  split_and!; [done| | | |done].
  - intros code Hcode. apply foldl_store_code_keys. by right.
  - intros c Hcode. apply foldl_store_code_symbols. by right.
  - intros c Hcin. apply foldl_store_code_symbols. left.
    rewrite symbols_code_pairs, Hsym. by apply Counter_keys.
Qed.

Lemma huffman_compress_keeps_instance_witness :
  ∃ payload self',
    Huffman.compress Huffman.init ["A"%byte; "B"%byte] = Ok (payload, self')
    ∧ Huffman.heap self' = []
    ∧ (∀ code, is_Some (Huffman.reverse_mapping Huffman.init !! code) →
         is_Some (Huffman.reverse_mapping self' !! code))
    ∧ (∀ c, is_Some (Huffman.codes Huffman.init !! c) → is_Some (Huffman.codes self' !! c))
    ∧ (∀ b, b ∈ ["A"%byte; "B"%byte] → is_Some (Huffman.codes self' !! b))
    ∧ (["A"%byte; "B"%byte] ≠ [] → payload.2 = Huffman.reverse_mapping self').
Proof.
  apply (huffman_compress_keeps_instance Huffman.init ["A"%byte; "B"%byte]).
  reflexivity.
Defined.

(** On a fresh instance the two tables [compress] builds are inverse to
    each other, and [codes] has a code for exactly the symbols of the
    data. *)
Theorem huffman_tables_inverse (s : bytes) :
  ∃ packed table self',
    Huffman.compress Huffman.init s = Ok ((packed, table), self')
    ∧ (∀ b, is_Some (Huffman.codes self' !! b) ↔ b ∈ s)
    ∧ (∀ b code, Huffman.codes self' !! b = Some code ↔ table !! code = Some b).
Proof.
  destruct s as [|b0 s].
  { exists [], ∅, Huffman.init. split_and!; [done| |].
    - intros b. simpl. rewrite lookup_empty, elem_of_nil. split; [by intros []|done].
    - intros b code. simpl. by rewrite !lookup_empty. }
  destruct (compress_fresh_spec (b0 :: s)) as (root & packed & padding & Hspec); [done|].
  cbv zeta in Hspec. destruct Hspec as (Hc & Hwf & Hsym & _).
  eexists _, _, _. split; [exact Hc|]. cbn [Huffman.codes].
  destruct (prefix_code_wf root Hwf) as (Hnd1 & _ & _).
  assert (NoDup (code_pairs root []).*2) as Hnd2.
  { rewrite symbols_code_pairs, Hsym. apply Counter_NoDup. }
  split.
  - intros b. rewrite foldl_store_code_symbols, symbols_code_pairs, Hsym, Counter_keys.
    simpl. rewrite lookup_empty. split; [intros [?|[? ?]]; done|by left].
  - intros b code. split; intros H.
    + apply (foldl_store_code_lookup (code_pairs root [])) in H as [H|H];
        [|simpl in H; by rewrite lookup_empty in H].
      by apply (foldl_store_code_inverse _ Hnd1 Hnd2).
    + apply (foldl_store_code_lookup (code_pairs root [])) in H as [H|H];
        [|simpl in H; by rewrite lookup_empty in H].
      by apply (foldl_store_code_inverse _ Hnd1 Hnd2).
Qed.

(** The size of the packed bytes: one byte for the padding descriptor and
    one for every eight bits, or part of eight bits, of the concatenated
    codes of the data. *)
Theorem huffman_packed_length (s : bytes) :
  s ≠ [] →
  ∃ packed table self',
    Huffman.compress Huffman.init s = Ok ((packed, table), self')
    ∧ Z.of_nat (length packed)
      = 1 + (Z.of_nat (length (s ≫= λ b, default [] (Huffman.codes self' !! b))) + 7) `div` 8.
Proof.
  intros Hne.
  destruct (compress_fresh_spec s Hne) as (root & packed & padding & Hspec).
  cbv zeta in Hspec. destruct Hspec as (Hc & _ & _ & Hpad & Hmod & Hbits).
  eexists _, _, _. split; [exact Hc|]. cbn [Huffman.codes].
  apply (f_equal length) in Hbits.
  rewrite length__bytes_to_binary, !length_app, length_replicate in Hbits.
  destruct (format_08b_range padding) as [Hl _]; [lia|]. rewrite Hl in Hbits.
  set (L := length _) in *.
  assert (Z.of_nat L + padding = 8 * ((Z.of_nat L + padding) `div` 8)) as Hdiv.
  { pose proof (Z.div_mod (Z.of_nat L + padding) 8 ltac:(lia)). lia. }
  assert ((Z.of_nat L + 7) `div` 8 = (Z.of_nat L + padding) `div` 8) as ->.
  { symmetry. apply Z.div_unique with (r := 7 - padding); lia. }
  lia.
Qed.

Lemma huffman_packed_length_witness :
  ∃ packed table self',
    Huffman.compress Huffman.init ["A"%byte; "B"%byte] = Ok ((packed, table), self')
    ∧ Z.of_nat (length packed)
      = 1 + (Z.of_nat (length (["A"%byte; "B"%byte] ≫=
                         λ b, default [] (Huffman.codes self' !! b))) + 7) `div` 8.
Proof.
  apply (huffman_packed_length ["A"%byte; "B"%byte]). discriminate.
Defined.

Section writer_facts.
Import Container ContainerWriter.

Lemma bytes_of_cons z l bs :
  bytes_of (z :: l) = Some bs ↔
  ∃ b bs', bs = b :: bs' ∧ byte_to_Z b = z ∧ 0 ≤ z ≤ 255 ∧ bytes_of l = Some bs'.
Proof.
  unfold bytes_of. cbn [mapM]. split.
  - destruct (byte_of_Z z) as [b|] eqn:Hb; [|done]. simpl.
    destruct (mapM _ l) as [bs'|]; [|done]. simpl. intros [= <-].
    apply byte_of_Z_Ok in Hb. pose proof (byte_to_Z_range b). exists b, bs'.
    split_and!; [done|done|lia|lia|done].
  - intros (b & bs' & -> & <- & _ & ->). by rewrite byte_of_to_Z.
Qed.

Lemma bytes_of_nil bs : bytes_of [] = Some bs ↔ bs = [].
Proof. unfold bytes_of. simpl. split; [by intros [= <-]|by intros ->]. Qed.

Lemma cont_in_true lo hi b : lo ≤ byte_to_Z b ≤ hi → cont_in lo hi b = true.
Proof. intros. unfold cont_in. by apply bool_decide_eq_true. Qed.

(** Decoding the UTF-8 form of a code point gives the code point back. *)
Lemma decode_encode_code_point cp b rest :
  encode_code_point cp = Some b →
  decode_utf8 (b ++ rest) = s ← decode_utf8 rest; Ok (cp :: s).
Proof.
  unfold encode_code_point. repeat case_decide; try done.
  - intros (b0 & ? & -> & Hb0 & _ & ->%bytes_of_nil)%bytes_of_cons.
    cbn [app decode_utf8]. rewrite Hb0. rewrite decide_True by lia. done.
  - intros (b0 & ? & -> & Hb0 & ? &
            (b1 & ? & -> & Hb1 & ? & ->%bytes_of_nil)%bytes_of_cons)%bytes_of_cons.
    cbn [app decode_utf8]. rewrite Hb0, Hb1.
    rewrite decide_False by (Z.div_mod_to_equations; lia).
    rewrite decide_True by (Z.div_mod_to_equations; lia).
    rewrite cont_in_true by (rewrite Hb1; Z.div_mod_to_equations; lia).
    destruct (decode_utf8 rest); [|done]. cbn [mbind result_bind]. do 2 f_equal.
    Z.div_mod_to_equations; lia.
  - intros (b0 & ? & -> & Hb0 & ? &
            (b1 & ? & -> & Hb1 & ? &
             (b2 & ? & -> & Hb2 & ? & ->%bytes_of_nil)%bytes_of_cons)%bytes_of_cons)%bytes_of_cons.
    cbn [app decode_utf8]. rewrite Hb0, Hb1, Hb2.
    rewrite decide_False by (Z.div_mod_to_equations; lia).
    rewrite decide_False by (Z.div_mod_to_equations; lia).
    rewrite decide_True by (Z.div_mod_to_equations; lia).
    rewrite !cont_in_true; try (rewrite ?Hb1, ?Hb2; repeat case_decide; Z.div_mod_to_equations; lia).
    cbn [andb].
    destruct (decode_utf8 rest); [|done]. cbn [mbind result_bind]. do 2 f_equal.
    Z.div_mod_to_equations; lia.
  - intros (b0 & ? & -> & Hb0 & ? &
            (b1 & ? & -> & Hb1 & ? &
             (b2 & ? & -> & Hb2 & ? &
              (b3 & ? & -> & Hb3 & ? & ->%bytes_of_nil)%bytes_of_cons)%bytes_of_cons)%bytes_of_cons)%bytes_of_cons.
    cbn [app decode_utf8]. rewrite Hb0, Hb1, Hb2, Hb3.
    rewrite decide_False by (Z.div_mod_to_equations; lia).
    rewrite decide_False by (Z.div_mod_to_equations; lia).
    rewrite decide_False by (Z.div_mod_to_equations; lia).
    rewrite decide_True by (Z.div_mod_to_equations; lia).
    rewrite !cont_in_true; try (rewrite ?Hb1, ?Hb2, ?Hb3; repeat case_decide; Z.div_mod_to_equations; lia).
    cbn [andb].
    destruct (decode_utf8 rest); [|done]. cbn [mbind result_bind]. do 2 f_equal.
    Z.div_mod_to_equations; lia.
Qed.

End writer_facts.

Section writer_facts2.
Import Container ContainerWriter.

Lemma decode_encode_utf8 s bs :
  encode_utf8 s = Some bs → decode_utf8 bs = Ok s.
Proof.
  revert bs. induction s as [|cp s IH]; intros bs; cbn [encode_utf8].
  { by intros [= <-]. }
  destruct (encode_code_point cp) as [b|] eqn:Hcp; [|done].
  destruct (encode_utf8 s) as [bs'|]; [|done]. intros [= <-].
  rewrite (decode_encode_code_point cp b bs' Hcp), (IH bs' eq_refl). done.
Qed.

Lemma pack_B_Some n b :
  pack_B n = Some b ↔ ∃ x, b = [x] ∧ byte_to_Z x = n ∧ 0 ≤ n ≤ 255.
Proof.
  unfold pack_B. rewrite bytes_of_cons. split.
  - intros (x & ? & -> & Hx & Hn & ->%bytes_of_nil). eauto.
  - intros (x & -> & Hx & Hn). exists x, []. by rewrite bytes_of_nil.
Qed.

Lemma pack_B_in_range n : 0 ≤ n ≤ 255 → is_Some (pack_B n).
Proof.
  intros Hn. destruct (byte_of_Z_in_range n Hn) as (x & _ & Hx).
  exists [x]. apply pack_B_Some. eauto.
Qed.

Lemma pack_B_out_of_range n : ¬ (0 ≤ n ≤ 255) → pack_B n = None.
Proof.
  intros Hn. destruct (pack_B n) as [b|] eqn:E; [|done].
  apply pack_B_Some in E as (? & _ & _ & ?). done.
Qed.

(** What [write_container] writes when nothing is raised. *)
Lemma write_container_Written algorithm_name ext compressed_data f :
  write_container algorithm_name ext compressed_data = Written f →
  ∃ algo_len algo_bytes ext_len ext_bytes,
    encode_utf8 algorithm_name = Some algo_bytes
    ∧ encode_utf8 ext = Some ext_bytes
    ∧ byte_to_Z algo_len = Z.of_nat (length algo_bytes)
    ∧ byte_to_Z ext_len = Z.of_nat (length ext_bytes)
    ∧ f = MAGIC ++ ["001"%byte; algo_len] ++ algo_bytes ++ [ext_len] ++ ext_bytes
            ++ compressed_data.
Proof.
  unfold write_container.
  destruct (pack_B VERSION) as [version|] eqn:Hv; [|done].
  apply pack_B_Some in Hv as (v & -> & Hv & _).
  assert (v = "001"%byte) as -> by (apply byte_to_Z_inj; by rewrite Hv).
  destruct (encode_utf8 algorithm_name) as [algo_bytes|]; [|done].
  destruct (pack_B (Z.of_nat (length algo_bytes))) as [algo_len|] eqn:Ha; [|done].
  apply pack_B_Some in Ha as (a & -> & Ha & _).
  destruct (encode_utf8 ext) as [ext_bytes|]; [|done].
  destruct (pack_B (Z.of_nat (length ext_bytes))) as [ext_len|] eqn:He; [|done].
  apply pack_B_Some in He as (e & -> & He & _).
  intros [= <-]. exists a, algo_bytes, e, ext_bytes.
  split_and!; [done..|]. by rewrite <- !app_assoc.
Qed.

Lemma parse_written algo_len algo_bytes ext_len ext_bytes compressed_data :
  byte_to_Z algo_len = Z.of_nat (length algo_bytes) →
  byte_to_Z ext_len = Z.of_nat (length ext_bytes) →
  parse (MAGIC ++ ["001"%byte; algo_len] ++ algo_bytes ++ [ext_len] ++ ext_bytes
           ++ compressed_data)
  = (algorithm_name ← decode_utf8 algo_bytes;
     ext ← decode_utf8 ext_bytes;
     Ok (algorithm_name, ext, compressed_data)).
Proof.
  intros Ha He. unfold MAGIC. cbn [app]. rewrite parse_after_algo_len.
  rewrite decide_False by (by intros []).
  rewrite decide_False by (by intros []). cbn zeta.
  rewrite Ha, Nat2Z.id, take_app_length, drop_app_length.
  destruct (decode_utf8 algo_bytes); cbn [mbind result_bind]; [|done].
  cbn [take drop unpack_B app mbind result_bind]. rewrite take_0, drop_0.
  cbn [mbind result_bind unpack_B].
  rewrite He, Nat2Z.id, take_app_length, drop_app_length. done.
Qed.

End writer_facts2.

(** Round trip of the container: whenever the writing block of
    [compress_file] completes, the reading block of [decompress_file]
    returns, from the bytes written, the same algorithm name, extension and
    compressed data. *)
Theorem container_roundtrip (algorithm_name ext : list Z) (compressed_data f : bytes) :
  ContainerWriter.write_container algorithm_name ext compressed_data
  = ContainerWriter.Written f →
  Container.parse f = Ok (algorithm_name, ext, compressed_data).
Proof.
  intros (algo_len & algo_bytes & ext_len & ext_bytes & Hname & Hext & Ha & He & ->)
    %write_container_Written.
  rewrite parse_written by done.
  by rewrite (decode_encode_utf8 _ _ Hname), (decode_encode_utf8 _ _ Hext).
Qed.

Lemma container_roundtrip_witness :
  Container.parse
    (Container.MAGIC ++ ["001"%byte; "003"%byte; "l"%byte; "z"%byte; "w"%byte;
                         "004"%byte; "."%byte; "t"%byte; "x"%byte; "t"%byte; "*"%byte])
  = Ok ([108; 122; 119], [46; 116; 120; 116], ["*"%byte]).
Proof.
  apply (container_roundtrip [108; 122; 119] [46; 116; 120; 116] ["*"%byte]).
  vm_compute. reflexivity.
Defined.

(** The writing block fails exactly on a name or an extension that holds a
    surrogate or whose UTF-8 form is longer than 255 bytes; nothing else
    makes it raise. *)
Theorem container_write_succeeds_iff (algorithm_name ext : list Z) (compressed_data : bytes) :
  (∃ f, ContainerWriter.write_container algorithm_name ext compressed_data
        = ContainerWriter.Written f)
  ↔ ∃ algo_bytes ext_bytes,
      ContainerWriter.encode_utf8 algorithm_name = Some algo_bytes
      ∧ ContainerWriter.encode_utf8 ext = Some ext_bytes
      ∧ (length algo_bytes ≤ 255)%nat ∧ (length ext_bytes ≤ 255)%nat.
Proof.
  split.
  - intros [f (algo_len & algo_bytes & ext_len & ext_bytes & Hname & Hext & Ha & He & _)
              %write_container_Written].
    exists algo_bytes, ext_bytes.
    pose proof (byte_to_Z_range algo_len). pose proof (byte_to_Z_range ext_len).
    split_and!; [done..|lia|lia].
  - intros (algo_bytes & ext_bytes & Hname & Hext & Ha & He).
    unfold ContainerWriter.write_container. rewrite Hname, Hext.
    destruct (pack_B_in_range Container.VERSION) as [v ->]; [done|].
    destruct (pack_B_in_range (Z.of_nat (length algo_bytes))) as [a ->]; [lia|].
    destruct (pack_B_in_range (Z.of_nat (length ext_bytes))) as [e ->]; [lia|].
    by eexists.
Qed.

(** The header costs seven bytes besides the name and the extension: for a
    name and an extension of ASCII characters, at most 255 each, the file
    written has [7 + len(name) + len(ext) + len(compressed_data)] bytes. *)
Theorem container_write_ascii_length (algorithm_name ext : list Z) (compressed_data : bytes) :
  Forall (λ cp, 0 ≤ cp < 128) algorithm_name → Forall (λ cp, 0 ≤ cp < 128) ext →
  (length algorithm_name ≤ 255)%nat → (length ext ≤ 255)%nat →
  ∃ f, ContainerWriter.write_container algorithm_name ext compressed_data
       = ContainerWriter.Written f
    ∧ length f = (7 + length algorithm_name + length ext + length compressed_data)%nat.
Proof.
  assert (∀ s, Forall (λ cp, 0 ≤ cp < 128) s →
    ∃ bs, ContainerWriter.encode_utf8 s = Some bs ∧ length bs = length s) as Hascii.
  { induction 1 as [|cp s Hcp _ (bs & IH & Hlen)]; [by exists []|].
    destruct (byte_of_Z_in_range cp) as (b & Hb & _); [lia|].
    exists (b :: bs). cbn [ContainerWriter.encode_utf8]. rewrite IH.
    unfold ContainerWriter.encode_code_point.
    rewrite decide_False, decide_True by lia.
    unfold ContainerWriter.bytes_of. cbn [mapM]. rewrite Hb. simpl. by rewrite Hlen. }
  intros (nb & Hname & Hnl)%Hascii (eb & Hext & Hel)%Hascii Hn He.
  unfold ContainerWriter.write_container. rewrite Hname, Hext.
  destruct (pack_B_in_range Container.VERSION) as [v Hv]; [done|]. rewrite Hv.
  destruct (pack_B_in_range (Z.of_nat (length nb))) as [a Ha]; [lia|]. rewrite Ha.
  destruct (pack_B_in_range (Z.of_nat (length eb))) as [e He']; [lia|]. rewrite He'.
  eexists. split; [done|].
  apply pack_B_Some in Hv as (? & -> & _), Ha as (? & -> & _), He' as (? & -> & _).
  rewrite !length_app. unfold Container.MAGIC. simpl. lia.
Qed.

Lemma container_write_ascii_length_witness :
  ∃ f, ContainerWriter.write_container [114; 108; 101] [46; 116] ["*"%byte]
       = ContainerWriter.Written f
    ∧ length f = (7 + length [114; 108; 101] + length [46; 116] + length ["*"%byte])%nat.
Proof.
  apply (container_write_ascii_length [114; 108; 101] [46; 116] ["*"%byte]).
  - repeat constructor; lia.
  - repeat constructor; lia.
  - simpl. lia.
  - simpl. lia.
Defined.

Lemma bind_no_ValueError {A B} (m : result A) (k : A → result B) y :
  m ≠ Raise (ValueError y) → (∀ a, k a ≠ Raise (ValueError y)) →
  m ≫= k ≠ Raise (ValueError y).
Proof. intros Hm Hk. destruct m as [a|e]; [apply Hk|]. intros [= ->]. by apply Hm. Qed.

Lemma decode_utf8_no_ValueError b y :
  Container.decode_utf8 b ≠ Raise (ValueError y).
Proof. intros Hb. by apply decode_utf8_error in Hb. Qed.

(** The two [raise] statements of the reading block: it raises the
    invalid-magic [ValueError] exactly when the first four bytes are not
    [CMPR], and the unsupported-version [ValueError], with the version read,
    exactly when they are and the fifth byte is there and is not 1. *)
Theorem parse_raises_iff (f : bytes) :
  (Container.parse f = Raise (ValueError InvalidMagic) ↔ take 4 f ≠ Container.MAGIC)
  ∧ ∀ version,
      Container.parse f = Raise (ValueError (UnsupportedVersion version))
      ↔ take 4 f = Container.MAGIC
        ∧ (∃ b, f !! 4%nat = Some b ∧ byte_to_Z b = version)
        ∧ version ≠ Container.VERSION.
Proof.
  assert (∀ r x y,
    (algorithm_name ← Container.decode_utf8 (take (Z.to_nat (byte_to_Z x)) r);
     ext_len ← Container.unpack_B (take 1 (drop (Z.to_nat (byte_to_Z x)) r));
     ext ← Container.decode_utf8
              (take (Z.to_nat ext_len) (drop 1 (drop (Z.to_nat (byte_to_Z x)) r)));
     Ok (algorithm_name, ext,
         drop (Z.to_nat ext_len) (drop 1 (drop (Z.to_nat (byte_to_Z x)) r))))
    ≠ Raise (ValueError y)) as Htail.
  { intros r x y. repeat (apply bind_no_ValueError; [|intros ?]); try done.
    - apply decode_utf8_no_ValueError.
    - by destruct (take 1 _) as [|? [|? ?]].
    - apply decode_utf8_no_ValueError. }
  destruct f as [|b0 [|b1 [|b2 [|b3 [|b4 [|b5 r]]]]]].
  1-4: rewrite parse_short_magic by (simpl; lia);
       (split; [split; [by intros _ | done]|]);
       intros version; split; [done|by intros [? _]].
  - unfold Container.parse, Container.read.
    change (Z.to_nat 4) with 4%nat. change (Z.to_nat 1) with 1%nat.
    cbn [take drop Container.unpack_B mbind result_bind].
    case_decide as Hm.
    + split; [done|]. intros version. split; [done|by intros [? _]].
    + split; [split; [done|by intros []]|].
      intros version. split; [done|]. by intros (_ & (b & [=] & _) & _).
  - unfold Container.parse, Container.read.
    change (Z.to_nat 4) with 4%nat. change (Z.to_nat 1) with 1%nat.
    cbn [take drop Container.unpack_B mbind result_bind].
    case_decide as Hm.
    + split; [done|]. intros version. split; [done|by intros [? _]].
    + split.
      * split; [|by intros []]. by case_decide.
      * intros version. case_decide as Hv.
        -- split; [intros [= <-]; eauto 10|]. by intros (_ & (b & [= <-] & <-) & _).
        -- split; [done|].
           intros (_ & (b & [= <-] & <-) & Hne). done.
  - rewrite parse_after_algo_len. cbn zeta.
    case_decide as Hm.
    + split; [done|]. intros version. split; [done|by intros [? _]].
    + split.
      * split; [|by intros []]. case_decide; [done|]. intros Hp. by apply Htail in Hp.
      * intros version. case_decide as Hv.
        -- split; [intros [= <-]; eauto 10|]. by intros (_ & (b & [= <-] & <-) & _).
        -- split; [intros Hp; by apply Htail in Hp|].
           intros (_ & (b & [= <-] & <-) & Hne). done.
Qed.

Section benchmark_facts.
Import Benchmark.

Lemma bytes_of_ints_spec l :
  Forall (λ z, 0 ≤ z ≤ 255) l →
  ∃ bs, bytes_of_ints l = Ok bs ∧ byte_to_Z <$> bs = l.
Proof.
  induction 1 as [|z l Hz _ (bs & IH & Hbs)]; [by exists []|].
  destruct (byte_of_Z_in_range z Hz) as (b & Hb & Hbz).
  exists (b :: bs). cbn [bytes_of_ints]. rewrite Hb, IH. split; [done|].
  rewrite fmap_cons. by rewrite Hbz, Hbs.
Qed.

Lemma range_lookup n i x :
  range n !! i = Some x ↔ x = Z.of_nat i ∧ (i < Z.to_nat n)%nat.
Proof.
  unfold range. rewrite list_lookup_fmap, fmap_Some. split.
  - intros (j & [-> ?]%lookup_seq & ->). done.
  - intros [-> Hi]. exists i. split; [|done]. by apply lookup_seq.
Qed.

Lemma generate_test_data_sequential_spec size :
  ∃ data, generate_test_data_sequential size = Ok data
    ∧ length data = Z.to_nat size ∧ no_adjacent_equal data.
Proof.
  unfold generate_test_data_sequential.
  destruct (bytes_of_ints_spec ((λ i, i `mod` 256) <$> range size)) as (data & -> & Hdata).
  { apply Forall_fmap, Forall_forall. intros i _. simpl.
    pose proof (Z.mod_pos_bound i 256 ltac:(lia)). lia. }
  exists data. split; [done|]. split.
  - rewrite <- (length_fmap byte_to_Z), Hdata, length_fmap. unfold range.
    by rewrite length_fmap, length_seq.
  - intros i x y Hx Hy ->.
    assert (∀ j b, data !! j = Some b → byte_to_Z b = Z.of_nat j `mod` 256) as Hl.
    { intros j b Hb. apply (f_equal (fmap byte_to_Z)) in Hb.
      rewrite <- list_lookup_fmap, Hdata, list_lookup_fmap in Hb.
      destruct (range size !! j) as [z|] eqn:E; [|done].
      apply range_lookup in E as [-> _]. by injection Hb as <-. }
    apply Hl in Hx, Hy. rewrite Hx in Hy. Z.div_mod_to_equations. lia.
Qed.

(** The element at index [i] of a pattern repeated: the element of the
    pattern at [i mod len(pattern)]. *)
Lemma repeat_bytes_lookup pattern n i :
  (i < Z.to_nat n * length pattern)%nat →
  repeat_bytes pattern n !! i = pattern !! (i `mod` length pattern)%nat.
Proof.
  unfold repeat_bytes. generalize (Z.to_nat n). clear n. intros m.
  destruct pattern as [|p0 pattern]; [simpl; lia|].
  set (k := length (p0 :: pattern)). assert (0 < k)%nat by (subst k; simpl; lia).
  revert i. induction m as [|m IH]; intros i Hi; [lia|].
  cbn [replicate]. rewrite bind_cons. unfold id at 1.
  destruct (decide (i < k)%nat).
  - rewrite lookup_app_l by done. by rewrite Nat.mod_small.
  - rewrite lookup_app_r by lia. rewrite IH by lia. fold k.
    f_equal. replace i with ((i - k) + 1 * k)%nat at 2 by lia.
    by rewrite Nat.Div0.mod_add.
Qed.

Lemma length_repeat_bytes pattern n :
  length (repeat_bytes pattern n) = (Z.to_nat n * length pattern)%nat.
Proof.
  unfold repeat_bytes. induction (Z.to_nat n) as [|m IH]; [done|].
  cbn [replicate]. rewrite bind_cons, length_app, IH. unfold id. lia.
Qed.

Lemma generate_test_data_repeated_spec size :
  0 ≤ size →
  length (generate_test_data_repeated size) = Z.to_nat size
  ∧ no_adjacent_equal (generate_test_data_repeated size).
Proof.
  intros Hsize. unfold generate_test_data_repeated. cbv zeta.
  set (abc := ["A"%byte; "B"%byte; "C"%byte]).
  set (pattern := repeat_bytes abc 10).
  assert (length pattern = 30%nat) as Hlen by reflexivity. rewrite Hlen.
  set (repeats := size `div` Z.of_nat 30 + 1).
  assert (Z.to_nat size < Z.to_nat repeats * 30)%nat as Hrep.
  { subst repeats. Z.div_mod_to_equations. lia. }
  unfold slice_to. rewrite decide_True by done. split.
  - rewrite length_take, length_repeat_bytes, Hlen. lia.
  - assert (∀ i b, take (Z.to_nat size) (repeat_bytes pattern repeats) !! i = Some b →
                   abc !! (i `mod` 3)%nat = Some b) as Hl.
    { intros i b Hb. apply lookup_take_Some in Hb as [Hb Hi].
      rewrite repeat_bytes_lookup, Hlen in Hb by (rewrite Hlen; lia).
      subst pattern. rewrite repeat_bytes_lookup in Hb.
      - rewrite <- Hb. f_equal. change (length abc) with 3%nat.
        pose proof (Nat.div_mod_eq i 30). pose proof (Nat.div_mod_eq (i `mod` 30) 3).
        pose proof (Nat.div_mod_eq i 3).
        pose proof (Nat.mod_upper_bound i 30). pose proof (Nat.mod_upper_bound i 3).
        pose proof (Nat.mod_upper_bound (i `mod` 30) 3). nia.
      - change (Z.to_nat 10 * length abc)%nat with 30%nat.
        apply Nat.mod_upper_bound. lia. }
    intros i x y Hx Hy ->. apply Hl in Hx, Hy.
    pose proof (Nat.mod_upper_bound i 3 ltac:(lia)) as Hm.
    assert ((S i) `mod` 3 = if decide (i `mod` 3 = 2) then 0 else S (i `mod` 3))%nat as HS.
    { pose proof (Nat.div_mod_eq i 3). pose proof (Nat.div_mod_eq (S i) 3).
      pose proof (Nat.mod_upper_bound (S i) 3). case_decide; nia. }
    rewrite HS in Hy.
    destruct (i `mod` 3)%nat as [|[|[|?]]]; simpl in *; try lia; congruence.
Qed.

End benchmark_facts.

(** On the benchmark's "sequential" data, [RLE.compress] doubles the size:
    no two adjacent bytes of it are equal. *)
Theorem rle_doubles_sequential_data (size : Z) :
  ∃ data compressed,
    Benchmark.generate_test_data_sequential size = Ok data
    ∧ length data = Z.to_nat size
    ∧ RLE.compress data = Ok compressed
    ∧ length compressed = (2 * Z.to_nat size)%nat.
Proof.
  destruct (generate_test_data_sequential_spec size) as (data & Hdata & Hlen & Hadj).
  destruct (rle_compress_spec data) as (compressed & Hc & _ & _ & _ & Heq).
  exists data, compressed. split_and!; [done..|]. by rewrite Heq, Hlen.
Qed.

(** On the benchmark's "repeated" data, the 30-byte pattern [ABC...ABC]
    repeated and cut to the size, [RLE.compress] doubles the size as well. *)
Theorem rle_doubles_repeated_data (size : Z) :
  0 ≤ size →
  length (Benchmark.generate_test_data_repeated size) = Z.to_nat size
  ∧ ∃ compressed,
      RLE.compress (Benchmark.generate_test_data_repeated size) = Ok compressed
      ∧ length compressed = (2 * Z.to_nat size)%nat.
Proof.
  intros Hsize.
  destruct (generate_test_data_repeated_spec size Hsize) as [Hlen Hadj].
  split; [done|].
  destruct (rle_compress_spec (Benchmark.generate_test_data_repeated size))
    as (compressed & Hc & _ & _ & _ & Heq).
  exists compressed. split; [done|]. by rewrite Heq, Hlen.
Qed.

Lemma rle_doubles_repeated_data_witness :
  length (Benchmark.generate_test_data_repeated 100) = Z.to_nat 100
  ∧ ∃ compressed,
      RLE.compress (Benchmark.generate_test_data_repeated 100) = Ok compressed
      ∧ length compressed = (2 * Z.to_nat 100)%nat.
Proof. apply (rle_doubles_repeated_data 100). lia. Defined.

(** ** The heap order is kept *)

Section heap_order_facts.
Context {A : Type} (key : A → Z) (lt : A → A → bool).
Hypothesis lt_key : ∀ a b, lt a b = bool_decide (key a < key b).

Lemma parent_lt i : (0 < i)%nat → ((i - 1) / 2 < i)%nat.
Proof. intros. apply Nat.Div0.div_lt_upper_bound. lia. Qed.

Lemma parent_child i p :
  (0 < i)%nat → ((i - 1) / 2)%nat = p ↔ (i = 2 * p + 1 ∨ i = 2 * p + 2)%nat.
Proof.
  intros Hi. pose proof (Nat.div_mod_eq (i - 1) 2) as Hdiv.
  pose proof (Nat.mod_upper_bound (i - 1) 2) as Hmod. lia.
Qed.

Lemma children_cases i p :
  (0 < i)%nat → ((i - 1) / 2)%nat = p → (i = 2 * p + 1 ∨ i = 2 * p + 1 + 1)%nat.
Proof. intros Hi Hp. apply parent_child in Hp; lia. Qed.

Lemma child_ge i p : (0 < i)%nat → ((i - 1) / 2)%nat = p → (2 * p + 1 ≤ i)%nat.
Proof. intros Hi Hp. apply parent_child in Hp; lia. Qed.

(** The root of an ordered heap is a least element. *)
Lemma heap_ordered_root heap r :
  heap_ordered key heap → heap !! 0%nat = Some r →
  ∀ x, x ∈ heap → key r ≤ key x.
Proof.
  intros Hord Hr x [i Hi]%list_elem_of_lookup. revert x Hi.
  induction (lt_wf i) as [i _ IH]. intros x Hi.
  destruct (decide (i = 0)%nat) as [->|Hne]; [naive_solver lia|].
  destruct (lookup_lt_is_Some_2 heap ((i - 1) / 2)%nat) as [p Hp].
  { pose proof (parent_lt i). apply lookup_lt_Some in Hi. lia. }
  trans (key p).
  - apply (IH ((i - 1) / 2)%nat); [apply parent_lt; lia|done].
  - apply (Hord i); [lia|done..].
Qed.

Lemma heap_ordered_take heap n :
  heap_ordered key heap → heap_ordered key (take n heap).
Proof.
  intros Hord i x p Hi [Hx _]%lookup_take_Some [Hp _]%lookup_take_Some. eauto.
Qed.

Ltac insert_cases :=
  repeat match goal with
  | H : <[_:=_]> _ !! _ = Some _ |- _ =>
      apply list_lookup_insert_Some in H; destruct H as [(? & ? & ?)|[? ?]]
  end.

Ltac order_done :=
  simplify_eq; try lia; try (by eauto with lia).

Lemma siftdown_loop_ordered fuel heap pos newitem heap' pos' :
  (pos < fuel)%nat → (pos < length heap)%nat →
  siftdown_inv key heap pos newitem →
  heapq.siftdown_loop lt fuel heap 0 pos newitem = Ok (heap', pos') →
  heap_ordered key (<[pos':=newitem]> heap').
Proof.
  revert heap pos. induction fuel as [|fuel IH];
    intros heap pos Hfuel Hpos (H1 & H2 & H3); [lia|].
  cbn [heapq.siftdown_loop]. case_decide as Hstart.
  - pose proof (parent_lt pos Hstart) as Hparent.
    destruct (getitem_lt heap ((pos - 1) / 2)) as (parent & -> & Hp); [lia|].
    cbn [mbind result_bind]. rewrite lt_key. case_bool_decide as Hlt.
    + rewrite setitem_lt by done. cbn [mbind result_bind].
      apply IH; [lia|rewrite length_insert; lia|].
      split_and!.
      * intros i x p Hi Hne Hx Hpi. insert_cases; order_done.
      * intros c x Hc Hpc Hx. insert_cases; order_done.
        assert (key parent ≤ key x); [|lia].
        eapply (H1 c); eauto. by rewrite Hpc.
      * intros c x g Hc Hpc Hpp Hx Hg. pose proof (parent_lt _ Hpp) as Hgp.
        insert_cases; order_done.
        trans (key parent).
        -- eapply (H1 ((pos - 1) / 2)%nat); eauto. lia.
        -- eapply (H1 c); eauto. by rewrite Hpc.
    + intros [= <- <-]. intros i x p Hi Hx Hpi. insert_cases; order_done.
  - intros [= <- <-]. assert (pos = 0%nat) as -> by lia.
    intros i x p Hi Hx Hpi. insert_cases; order_done.
Qed.

Lemma _siftdown_ordered heap pos heap' :
  (pos < length heap)%nat →
  (∀ newitem, heap !! pos = Some newitem → siftdown_inv key heap pos newitem) →
  heapq._siftdown lt heap 0 pos = Ok heap' → heap_ordered key heap'.
Proof.
  intros Hpos Hinv. unfold heapq._siftdown.
  destruct (getitem_lt heap pos Hpos) as (newitem & -> & Hn).
  cbn [mbind result_bind].
  destruct (siftdown_loop_spec lt (S pos) heap 0 pos newitem Hpos)
    as (heap1 & pos1 & Hloop & Hpos1 & _ & _).
  rewrite Hloop. cbn [mbind result_bind]. rewrite setitem_lt by done.
  intros [= <-]. eapply siftdown_loop_ordered; [| |by apply Hinv|done]; lia.
Qed.

Lemma siftup_loop_ordered fuel heap pos heap' pos' :
  (length heap - pos ≤ fuel)%nat → (pos < length heap)%nat →
  siftup_inv key heap pos →
  heapq.siftup_loop lt fuel heap (length heap) pos (2 * pos + 1) = Ok (heap', pos') →
  length heap' = length heap ∧ (pos' < length heap)%nat
  ∧ siftup_inv key heap' pos' ∧ (length heap ≤ 2 * pos' + 1)%nat.
Proof.
  revert heap pos. induction fuel as [|fuel IH];
    intros heap pos Hfuel Hpos (H1 & H3); [lia|].
  cbn [heapq.siftup_loop]. case_decide as Hchild.
  2:{ intros [= <- <-]. split_and!; [done..|split; done|lia]. }
  destruct (getitem_lt heap (2 * pos + 1) Hchild) as (c & Hgc & Hc).
  assert (∃ childpos' child,
    (if decide (2 * pos + 1 + 1 < length heap)%nat then
       c ← getitem heap (2 * pos + 1); r ← getitem heap (2 * pos + 1 + 1);
       Ok (if negb (lt c r) then (2 * pos + 1 + 1)%nat else (2 * pos + 1)%nat)
     else Ok (2 * pos + 1)%nat) = Ok childpos'
    ∧ ((childpos' - 1) / 2)%nat = pos ∧ (0 < childpos')%nat
    ∧ heap !! childpos' = Some child
    ∧ ∀ i x, (0 < i)%nat → ((i - 1) / 2)%nat = pos → heap !! i = Some x →
        key child ≤ key x)
    as (childpos' & child & -> & Hpc & Hc0 & Hchild' & Hmin).
  { case_decide as Hright.
    - destruct (getitem_lt heap (2 * pos + 1 + 1) Hright) as (r & Hgr & Hr).
      rewrite Hgc, Hgr. cbn [mbind result_bind]. rewrite lt_key.
      case_bool_decide as Hlt; cbn [negb].
      + exists (2 * pos + 1)%nat, c. split_and!; [done| |lia|done|].
        { apply parent_child; lia. }
        intros i x Hi Hpi Hx.
        destruct (children_cases i pos Hi Hpi) as [->| ->]; simplify_eq; lia.
      + exists (2 * pos + 1 + 1)%nat, r. split_and!; [done| |lia|done|].
        { apply parent_child; lia. }
        intros i x Hi Hpi Hx.
        destruct (children_cases i pos Hi Hpi) as [->| ->]; simplify_eq; lia.
    - exists (2 * pos + 1)%nat, c. split_and!; [done| |lia|done|].
      { apply parent_child; lia. }
      intros i x Hi Hpi Hx.
      destruct (children_cases i pos Hi Hpi) as [->| ->]; simplify_eq; [lia|].
      apply lookup_lt_Some in Hx. lia. }
  cbn [mbind result_bind]. unfold getitem at 1. rewrite Hchild'.
  cbn [of_option mbind result_bind].
  rewrite setitem_lt by done. cbn [mbind result_bind].
  pose proof (lookup_lt_Some _ _ _ Hchild') as Hlt'.
  pose proof (child_ge _ _ Hc0 Hpc) as Hge.
  rewrite <- (length_insert heap pos child) at 1.
  intros Hloop. apply IH in Hloop.
  - rewrite !length_insert in Hloop. done.
  - rewrite length_insert. lia.
  - rewrite length_insert. lia.
  - split.
    + intros i x p Hi Hne Hx Hp. insert_cases; order_done.
    + intros i x g Hi Hpi Hcp Hx Hg. insert_cases; order_done.
Qed.

Lemma _siftup_ordered heap heap' :
  heap ≠ [] → siftup_inv key heap 0 →
  heapq._siftup lt heap 0 = Ok heap' → heap_ordered key heap'.
Proof.
  intros Hne Hinv. unfold heapq._siftup.
  assert (0 < length heap)%nat as Hpos by (destruct heap; [done|simpl; lia]).
  destruct (getitem_lt heap 0 Hpos) as (newitem & -> & Hn).
  cbn [mbind result_bind].
  destruct (siftup_loop_spec lt (length heap) heap 0 (2 * 0 + 1) Hpos)
    as (heap1 & pos1 & Hloop & Hpos1 & Hlen & _).
  rewrite Hloop. cbn [mbind result_bind].
  apply siftup_loop_ordered in Hloop as (_ & _ & (H1 & H3) & Hleaf);
    [|lia|done|done].
  rewrite setitem_lt by done. cbn [mbind result_bind].
  apply _siftdown_ordered; [by rewrite length_insert|].
  intros newitem' _. split_and!.
  - intros i x p Hi Hne' Hx Hp. insert_cases; order_done.
    pose proof (child_ge i _ Hi eq_refl) as Hge.
    repeat match goal with
    | H : _ !! _ = Some _ |- _ => apply lookup_lt_Some in H
    end. lia.
  - intros c x Hc Hpc Hx. pose proof (child_ge _ _ Hc Hpc) as Hge.
    apply lookup_lt_Some in Hx. rewrite length_insert in Hx. lia.
  - intros c x g Hc Hpc _ Hx _. pose proof (child_ge _ _ Hc Hpc) as Hge.
    apply lookup_lt_Some in Hx. rewrite length_insert in Hx. lia.
Qed.

(** [heappush] keeps the heap order. *)
Lemma heappush_ordered heap item heap' :
  heap_ordered key heap →
  heapq.heappush lt heap item = Ok heap' → heap_ordered key heap'.
Proof.
  intros Hord. unfold heapq.heappush. rewrite length_app. cbn [length].
  replace (length heap + 1 - 1)%nat with (length heap) by lia.
  apply _siftdown_ordered; [rewrite length_app; simpl; lia|].
  intros newitem _. split_and!.
  - intros i x p Hi Hne Hx Hp.
    assert (i < length heap)%nat as Hlt.
    { apply lookup_lt_Some in Hx. rewrite length_app in Hx. simpl in Hx. lia. }
    pose proof (parent_lt i Hi).
    rewrite lookup_app_l in Hx, Hp by lia. eauto.
  - intros c x Hc Hpc Hx. pose proof (child_ge _ _ Hc Hpc) as Hge.
    apply lookup_lt_Some in Hx. rewrite length_app in Hx. simpl in Hx. lia.
  - intros c x g Hc Hpc _ Hx _. pose proof (child_ge _ _ Hc Hpc) as Hge.
    apply lookup_lt_Some in Hx. rewrite length_app in Hx. simpl in Hx. lia.
Qed.

(** [heappop] returns a least element and keeps the heap order. *)
Lemma heappop_ordered heap item heap' :
  heap_ordered key heap →
  heapq.heappop lt heap = Ok (item, heap') →
  heap_ordered key heap' ∧ ∀ x, x ∈ heap → key item ≤ key x.
Proof.
  intros Hord. unfold heapq.heappop.
  destruct (reverse heap) as [|lastelt rest_rev] eqn:Hrev; [done|].
  assert (heap = reverse rest_rev ++ [lastelt]) as ->.
  { by rewrite <- reverse_cons, <- Hrev, reverse_involutive. }
  destruct (reverse rest_rev) as [|returnitem t] eqn:Ht.
  - intros [= <- <-]. split; [by intros i x p _ ?|].
    intros x ->%list_elem_of_singleton. done.
  - rewrite setitem_lt by (simpl; lia). cbn [mbind result_bind].
    destruct (_siftup_spec lt (<[0%nat:=lastelt]> (returnitem :: t)) 0)
      as (heap'' & Hsift & _); [simpl; lia|].
    rewrite Hsift. cbn [mbind result_bind]. intros [= <- <-]. split.
    + eapply _siftup_ordered; [|split|exact Hsift]; [done|..].
      * intros i x p Hi Hne Hx Hp. pose proof (parent_lt i Hi).
        assert ((i - 1) / 2 ≠ 0)%nat as Hne' by done.
        rewrite list_lookup_insert_ne in Hx, Hp by lia.
        apply (Hord i x p Hi).
        -- rewrite lookup_app_l; [done|]. by eapply lookup_lt_Some.
        -- rewrite lookup_app_l; [done|]. by eapply lookup_lt_Some.
      * intros; lia.
    + by apply heap_ordered_root.
Qed.

End heap_order_facts.

(** ** Huffman coding: the tree is built by Huffman's rule *)

Section huffman_order_facts.
Import Huffman.

Lemma lt_freq a b : lt a b = bool_decide (freq a < freq b).
Proof. done. Qed.

Lemma heap_ordered_nil : heap_ordered freq [].
Proof. by intros i x p _ ?. Qed.

Lemma _make_heap_ordered heap frequency :
  heap_ordered freq heap →
  ∃ heap', _make_heap heap frequency = Ok heap'
    ∧ heap' ≡ₚ heap ++ leaf_nodes frequency ∧ heap_ordered freq heap'.
Proof.
  revert heap. induction frequency as [|[c f] frequency IH]; intros heap Hord;
    cbn [_make_heap].
  - exists heap. by rewrite app_nil_r.
  - destruct (heappush_spec lt heap (new_node (Some c) f)) as (heap1 & Hpush & Hperm1).
    rewrite Hpush. cbn [mbind result_bind].
    apply (heappush_ordered freq lt lt_freq) in Hpush; [|done].
    destruct (IH heap1 Hpush) as (heap' & -> & Hperm & Hord').
    exists heap'. split_and!; [done| |done].
    rewrite Hperm, Hperm1. unfold leaf_nodes. simpl. apply Permutation_middle.
Qed.

Lemma huffman_merge_perm nodes nodes' root :
  nodes ≡ₚ nodes' → huffman_merge nodes root → huffman_merge nodes' root.
Proof.
  intros Hperm Hm.
  inversion Hm as [root'|nodes0 node1 node2 rest root' Hp Hle Hrest Hm']; subst.
  - apply Permutation_singleton_l in Hperm. subst. constructor.
  - eapply huffman_merge_step; [|done..]. by rewrite <- Hperm.
Qed.

Lemma total_freq_perm nodes nodes' :
  nodes ≡ₚ nodes' → total_freq nodes = total_freq nodes'.
Proof.
  unfold total_freq. induction 1; simpl; lia.
Qed.

Lemma huffman_merge_freq nodes root :
  huffman_merge nodes root → freq root = total_freq nodes.
Proof.
  induction 1 as [root|nodes node1 node2 rest root Hp Hle Hrest Hm IH].
  - unfold total_freq. simpl. lia.
  - rewrite IH, (total_freq_perm _ _ Hp). unfold total_freq. simpl. lia.
Qed.

Lemma merge_loop_huffman fuel heap :
  (length heap ≤ fuel)%nat → heap ≠ [] → heap_ordered freq heap →
  ∃ root, merge_loop fuel heap = Ok [root] ∧ huffman_merge heap root.
Proof.
  revert heap. induction fuel as [|fuel IH]; intros heap Hfuel Hne Hord.
  { destruct heap; [done|simpl in Hfuel; lia]. }
  cbn [merge_loop]. case_decide as Hlen.
  - destruct (heappop_spec lt heap Hne) as (node1 & heap1 & Hpop1 & Hperm1).
    rewrite Hpop1. cbn [mbind result_bind].
    apply (heappop_ordered freq lt lt_freq) in Hpop1 as [Hord1 Hmin1]; [|done].
    assert (heap1 ≠ []) as Hne1.
    { intros ->. apply Permutation_length in Hperm1. simpl in Hperm1. lia. }
    destruct (heappop_spec lt heap1 Hne1) as (node2 & heap2 & Hpop2 & Hperm2).
    rewrite Hpop2. cbn [mbind result_bind].
    apply (heappop_ordered freq lt lt_freq) in Hpop2 as [Hord2 Hmin2]; [|done].
    set (merged := mkNode None (freq node1 + freq node2) (Some node1) (Some node2)).
    destruct (heappush_spec lt heap2 merged) as (heap3 & Hpush & Hperm3).
    rewrite Hpush. cbn [mbind result_bind].
    apply (heappush_ordered freq lt lt_freq) in Hpush; [|done].
    destruct (IH heap3) as (root & -> & Hm).
    + apply Permutation_length in Hperm1, Hperm2, Hperm3. simpl in *. lia.
    + intros ->. by apply Permutation_nil_cons in Hperm3.
    + done.
    + exists root. split; [done|].
      apply (huffman_merge_step heap node1 node2 heap2 root).
      * by rewrite <- Hperm1, Hperm2.
      * apply Hmin1. rewrite <- Hperm1, <- Hperm2. set_solver.
      * intros n Hn. apply Hmin2. rewrite <- Hperm2. set_solver.
      * by apply (huffman_merge_perm heap3).
  - destruct heap as [|root [|??]]; [done| |simpl in Hlen; lia].
    exists root. split; [done|constructor].
Qed.

Lemma counter_add_total c x :
  foldr Z.add 0 (counter_add c x).*2 = foldr Z.add 0 c.*2 + 1.
Proof.
  induction c as [|[y n] c IH]; cbn [counter_add]; [done|].
  case_decide; rewrite !fmap_cons; cbn [foldr snd]; [lia|rewrite IH; lia].
Qed.

Lemma Counter_total data : foldr Z.add 0 (Counter data).*2 = Z.of_nat (length data).
Proof.
  unfold Counter.
  assert (∀ c, foldr Z.add 0 (foldl counter_add c data).*2
               = foldr Z.add 0 c.*2 + Z.of_nat (length data)) as H.
  { induction data as [|b data IH]; intros c; simpl length; cbn [foldl]; [lia|].
    rewrite IH, counter_add_total. lia. }
  by rewrite H.
Qed.

Lemma total_freq_leaf_nodes frequency :
  total_freq (leaf_nodes frequency) = foldr Z.add 0 frequency.*2.
Proof.
  unfold total_freq, leaf_nodes.
  induction frequency as [|[c f] frequency IH]; [done|].
  rewrite !fmap_cons. cbn [foldr snd new_node freq]. by rewrite IH.
Qed.

(** The tree that [compress] builds from data that is not empty. *)
Lemma build_tree_huffman data :
  data ≠ [] →
  ∃ root,
    (heap1 ← _make_heap [] (_make_frequency_dict data);
     heap2 ← _merge_nodes heap1;
     heapq.heappop lt heap2) = Ok (root, [])
    ∧ huffman_merge (leaf_nodes (Counter data)) root.
Proof.
  intros Hne. unfold _make_frequency_dict.
  destruct (_make_heap_ordered [] (Counter data) heap_ordered_nil)
    as (heap1 & -> & Hperm1 & Hord1).
  cbn [mbind result_bind]. rewrite app_nil_l in Hperm1.
  destruct (merge_loop_huffman (length heap1) heap1) as (root & Hmerge & Hm).
  - done.
  - intros ->. apply Permutation_nil_l in Hperm1.
    unfold leaf_nodes in Hperm1. symmetry in Hperm1. apply fmap_nil_inv in Hperm1.
    destruct data as [|b data]; [done|].
    assert (b ∈ (Counter (b :: data)).*1) as Hb by (apply Counter_keys; left).
    rewrite Hperm1 in Hb. by apply elem_of_nil in Hb.
  - done.
  - unfold _merge_nodes. rewrite Hmerge. cbn [mbind result_bind].
    exists root. split; [done|]. by apply (huffman_merge_perm heap1).
Qed.

End huffman_order_facts.

(** [_make_heap] keeps [self.heap] a heap: pushed on a heap in heap order,
    the nodes of the frequency table leave a heap in heap order, whose first
    node has the least frequency. *)
Theorem huffman_make_heap_ordered
    (heap : list Huffman.HuffmanNode) (frequency : list (byte * Z)) :
  heap_ordered Huffman.freq heap →
  ∃ heap',
    Huffman._make_heap heap frequency = Ok heap'
    ∧ heap_ordered Huffman.freq heap'
    ∧ ∀ first n, heap' !! 0%nat = Some first → n ∈ heap' →
        Huffman.freq first ≤ Huffman.freq n.
Proof.
  intros Hord.
  destruct (_make_heap_ordered heap frequency Hord) as (heap' & Hmk & _ & Hord').
  exists heap'. split_and!; [done..|].
  intros first n Hfirst Hn. by eapply heap_ordered_root.
Qed.

Lemma huffman_make_heap_ordered_witness :
  ∃ heap',
    Huffman._make_heap [] [("a"%byte, 2); ("b"%byte, 1)] = Ok heap'
    ∧ heap_ordered Huffman.freq heap'
    ∧ ∀ first n, heap' !! 0%nat = Some first → n ∈ heap' →
        Huffman.freq first ≤ Huffman.freq n.
Proof.
  apply (huffman_make_heap_ordered [] [("a"%byte, 2); ("b"%byte, 1)]).
  by intros i x p _ ?.
Defined.

(** [_make_heap] and [_merge_nodes] implement Huffman's rule: on data that
    is not empty, the tree [compress] builds on a fresh instance is obtained
    from one node per distinct byte, with its number of occurrences, by
    merging two nodes of least frequency until one node is left; the heap is
    then empty. *)
Theorem huffman_tree_by_least_merges (data : bytes) :
  data ≠ [] →
  ∃ root,
    (heap1 ← Huffman._make_heap [] (Huffman._make_frequency_dict data);
     heap2 ← Huffman._merge_nodes heap1;
     heapq.heappop Huffman.lt heap2) = Ok (root, [])
    ∧ huffman_merge (leaf_nodes (Huffman.Counter data)) root.
Proof. apply build_tree_huffman. Qed.

Lemma huffman_tree_by_least_merges_witness :
  ∃ root,
    (heap1 ← Huffman._make_heap []
       (Huffman._make_frequency_dict ["a"%byte; "b"%byte; "a"%byte]);
     heap2 ← Huffman._merge_nodes heap1;
     heapq.heappop Huffman.lt heap2) = Ok (root, [])
    ∧ huffman_merge (leaf_nodes (Huffman.Counter ["a"%byte; "b"%byte; "a"%byte])) root.
Proof. by apply (huffman_tree_by_least_merges ["a"%byte; "b"%byte; "a"%byte]). Defined.

(** The frequency of the root of the tree is the length of the data: the
    frequencies [_merge_nodes] adds up are the counts of
    [_make_frequency_dict]. *)
Theorem huffman_root_freq (data : bytes) :
  data ≠ [] →
  ∃ root,
    (heap1 ← Huffman._make_heap [] (Huffman._make_frequency_dict data);
     heap2 ← Huffman._merge_nodes heap1;
     heapq.heappop Huffman.lt heap2) = Ok (root, [])
    ∧ Huffman.freq root = Z.of_nat (length data).
Proof.
  intros Hne. destruct (build_tree_huffman data Hne) as (root & Hbuild & Hm).
  exists root. split; [done|].
  by rewrite (huffman_merge_freq _ _ Hm), total_freq_leaf_nodes, Counter_total.
Qed.

Lemma huffman_root_freq_witness :
  ∃ root,
    (heap1 ← Huffman._make_heap []
       (Huffman._make_frequency_dict ["a"%byte; "b"%byte; "a"%byte]);
     heap2 ← Huffman._merge_nodes heap1;
     heapq.heappop Huffman.lt heap2) = Ok (root, [])
    ∧ Huffman.freq root = Z.of_nat (length ["a"%byte; "b"%byte; "a"%byte]).
Proof. by apply (huffman_root_freq ["a"%byte; "b"%byte; "a"%byte]). Defined.

Section huffman_decoder_facts.
Import Huffman.

Lemma _remove_padding_bytes b byte_array :
  ∃ encoded_text,
    _remove_padding (_bytes_to_binary (b :: byte_array)) = Ok encoded_text
    ∧ (length encoded_text ≤ 8 * length byte_array)%nat.
Proof.
  rewrite _bytes_to_binary_cons. unfold _remove_padding.
  destruct (format_08b_byte b) as [Hlen Hint].
  rewrite take_app_length' by done. rewrite Hint. cbn [mbind result_bind].
  rewrite drop_app_length' by done.
  eexists. split; [done|].
  case_decide; rewrite ?length_take, length__bytes_to_binary; lia.
Qed.

End huffman_decoder_facts.

(** [HuffmanCoding.decompress] raises on no pair of bytes and a table: the
    padding descriptor is read from the bits of a byte, so [int(..., 2)]
    never fails, and a descriptor larger than the text leaves an empty text.
    The output has at most one byte for each bit after the first byte. *)
Theorem huffman_decompress_total (byte_array : bytes) (reverse_mapping : gmap str byte) :
  ∃ out,
    Huffman.decompress (byte_array, reverse_mapping) = Ok out
    ∧ (length out ≤ 8 * (length byte_array - 1))%nat.
Proof.
  destruct byte_array as [|b byte_array].
  { exists []. split; [done|simpl; lia]. }
  unfold Huffman.decompress.
  destruct (_remove_padding_bytes b byte_array) as (encoded_text & -> & Hlen).
  cbn [mbind result_bind]. eexists. split; [done|].
  unfold Huffman._decode_text.
  pose proof (decode_loop_length reverse_mapping encoded_text [] []) as Hdec.
  simpl in *. lia.
Qed.
